(** * The publisher-side media track receiver (pkg/rtc/mediatrackreceiver.go)

    A shallow embedding of [MediaTrackReceiver]: the slot list of
    per-codec receivers, the authoritative [TrackInfo], the lifecycle
    state and the hooks, with the operations that mutate them written as
    functions from one receiver value to the next.  Calls that leave the
    object (hooks, the subscriptions collaborator, the per-codec
    receivers) are appended to a trace, in the order the code makes them.

    The read-write lock is not modelled: every operation below is the
    sequential behaviour of one call. *)

From Stdlib Require Import ZArith Ascii String Bool Lia.
From stdpp Require Import base list sorting strings.

Local Open Scope Z_scope.

(** ** Go library functions used by the file *)

Module GoStrings.

(** [strings.EqualFold], ASCII path: two bytes match when they are equal
    or when the smaller one is an upper-case letter and the larger one is
    that letter plus ['a' - 'A'].  Codec mime types are ASCII; bytes
    above 127 are compared exactly here. *)
Definition foldEq (sr tr : ascii) : bool :=
  let sr := Z.of_N (N_of_ascii sr) in
  let tr := Z.of_N (N_of_ascii tr) in
  if tr =? sr then true
  else
    let '(sr, tr) := if tr <? sr then (tr, sr) else (sr, tr) in
    (65 <=? sr) && (sr <=? 90) && (tr =? sr + 97 - 65).

Fixpoint EqualFold (s t : string) : bool :=
  match s, t with
  | EmptyString, EmptyString => true
  | String sr s', String tr t' => foldEq sr tr && EqualFold s' t'
  | _, _ => false
  end.

(** The canonical representative of a fold class: upper-case ASCII
    letters replaced by their lower-case form.  Not part of the Go code;
    used to reason about [EqualFold] as an equivalence. *)
Definition lowerByte (c : ascii) : Z :=
  let b := Z.of_N (N_of_ascii c) in
  if (65 <=? b) && (b <=? 90) then b + 32 else b.

Fixpoint lower (s : string) : list Z :=
  match s with
  | EmptyString => []
  | String c s' => lowerByte c :: lower s'
  end.

End GoStrings.

Module GoSort.

(** The insertion sort that [sort.Slice] runs on short slices: every
    element moves left while [less] puts it before its left neighbour.
    It serves as the reference implementation of the sorting contract
    stated further down, and sorts the layer heights. *)
Fixpoint insertSorted {A} (less : A -> A -> bool) (x : A) (l : list A) : list A :=
  match l with
  | [] => [x]
  | y :: l' => if less x y then x :: y :: l' else y :: insertSorted less x l'
  end.

Definition insertionSort {A} (less : A -> A -> bool) (l : list A) : list A :=
  fold_left (fun acc x => insertSorted less x acc) l [].

End GoSort.

Module Float32.

(** A finite, non-negative IEEE-754 binary32 value [mant * 2^expo] with
    [mant < 2^24] (or [mant = 2^24] after a carry, which denotes the same
    number as [2^23] one exponent higher).  The values met in this file
    lie between 0 and 2^32, far from the subnormal and overflow ranges,
    so the exponent is left unbounded. *)
Record float32 := mkFloat32 { mant : Z; expo : Z }.

(** Round [m * 2^e] to 24 significant bits, to nearest, ties to even. *)
Definition roundNearestEven (m e : Z) : float32 :=
  let bits := Z.log2 m + 1 in
  if bits <=? 24 then mkFloat32 m e
  else
    let s := bits - 24 in
    let q := Z.shiftr m s in
    let r := Z.land m (Z.ones s) in
    let half := Z.shiftl 1 (s - 1) in
    let q' := if (half <? r) || ((r =? half) && Z.odd q) then q + 1 else q in
    mkFloat32 q' (e + s).

(** [float32(n)] for an unsigned integer [n]. *)
Definition of_uint32 (n : Z) : float32 := roundNearestEven n 0.

(** The product of two binary32 values: the exact product, rounded. *)
Definition mul (a b : float32) : float32 :=
  roundNearestEven (mant a * mant b) (expo a + expo b).

(** [uint32(f)]: truncation toward zero.  The only value converted in
    this file is at most [0.9 * 2^32], so it stays in range. *)
Definition to_uint32 (f : float32) : Z :=
  if 0 <=? expo f then Z.shiftl (mant f) (expo f)
  else Z.shiftr (mant f) (- expo f).

End Float32.

(** ** The protocol's track metadata *)

(** Modelled from the spec: the protobuf message types of the protocol
    package ([livekit.TrackInfo], [livekit.SimulcastCodecInfo],
    [livekit.VideoLayer], [livekit.TrackType], [livekit.VideoQuality])
    are declared outside this file; the fields are those of the spec's
    data model, unsigned 32-bit fields as [Z]. *)
Inductive TrackType := TrackType_AUDIO | TrackType_VIDEO | TrackType_DATA.

(** Modelled from the spec: [livekit.VideoQuality] is a 32-bit enum with
    ordinals 0 = low, 1 = medium, 2 = high. *)
Definition VideoQuality := Z.
Definition VideoQuality_LOW : VideoQuality := 0.
Definition VideoQuality_MEDIUM : VideoQuality := 1.
Definition VideoQuality_HIGH : VideoQuality := 2.

(** The conversion [livekit.VideoQuality(i)] of an [int] to the 32-bit
    enum type. *)
Definition VideoQuality_of_int (i : Z) : VideoQuality :=
  (i + 2 ^ 31) mod 2 ^ 32 - 2 ^ 31.

(** Modelled from the spec: [livekit.VideoLayer], a quality with its
    dimensions and the RTP synchronization source of the layer (zero
    when not set yet). *)
Record VideoLayer := mkVideoLayer {
  vl_Quality : VideoQuality;
  vl_Width : Z;
  vl_Height : Z;
  vl_Ssrc : Z
}.

(** Modelled from the spec: [livekit.SimulcastCodecInfo], the spec's
    CodecInfo. *)
Record SimulcastCodecInfo := mkSimulcastCodecInfo {
  ci_MimeType : string;
  ci_Mid : string;
  ci_Cid : string;
  ci_Layers : list VideoLayer
}.

(** Modelled from the spec: [livekit.TrackInfo]; [ti_Layers] mirrors the
    layers of the primary codec, the one at index 0 of [ti_Codecs]. *)
Record TrackInfo := mkTrackInfo {
  ti_Sid : string;
  ti_Type : TrackType;
  ti_Source : Z;
  ti_Stream : string;
  ti_Name : string;
  ti_Muted : bool;
  ti_Simulcast : bool;
  ti_Width : Z;
  ti_Height : Z;
  ti_Encryption : Z;
  ti_DisableRed : bool;
  ti_MimeType : string;
  ti_Mid : string;
  ti_Codecs : list SimulcastCodecInfo;
  ti_Layers : list VideoLayer
}.

Definition set_ti_Muted (b : bool) (ti : TrackInfo) : TrackInfo :=
  mkTrackInfo (ti_Sid ti) (ti_Type ti) (ti_Source ti) (ti_Stream ti) (ti_Name ti)
    b (ti_Simulcast ti) (ti_Width ti) (ti_Height ti) (ti_Encryption ti)
    (ti_DisableRed ti) (ti_MimeType ti) (ti_Mid ti) (ti_Codecs ti) (ti_Layers ti).

Definition set_ti_MimeType_Mid (mime mid : string) (ti : TrackInfo) : TrackInfo :=
  mkTrackInfo (ti_Sid ti) (ti_Type ti) (ti_Source ti) (ti_Stream ti) (ti_Name ti)
    (ti_Muted ti) (ti_Simulcast ti) (ti_Width ti) (ti_Height ti) (ti_Encryption ti)
    (ti_DisableRed ti) mime mid (ti_Codecs ti) (ti_Layers ti).

Definition set_ti_Codecs (codecs : list SimulcastCodecInfo) (ti : TrackInfo) : TrackInfo :=
  mkTrackInfo (ti_Sid ti) (ti_Type ti) (ti_Source ti) (ti_Stream ti) (ti_Name ti)
    (ti_Muted ti) (ti_Simulcast ti) (ti_Width ti) (ti_Height ti) (ti_Encryption ti)
    (ti_DisableRed ti) (ti_MimeType ti) (ti_Mid ti) codecs (ti_Layers ti).

Definition set_ti_Layers (layers : list VideoLayer) (ti : TrackInfo) : TrackInfo :=
  mkTrackInfo (ti_Sid ti) (ti_Type ti) (ti_Source ti) (ti_Stream ti) (ti_Name ti)
    (ti_Muted ti) (ti_Simulcast ti) (ti_Width ti) (ti_Height ti) (ti_Encryption ti)
    (ti_DisableRed ti) (ti_MimeType ti) (ti_Mid ti) (ti_Codecs ti) layers.

Definition set_vl_Ssrc (ssrc : Z) (l : VideoLayer) : VideoLayer :=
  mkVideoLayer (vl_Quality l) (vl_Width l) (vl_Height l) ssrc.

Definition set_ci_Layers (layers : list VideoLayer) (ci : SimulcastCodecInfo) : SimulcastCodecInfo :=
  mkSimulcastCodecInfo (ci_MimeType ci) (ci_Mid ci) (ci_Cid ci) layers.

Definition set_ci_Mid (mid : string) (ci : SimulcastCodecInfo) : SimulcastCodecInfo :=
  mkSimulcastCodecInfo (ci_MimeType ci) mid (ci_Cid ci) (ci_Layers ci).

Definition set_ci_MimeType_Mid (mime mid : string) (ci : SimulcastCodecInfo) : SimulcastCodecInfo :=
  mkSimulcastCodecInfo mime mid (ci_Cid ci) (ci_Layers ci).

(** ** Receivers and slots *)

(** Modelled from the spec: [webrtc.RTPCodecParameters] and
    [webrtc.RTPHeaderExtensionParameter] are library types; the fields
    kept are the ones the spec names. *)
Record RTPCodecParameters := mkCodec {
  codec_MimeType : string;
  codec_ClockRate : Z
}.

Record RTPHeaderExtensionParameter := mkHeaderExt {
  ext_URI : string;
  ext_ID : Z
}.

(** Modelled from the spec: a real per-codec receiver (the consumed
    [sfu.TrackReceiver] interface, implemented by the receive pipeline).
    [recv_id] stands for the pointer; [recv_Codec] is what [Codec()]
    returns. *)
Record WebRTCReceiver := mkReceiver {
  recv_id : nat;
  recv_Codec : RTPCodecParameters
}.

(** Modelled from the spec: [DummyReceiver] is declared outside this
    file.  It is the placeholder of an announced codec: it carries the
    provisional codec and header extensions and holds either no delegate
    or the real receiver it was upgraded to. *)
Record DummyReceiver := mkDummy {
  dummy_trackID : string;
  dummy_streamId : string;
  dummy_codec : RTPCodecParameters;
  dummy_headerExtensions : list RTPHeaderExtensionParameter;
  dummy_receiver : option WebRTCReceiver
}.

Definition NewDummyReceiver (trackID streamId : string) (codec : RTPCodecParameters)
    (headerExtensions : list RTPHeaderExtensionParameter) : DummyReceiver :=
  mkDummy trackID streamId codec headerExtensions None.

(** Modelled from the spec: [Receiver()] returns the current delegate or
    nil. *)
Definition DummyReceiver_Receiver (d : DummyReceiver) : option WebRTCReceiver :=
  dummy_receiver d.

(** Modelled from the spec: [Upgrade] sets the delegate; an upgrade
    happens at most once per instance, a later call never replaces a
    live delegate. *)
Definition DummyReceiver_Upgrade (d : DummyReceiver) (receiver : WebRTCReceiver) : DummyReceiver :=
  match dummy_receiver d with
  | None =>
      mkDummy (dummy_trackID d) (dummy_streamId d) (dummy_codec d)
        (dummy_headerExtensions d) (Some receiver)
  | Some _ => d
  end.

(** Modelled from the spec: operations of a Dummy proxy to the delegate
    when it is set; before that [Codec()] is the provisional codec. *)
Definition DummyReceiver_Codec (d : DummyReceiver) : RTPCodecParameters :=
  match dummy_receiver d with
  | Some r => recv_Codec r
  | None => dummy_codec d
  end.

(** The interface value held by a slot: a real receiver or a Dummy. *)
Inductive TrackReceiver :=
| IsReal (r : WebRTCReceiver)
| IsDummy (d : DummyReceiver).

(** [simulcastReceiver], always handled through a pointer in the code;
    [slot_addr] is that pointer, the identity of the slot. *)
Record simulcastReceiver := mkSlot {
  slot_addr : nat;
  slot_TrackReceiver : TrackReceiver;
  priority : Z
}.

Definition Priority (r : simulcastReceiver) : Z := priority r.

Definition Codec (r : simulcastReceiver) : RTPCodecParameters :=
  match slot_TrackReceiver r with
  | IsReal w => recv_Codec w
  | IsDummy d => DummyReceiver_Codec d
  end.

Definition isDummy (r : simulcastReceiver) : bool :=
  match slot_TrackReceiver r with IsDummy _ => true | IsReal _ => false end.

(** The [less] function both [sort.Slice] calls pass. *)
Definition lessPriority (a b : simulcastReceiver) : bool := Priority a <? Priority b.

(** What a slice sorted with that [less] satisfies. *)
Definition priorityLe (a b : simulcastReceiver) : Prop := Priority a <= Priority b.

(** ** The receiver object *)

Inductive mediaTrackReceiverState :=
| mediaTrackReceiverStateOpen
| mediaTrackReceiverStateClosing
| mediaTrackReceiverStateClosed.

Inductive error := ErrNotOpen | ErrNoReceiver.

Record MediaTrackReceiverParams := mkParams {
  ParticipantID : string;
  IsRelayed : bool;
  AudioConfig_ActiveREDEncoding : bool
}.

(** A subscriber, as far as [AddSubscriber] looks at it. *)
Record LocalParticipant := mkParticipant {
  sub_ID : string;
  sub_SupportsPackedStreamId : bool
}.

Record WrappedReceiverParams := mkWrapped {
  wr_Receivers : list simulcastReceiver;
  wr_TrackID : string;
  wr_StreamId : string;
  wr_UpstreamCodecs : list RTPCodecParameters;
  wr_DisableRed : bool
}.

(** Hooks are Go function values; a natural number names one, [None] is
    the nil function. *)
Definition Hook := nat.

(** The calls that leave the object.  [Call_onClose] also records the
    lifecycle state the object was in when the hook was called. *)
Inductive Call :=
| Call_onSetupReceiver (f : Hook) (mime : string)
| Call_onClose (f : Hook) (observed : mediaTrackReceiverState)
| Call_removeAllSubscribersForMime (mime : string) (willBeResumed : bool)
| Call_SetUpTrackPaused (slot : nat) (muted : bool)
| Call_UpdateTrackInfo (slot : nat) (ti : TrackInfo)
| Call_Subscriptions_OnDownTrackCreated
| Call_Subscriptions_SetMuted (muted : bool)
| Call_Subscriptions_UpdateVideoLayers
| Call_Subscriptions_AddSubscriber (sub : LocalParticipant) (wr : WrappedReceiverParams).

Record MediaTrackReceiver := mkMTR {
  params : MediaTrackReceiverParams;
  receivers : list simulcastReceiver;
  trackInfo : TrackInfo;
  potentialCodecs : list RTPCodecParameters;
  state : mediaTrackReceiverState;
  onSetupReceiver : option Hook;
  onClose : list Hook;
  (** the next unused slot address *)
  nextAddr : nat;
  (** the trace of outgoing calls, oldest first *)
  calls : list Call
}.

Definition set_receivers (l : list simulcastReceiver) (t : MediaTrackReceiver) :=
  mkMTR (params t) l (trackInfo t) (potentialCodecs t) (state t)
    (onSetupReceiver t) (onClose t) (nextAddr t) (calls t).

Definition set_trackInfo (ti : TrackInfo) (t : MediaTrackReceiver) :=
  mkMTR (params t) (receivers t) ti (potentialCodecs t) (state t)
    (onSetupReceiver t) (onClose t) (nextAddr t) (calls t).

Definition set_potentialCodecs (c : list RTPCodecParameters) (t : MediaTrackReceiver) :=
  mkMTR (params t) (receivers t) (trackInfo t) c (state t)
    (onSetupReceiver t) (onClose t) (nextAddr t) (calls t).

Definition set_state (s : mediaTrackReceiverState) (t : MediaTrackReceiver) :=
  mkMTR (params t) (receivers t) (trackInfo t) (potentialCodecs t) s
    (onSetupReceiver t) (onClose t) (nextAddr t) (calls t).

Definition set_onSetupReceiver (f : option Hook) (t : MediaTrackReceiver) :=
  mkMTR (params t) (receivers t) (trackInfo t) (potentialCodecs t) (state t)
    f (onClose t) (nextAddr t) (calls t).

Definition set_onClose (fs : list Hook) (t : MediaTrackReceiver) :=
  mkMTR (params t) (receivers t) (trackInfo t) (potentialCodecs t) (state t)
    (onSetupReceiver t) fs (nextAddr t) (calls t).

Definition set_nextAddr (n : nat) (t : MediaTrackReceiver) :=
  mkMTR (params t) (receivers t) (trackInfo t) (potentialCodecs t) (state t)
    (onSetupReceiver t) (onClose t) n (calls t).

(** Append outgoing calls to the trace. *)
Definition emit (cs : list Call) (t : MediaTrackReceiver) :=
  mkMTR (params t) (receivers t) (trackInfo t) (potentialCodecs t) (state t)
    (onSetupReceiver t) (onClose t) (nextAddr t) (calls t ++ cs).

Definition state_eqb (a b : mediaTrackReceiverState) : bool :=
  match a, b with
  | mediaTrackReceiverStateOpen, mediaTrackReceiverStateOpen
  | mediaTrackReceiverStateClosing, mediaTrackReceiverStateClosing
  | mediaTrackReceiverStateClosed, mediaTrackReceiverStateClosed => true
  | _, _ => false
  end.

(** Functions and constants of other packages, and the library sort. *)
Class Collaborators := {
  (** [sort.Slice(receivers, func(i, j) { receivers[i].Priority() < receivers[j].Priority() })] *)
  sortSlice : list simulcastReceiver -> list simulcastReceiver;
  (** [sfu.IsSvcCodec] *)
  IsSvcCodec : string -> bool;
  (** [dependencydescriptor.ExtensionURI] *)
  ExtensionURI : string;
  (** [buffer.RidToSpatialLayer], [buffer.InvalidLayerSpatial],
      [buffer.SpatialLayerToVideoQuality] *)
  RidToSpatialLayer : string -> TrackInfo -> Z;
  InvalidLayerSpatial : Z;
  SpatialLayerToVideoQuality : Z -> TrackInfo -> VideoQuality;
  (** [PackStreamID] *)
  PackStreamID : string -> string -> string
}.

(** The documented contract of [sort.Slice]: the result is a
    rearrangement of the input in which no later element is [less] than
    an earlier one.  The sort is not stable, so nothing is said about the
    order of slots of equal priority. *)
Class SortSliceSpec (C : Collaborators) : Prop := {
  sortSlice_Permutation : forall l, sortSlice l ≡ₚ l;
  sortSlice_Sorted : forall l, StronglySorted priorityLe (sortSlice l)
}.

(** ** Operations *)

Import GoStrings.

Section Operations.
Context `{C : Collaborators}.

Definition OnSetupReceiver (f : option Hook) (t : MediaTrackReceiver) : MediaTrackReceiver :=
  set_onSetupReceiver f t.

(** The scan of [SetupReceiver] for a slot of the same codec taken by a
    Dummy: the first such slot is upgraded and the scan stops; [None]
    when the scan ends without an upgrade. *)
Fixpoint upgradeDummy (receivers : list simulcastReceiver) (receiver : WebRTCReceiver)
    : option (list simulcastReceiver) :=
  match receivers with
  | [] => None
  | r :: rest =>
      if EqualFold (codec_MimeType (Codec r)) (codec_MimeType (recv_Codec receiver)) then
        match slot_TrackReceiver r with
        | IsDummy d =>
            Some (mkSlot (slot_addr r) (IsDummy (DummyReceiver_Upgrade d receiver)) (priority r) :: rest)
        | IsReal _ => option_map (cons r) (upgradeDummy rest receiver)
        end
      else option_map (cons r) (upgradeDummy rest receiver)
  end.

(** The loop over [t.trackInfo.Codecs] in [SetupReceiver]: the codec at
    index [priority] takes the receiver's mime type and the mid. *)
Fixpoint setCodecAt (codecs : list SimulcastCodecInfo) (i priority : Z) (mime mid : string)
    : list SimulcastCodecInfo :=
  match codecs with
  | [] => []
  | ci :: rest =>
      if i =? priority then set_ci_MimeType_Mid mime mid ci :: rest
      else ci :: setCodecAt rest (i + 1) priority mime mid
  end.

Definition SetupReceiver (t : MediaTrackReceiver) (receiver : WebRTCReceiver)
    (priority : Z) (mid : string) : MediaTrackReceiver :=
  if negb (state_eqb (state t) mediaTrackReceiverStateOpen) then t
  else
    let mime := codec_MimeType (recv_Codec receiver) in
    let '(receivers, next) :=
      match upgradeDummy (receivers t) receiver with
      | Some upgraded => (upgraded, nextAddr t)
      | None =>
          (receivers t ++ [mkSlot (nextAddr t) (IsReal receiver) priority], S (nextAddr t))
      end in
    let receivers := sortSlice receivers in
    let ti := trackInfo t in
    let ti :=
      if String.eqb mid EmptyString then ti
      else
        let ti := if priority =? 0 then set_ti_MimeType_Mid mime mid ti else ti in
        set_ti_Codecs (setCodecAt (ti_Codecs ti) 0 priority mime mid) ti in
    let t := set_nextAddr next (set_trackInfo ti (set_receivers receivers t)) in
    match onSetupReceiver t with
    | Some f => emit [Call_onSetupReceiver f mime] t
    | None => t
    end.

(** The loop over [codecs] in [SetPotentialCodecs]; [i] is the index of
    the head of [codecs]. *)
Fixpoint addPotentialCodecs (codecs : list RTPCodecParameters) (i : Z)
    (headers headersWithoutDD : list RTPHeaderExtensionParameter)
    (trackID streamId : string)
    (receivers : list simulcastReceiver) (next : nat)
    : list simulcastReceiver * nat :=
  match codecs with
  | [] => (receivers, next)
  | c :: rest =>
      let exist :=
        existsb (fun r => EqualFold (codec_MimeType c) (codec_MimeType (Codec r))) receivers in
      if exist then
        addPotentialCodecs rest (i + 1) headers headersWithoutDD trackID streamId receivers next
      else
        let extHeaders :=
          if negb (IsSvcCodec (codec_MimeType c)) then headersWithoutDD else headers in
        addPotentialCodecs rest (i + 1) headers headersWithoutDD trackID streamId
          (receivers ++ [mkSlot next (IsDummy (NewDummyReceiver trackID streamId c extHeaders)) i])
          (S next)
  end.

Definition SetPotentialCodecs (t : MediaTrackReceiver) (codecs : list RTPCodecParameters)
    (headers : list RTPHeaderExtensionParameter) : MediaTrackReceiver :=
  let headersWithoutDD :=
    List.filter (fun h => negb (String.eqb (ext_URI h) ExtensionURI)) headers in
  let '(receivers, next) :=
    addPotentialCodecs codecs 0 headers headersWithoutDD
      (ti_Sid (trackInfo t)) (ParticipantID (params t)) (receivers t) (nextAddr t) in
  let receivers := sortSlice receivers in
  set_nextAddr next (set_receivers receivers (set_potentialCodecs codecs t)).

(** The slot list after the loop of [ClearReceiver]: the first slot of
    that mime type is overwritten by the last slot and the slice is cut
    by one. *)
Definition clearReceiver (receivers : list simulcastReceiver) (mime : string)
    : list simulcastReceiver :=
  match list_find (fun r => EqualFold (codec_MimeType (Codec r)) mime = true) receivers with
  | Some (idx, _) =>
      match last receivers with
      | Some lst => take (length receivers - 1)%nat (<[idx := lst]> receivers)
      | None => receivers
      end
  | None => receivers
  end.

Definition ClearReceiver (t : MediaTrackReceiver) (mime : string) (willBeResumed : bool)
    : MediaTrackReceiver :=
  emit [Call_removeAllSubscribersForMime mime willBeResumed]
    (set_receivers (clearReceiver (receivers t) mime) t).

Definition ClearAllReceivers (t : MediaTrackReceiver) (willBeResumed : bool)
    : MediaTrackReceiver :=
  let receivers := receivers t in
  emit (map (fun r => Call_removeAllSubscribersForMime (codec_MimeType (Codec r)) willBeResumed)
          receivers)
    (set_receivers [] t).

Definition SetClosing (t : MediaTrackReceiver) : MediaTrackReceiver :=
  if state_eqb (state t) mediaTrackReceiverStateOpen
  then set_state mediaTrackReceiverStateClosing t
  else t.

Definition Close (t : MediaTrackReceiver) : MediaTrackReceiver :=
  if state_eqb (state t) mediaTrackReceiverStateClosed then t
  else
    let t := set_state mediaTrackReceiverStateClosed t in
    let onclose := onClose t in
    fold_left (fun t f => emit [Call_onClose f (state t)] t) onclose t.

(** [dr != nil && dr.Receiver() != nil] for the receiver of a slot. *)
Definition hasUpgradedDummy (r : simulcastReceiver) : bool :=
  match slot_TrackReceiver r with
  | IsDummy dr => match DummyReceiver_Receiver dr with Some _ => true | None => false end
  | IsReal _ => false
  end.

Definition TryClose (t : MediaTrackReceiver) : bool * MediaTrackReceiver :=
  if state_eqb (state t) mediaTrackReceiverStateClosed then (true, t)
  else if existsb hasUpgradedDummy (receivers t) then (false, t)
  else (true, Close t).

Definition AddOnClose (f : option Hook) (t : MediaTrackReceiver) : MediaTrackReceiver :=
  match f with
  | None => t
  | Some f => set_onClose (onClose t ++ [f]) t
  end.

Definition ID (t : MediaTrackReceiver) : string := ti_Sid (trackInfo t).
Definition Kind (t : MediaTrackReceiver) : TrackType := ti_Type (trackInfo t).
Definition PublisherID (t : MediaTrackReceiver) : string := ParticipantID (params t).

(** What [AddSubscriber] returns: an error with a nil track, or whatever
    the subscriptions collaborator returns for the wrapped receiver. *)
Inductive AddSubscriberResult :=
| AddSubscriber_error (err : error)
| AddSubscriber_delegated (sub : LocalParticipant) (wr : WrappedReceiverParams).

(** The loop of [AddSubscriber] that adds every slot's codec missing
    from the potential codecs (mime types compared exactly). *)
Fixpoint upstreamCodecs (receivers : list simulcastReceiver)
    (potentialCodecs : list RTPCodecParameters) : list RTPCodecParameters :=
  match receivers with
  | [] => potentialCodecs
  | receiver :: rest =>
      let codec := Codec receiver in
      let found :=
        existsb (fun pc => String.eqb (codec_MimeType codec) (codec_MimeType pc))
          potentialCodecs in
      upstreamCodecs rest (if found then potentialCodecs else potentialCodecs ++ [codec])
  end.

Definition AddSubscriber (t : MediaTrackReceiver) (sub : LocalParticipant)
    : AddSubscriberResult * MediaTrackReceiver :=
  if negb (state_eqb (state t) mediaTrackReceiverStateOpen)
  then (AddSubscriber_error ErrNotOpen, t)
  else
    let receivers := receivers t in
    let potentialCodecs := potentialCodecs t in
    if (length receivers =? 0)%nat then (AddSubscriber_error ErrNoReceiver, t)
    else
      let potentialCodecs := upstreamCodecs receivers potentialCodecs in
      let streamId :=
        if sub_SupportsPackedStreamId sub
        then PackStreamID (PublisherID t) (ID t)
        else PublisherID t in
      let wr :=
        mkWrapped receivers (ID t) streamId potentialCodecs
          (ti_DisableRed (trackInfo t) || negb (AudioConfig_ActiveREDEncoding (params t))) in
      (AddSubscriber_delegated sub wr, emit [Call_Subscriptions_AddSubscriber sub wr] t).

Definition SetMuted (t : MediaTrackReceiver) (muted : bool) : MediaTrackReceiver :=
  let t := set_trackInfo (set_ti_Muted muted (trackInfo t)) t in
  emit (map (fun r => Call_SetUpTrackPaused (slot_addr r) muted) (receivers t)
        ++ [Call_Subscriptions_SetMuted muted]) t.

(** The constructor makes the subscriptions collaborator and registers
    the object's own [onDownTrackCreated] with it, the first call of the
    trace, before it mutes a track that starts muted. *)
Definition NewMediaTrackReceiver (p : MediaTrackReceiverParams) (ti : TrackInfo)
    : MediaTrackReceiver :=
  let t := mkMTR p [] ti [] mediaTrackReceiverStateOpen None [] 0%nat [] in
  let t := emit [Call_Subscriptions_OnDownTrackCreated] t in
  if ti_Muted (trackInfo t) then SetMuted t true else t.

Definition updateTrackInfoOfReceivers (t : MediaTrackReceiver) : MediaTrackReceiver :=
  let ti := trackInfo t in
  emit (map (fun r => Call_UpdateTrackInfo (slot_addr r) ti) (receivers t)) t.

(** The inner loop of [SetLayerSsrc]: the first layer of that quality
    takes the ssrc unless it already has one. *)
Fixpoint setLayerSsrc (layers : list VideoLayer) (quality : VideoQuality) (ssrc : Z)
    : list VideoLayer :=
  match layers with
  | [] => []
  | l :: rest =>
      if vl_Quality l =? quality
      then (if negb (vl_Ssrc l =? 0) then l else set_vl_Ssrc ssrc l) :: rest
      else l :: setLayerSsrc rest quality ssrc
  end.

(** The outer loop of [SetLayerSsrc] over the codecs, [i] the index of
    the head; the second component is [t.trackInfo.Layers]. *)
Fixpoint setLayerSsrcCodecs (codecs : list SimulcastCodecInfo) (i : Z)
    (mime : string) (quality : VideoQuality) (ssrc : Z) (tiLayers : list VideoLayer)
    : list SimulcastCodecInfo * list VideoLayer :=
  match codecs with
  | [] => ([], tiLayers)
  | ci :: rest =>
      if negb (EqualFold (ci_MimeType ci) mime) then
        let '(rest', tiLayers') := setLayerSsrcCodecs rest (i + 1) mime quality ssrc tiLayers in
        (ci :: rest', tiLayers')
      else
        let layers := setLayerSsrc (ci_Layers ci) quality ssrc in
        (set_ci_Layers layers ci :: rest, if i =? 0 then layers else tiLayers)
  end.

Definition SetLayerSsrc (t : MediaTrackReceiver) (mime rid : string) (ssrc : Z)
    : MediaTrackReceiver :=
  let ti := trackInfo t in
  let layer := RidToSpatialLayer rid ti in
  let layer := if layer =? InvalidLayerSpatial then 0 else layer in
  let quality := SpatialLayerToVideoQuality layer ti in
  let '(codecs, tiLayers) :=
    setLayerSsrcCodecs (ti_Codecs ti) 0 mime quality ssrc (ti_Layers ti) in
  updateTrackInfoOfReceivers
    (set_trackInfo (set_ti_Layers tiLayers (set_ti_Codecs codecs ti)) t).

(** The patch of one new layer against the layers it replaces, shared by
    [UpdateTrackInfo] and [UpdateVideoLayers]: the first old layer of the
    same quality hands over its ssrc if it has one. *)
Definition patchLayer (originLayers : list VideoLayer) (layer : VideoLayer) : VideoLayer :=
  match List.find (fun originLayer => vl_Quality layer =? vl_Quality originLayer) originLayers with
  | Some originLayer =>
      if negb (vl_Ssrc originLayer =? 0) then set_vl_Ssrc (vl_Ssrc originLayer) layer else layer
  | None => layer
  end.

Definition patchCodec (originCodecs : list SimulcastCodecInfo) (ci : SimulcastCodecInfo)
    : SimulcastCodecInfo :=
  match List.find (fun originCi => EqualFold (ci_MimeType ci) (ci_MimeType originCi)) originCodecs with
  | Some originCi =>
      let ci := if negb (String.eqb (ci_Mid originCi) EmptyString)
                then set_ci_Mid (ci_Mid originCi) ci else ci in
      set_ci_Layers (map (patchLayer (ci_Layers originCi)) (ci_Layers ci)) ci
  | None => ci
  end.

(** [Layers = Codecs[0].Layers] when there is a codec at index 0. *)
Definition mirrorPrimaryLayers (ti : TrackInfo) : TrackInfo :=
  match ti_Codecs ti with
  | ci :: _ => set_ti_Layers (ci_Layers ci) ti
  | [] => ti
  end.

Definition UpdateTrackInfo (t : MediaTrackReceiver) (ti : TrackInfo) : MediaTrackReceiver :=
  let clonedInfo := ti in
  let clonedInfo :=
    mirrorPrimaryLayers
      (set_ti_Codecs (map (patchCodec (ti_Codecs (trackInfo t))) (ti_Codecs clonedInfo))
         clonedInfo) in
  let updateMute := negb (Bool.eqb (ti_Muted (trackInfo t)) (ti_Muted clonedInfo)) in
  let t := set_trackInfo clonedInfo t in
  let t := if updateMute then SetMuted t (ti_Muted clonedInfo) else t in
  updateTrackInfoOfReceivers t.

Definition UpdateVideoLayers (t : MediaTrackReceiver) (layers : list VideoLayer)
    : MediaTrackReceiver :=
  let ti := trackInfo t in
  let codecs :=
    map (fun ci => set_ci_Layers (map (patchLayer (ci_Layers ci)) layers) ci) (ti_Codecs ti) in
  let t := set_trackInfo (mirrorPrimaryLayers (set_ti_Codecs codecs ti)) t in
  emit [Call_Subscriptions_UpdateVideoLayers] (updateTrackInfoOfReceivers t).

End Operations.

(** ** Quality selection *)

(** [layerSelectionTolerance = 0.9], as the binary32 value the untyped
    constant takes in [float32(requestedSize) * layerSelectionTolerance]:
    [15099494 * 2^-24], the binary32 number nearest to nine tenths. *)
Definition layerSelectionTolerance : Float32.float32 :=
  Float32.mkFloat32 15099494 (-24).

(** [uint32(float32(requestedSize) * layerSelectionTolerance)] *)
Definition toleratedSize (requestedSize : Z) : Z :=
  Float32.to_uint32 (Float32.mul (Float32.of_uint32 requestedSize) layerSelectionTolerance).

(** [sort.Slice(layerSizes, func(i, j) { layerSizes[i] < layerSizes[j] })]:
    numbers have one ascending arrangement, so every sorting algorithm
    returns this slice. *)
Definition sortLayerSizes (layerSizes : list Z) : list Z :=
  GoSort.insertionSort Z.ltb layerSizes.

(** The selection loop of [GetQualityForDimension]; [i] is the index of
    the head of [layerSizes], [quality] the value held before the loop
    body runs. *)
Fixpoint selectQuality (layerSizes : list Z) (requestedSize : Z) (i : nat)
    (quality : VideoQuality) : VideoQuality :=
  match layerSizes with
  | [] => quality
  | s :: rest =>
      let quality := VideoQuality_of_int (Z.of_nat i) in
      match rest with
      | [] => quality
      | next :: _ =>
          if (requestedSize <=? s) && negb (s =? next) then quality
          else selectQuality rest requestedSize (S i) quality
      end
  end.

Definition GetQualityForDimension (t : MediaTrackReceiver) (width height : Z) : VideoQuality :=
  let quality := VideoQuality_HIGH in
  match Kind t with
  | TrackType_AUDIO => quality
  | _ =>
      if ti_Height (trackInfo t) =? 0 then quality
      else
        let '(origSize, requestedSize) :=
          if ti_Width (trackInfo t) <? ti_Height (trackInfo t)
          then (ti_Width (trackInfo t), width)
          else (ti_Height (trackInfo t), height) in
        let layerSizes := [180; 360; origSize] in
        let providedSizes := map vl_Height (ti_Layers (trackInfo t)) in
        let '(layerSizes, requestedSize) :=
          if (0 <? length providedSizes)%nat
          then (sortLayerSizes providedSizes, height)
          else (layerSizes, requestedSize) in
        let requestedSize := toleratedSize requestedSize in
        selectQuality layerSizes requestedSize 0 quality
  end.

(** ** The specification's wording, where it is compared with the code *)

(** Quality selection as the specification words it: the requested size
    follows the orientation, the default sizes end with the original
    height, the target is nine tenths of the requested size, and the
    answer is the first index that is last or whose size reaches the
    target and differs from the next size. *)
Fixpoint spec_selectIndex (layerSizes : list Z) (requestedSize : Z) (i : nat) : nat :=
  match layerSizes with
  | [] => i
  | s :: rest =>
      match rest with
      | [] => i
      | next :: _ =>
          if (9 * requestedSize <=? 10 * s) && negb (s =? next) then i
          else spec_selectIndex rest requestedSize (S i)
      end
  end.

Definition spec_GetQualityForDimension (ti : TrackInfo) (width height : Z) : VideoQuality :=
  match ti_Type ti with
  | TrackType_AUDIO => VideoQuality_HIGH
  | _ =>
      if ti_Height ti =? 0 then VideoQuality_HIGH
      else
        let requestedSize := if ti_Width ti <? ti_Height ti then width else height in
        let layerSizes :=
          match ti_Layers ti with
          | [] => [180; 360; ti_Height ti]
          | layers => sortLayerSizes (map vl_Height layers)
          end in
        Z.of_nat (spec_selectIndex layerSizes requestedSize 0)
  end.

(** The index at which the selection loop stops: [i] is the last index,
    or the size at [i] reaches the target and differs from the next. *)
Definition stopsAt (layerSizes : list Z) (target : Z) (i : nat) : Prop :=
  (S i = length layerSizes)%nat \/
  exists s next, layerSizes !! i = Some s /\ layerSizes !! S i = Some next /\
                 target <= s /\ s <> next.

(** The sizes and the target the code works with. *)
Definition layerSizesOf (ti : TrackInfo) : list Z :=
  match ti_Layers ti with
  | [] => [180; 360; if ti_Width ti <? ti_Height ti then ti_Width ti else ti_Height ti]
  | layers => sortLayerSizes (map vl_Height layers)
  end.

Definition requestedSizeOf (ti : TrackInfo) (width height : Z) : Z :=
  match ti_Layers ti with
  | [] => if ti_Width ti <? ti_Height ti then width else height
  | _ => height
  end.

(** ** A reference instance and sample values for concrete runs *)

Definition refCollaborators : Collaborators := {|
  sortSlice := GoSort.insertionSort lessPriority;
  IsSvcCodec := fun mime => EqualFold mime "video/av1" || EqualFold mime "video/vp9";
  ExtensionURI := "dependency-descriptor";
  RidToSpatialLayer := fun rid _ =>
    if String.eqb rid "q" then 0
    else if String.eqb rid "h" then 1
    else if String.eqb rid "f" then 2
    else -1;
  InvalidLayerSpatial := -1;
  SpatialLayerToVideoQuality := fun layer _ => layer;
  PackStreamID := fun publisher track => (publisher ++ "|" ++ track)%string
|}.

Definition sampleParams : MediaTrackReceiverParams := mkParams "PA_pub" false true.

Definition sampleLayers : list VideoLayer :=
  [mkVideoLayer VideoQuality_LOW 320 180 0;
   mkVideoLayer VideoQuality_MEDIUM 640 360 0;
   mkVideoLayer VideoQuality_HIGH 1280 720 0].

Definition sampleTrackInfo : TrackInfo :=
  mkTrackInfo "TR_cam" TrackType_VIDEO 1 "camera" "cam" false true 1280 720 0 false
    "" "" [mkSimulcastCodecInfo "video/VP8" "" "" sampleLayers;
           mkSimulcastCodecInfo "video/H264" "" "" sampleLayers]
    sampleLayers.

Definition vp8 : RTPCodecParameters := mkCodec "video/VP8" 90000.
Definition vp8_lower : RTPCodecParameters := mkCodec "video/vp8" 90000.
Definition h264 : RTPCodecParameters := mkCodec "video/H264" 90000.
Definition av1 : RTPCodecParameters := mkCodec "video/AV1" 90000.

Definition sampleHeaders : list RTPHeaderExtensionParameter :=
  [mkHeaderExt "urn:ietf:params:rtp-hdrext:sdes:mid" 1; mkHeaderExt "dependency-descriptor" 2].

Definition sampleTrack : MediaTrackReceiver :=
  NewMediaTrackReceiver sampleParams sampleTrackInfo.

(** ** Runs of operations *)

(** The lifecycle operations. *)
Inductive LifecycleOp := Op_SetClosing | Op_Close | Op_TryClose.

Definition runLifecycleOp (op : LifecycleOp) (t : MediaTrackReceiver) : MediaTrackReceiver :=
  match op with
  | Op_SetClosing => SetClosing t
  | Op_Close => Close t
  | Op_TryClose => snd (TryClose t)
  end.

(** The lifecycle state before the first operation and after each one. *)
Fixpoint stateHistory (ops : list LifecycleOp) (t : MediaTrackReceiver)
    : list mediaTrackReceiverState :=
  state t ::
  match ops with
  | [] => []
  | op :: rest => stateHistory rest (runLifecycleOp op t)
  end.

(** A history with the repetitions of a state dropped: the sequence of
    distinct states passed through. *)
Fixpoint distinctStates (l : list mediaTrackReceiverState) : list mediaTrackReceiverState :=
  match l with
  | [] => []
  | a :: rest =>
      match rest with
      | [] => [a]
      | b :: _ => if state_eqb a b then distinctStates rest else a :: distinctStates rest
      end
  end.

(** The position of a state in the order Open, Closing, Closed. *)
Definition stateRank (s : mediaTrackReceiverState) : nat :=
  match s with
  | mediaTrackReceiverStateOpen => 0
  | mediaTrackReceiverStateClosing => 1
  | mediaTrackReceiverStateClosed => 2
  end.

(** The operations that build the slot list. *)
Inductive SlotOp :=
| Op_SetupReceiver (receiver : WebRTCReceiver) (priority : Z) (mid : string)
| Op_SetPotentialCodecs (codecs : list RTPCodecParameters)
    (headers : list RTPHeaderExtensionParameter).

Definition runSlotOp `{C : Collaborators} (op : SlotOp) (t : MediaTrackReceiver)
    : MediaTrackReceiver :=
  match op with
  | Op_SetupReceiver receiver priority mid => SetupReceiver t receiver priority mid
  | Op_SetPotentialCodecs codecs headers => SetPotentialCodecs t codecs headers
  end.

Definition runSlotOps `{C : Collaborators} (ops : list SlotOp) (t : MediaTrackReceiver)
    : MediaTrackReceiver :=
  fold_left (fun t op => runSlotOp op t) ops t.

(** A [SetupReceiver] call is made with a fresh codec when every slot of
    the receiver's mime type (if any) is held by a Dummy, that is, no
    real receiver of that codec was appended before; a call on a
    receiver object that is not Open changes nothing and counts as
    fresh. *)
Definition freshCodec (op : SlotOp) (t : MediaTrackReceiver) : bool :=
  match op with
  | Op_SetupReceiver receiver _ _ =>
      negb (state_eqb (state t) mediaTrackReceiverStateOpen)
      || forallb (fun r =>
                    negb (GoStrings.EqualFold (codec_MimeType (Codec r))
                            (codec_MimeType (recv_Codec receiver)))
                    || isDummy r)
           (receivers t)
  | Op_SetPotentialCodecs _ _ => true
  end.

Fixpoint freshCodecs `{C : Collaborators} (ops : list SlotOp) (t : MediaTrackReceiver) : bool :=
  match ops with
  | [] => true
  | op :: rest => freshCodec op t && freshCodecs rest (runSlotOp op t)
  end.

(** The slot [r'] is the slot [r] after an operation: the same address
    and priority, and the same receiver, or the same Dummy now
    delegating to a real receiver. *)
Definition sameSlot (r r' : simulcastReceiver) : Prop :=
  slot_addr r' = slot_addr r /\ priority r' = priority r /\
  (slot_TrackReceiver r' = slot_TrackReceiver r \/
   exists d receiver,
     slot_TrackReceiver r = IsDummy d /\
     slot_TrackReceiver r' = IsDummy (DummyReceiver_Upgrade d receiver)).

(** No two slots carry the same mime type up to case. *)
Definition uniqueMimes (l : list simulcastReceiver) : Prop :=
  forall i j r r',
    l !! i = Some r -> l !! j = Some r' ->
    GoStrings.EqualFold (codec_MimeType (Codec r)) (codec_MimeType (Codec r')) = true ->
    i = j.

(** The ssrc the code finds for a mime type and a quality: the first
    codec of that mime type, and in it the first layer of that quality. *)
Definition lookupSsrcIn (codecs : list SimulcastCodecInfo) (mime : string)
    (quality : VideoQuality) : option Z :=
  match List.find (fun ci => GoStrings.EqualFold (ci_MimeType ci) mime) codecs with
  | Some ci =>
      match List.find (fun l => vl_Quality l =? quality) (ci_Layers ci) with
      | Some l => Some (vl_Ssrc l)
      | None => None
      end
  | None => None
  end.

Definition lookupSsrc (ti : TrackInfo) (mime : string) (quality : VideoQuality) : option Z :=
  lookupSsrcIn (ti_Codecs ti) mime quality.

(** The sequences of distinct states a run can pass through, by the
    state it starts in. *)
Definition forwardFrom (s : mediaTrackReceiverState) (seq : list mediaTrackReceiverState) : Prop :=
  match s with
  | mediaTrackReceiverStateOpen =>
      seq = [mediaTrackReceiverStateOpen] \/
      seq = [mediaTrackReceiverStateOpen; mediaTrackReceiverStateClosing] \/
      seq = [mediaTrackReceiverStateOpen; mediaTrackReceiverStateClosed] \/
      seq = [mediaTrackReceiverStateOpen; mediaTrackReceiverStateClosing;
             mediaTrackReceiverStateClosed]
  | mediaTrackReceiverStateClosing =>
      seq = [mediaTrackReceiverStateClosing] \/
      seq = [mediaTrackReceiverStateClosing; mediaTrackReceiverStateClosed]
  | mediaTrackReceiverStateClosed => seq = [mediaTrackReceiverStateClosed]
  end.

(** Sample states: two announced codecs, then the first one published. *)
Definition sampleSeeded : MediaTrackReceiver :=
  SetPotentialCodecs (C := refCollaborators) sampleTrack [vp8; h264] sampleHeaders.

Definition sampleUpgraded : MediaTrackReceiver :=
  SetupReceiver (C := refCollaborators) sampleSeeded (mkReceiver 1 vp8) 0 "0".

(** Three announced codecs, none published yet. *)
Definition sampleThree : MediaTrackReceiver :=
  SetPotentialCodecs (C := refCollaborators) sampleTrack [vp8; h264; av1] sampleHeaders.

(** The sample track after the low layer of VP8 got its ssrc, and an
    update that carries other ssrcs for the same layers. *)
Definition sampleWithSsrc : MediaTrackReceiver :=
  SetLayerSsrc (C := refCollaborators) sampleTrack "video/vp8" "q" 1111.

Definition sampleNewLayers : list VideoLayer :=
  [mkVideoLayer VideoQuality_LOW 320 180 3333;
   mkVideoLayer VideoQuality_MEDIUM 640 360 4444].

Definition sampleNewInfo : TrackInfo :=
  mkTrackInfo "TR_cam" TrackType_VIDEO 1 "camera" "cam" true true 1280 720 0 false
    "" "" [mkSimulcastCodecInfo "VIDEO/VP8" "1" "" sampleNewLayers]
    [].

(** A portrait track with explicit layers, and a track with four layers. *)
Definition portraitTrack : MediaTrackReceiver :=
  NewMediaTrackReceiver sampleParams
    (mkTrackInfo "TR_portrait" TrackType_VIDEO 1 "camera" "cam" false true 360 640 0 false
       "" "" []
       [mkVideoLayer VideoQuality_LOW 90 160 0;
        mkVideoLayer VideoQuality_MEDIUM 180 320 0;
        mkVideoLayer VideoQuality_HIGH 360 640 0]).

Definition fourLayerTrack : MediaTrackReceiver :=
  NewMediaTrackReceiver sampleParams
    (mkTrackInfo "TR_four" TrackType_VIDEO 1 "camera" "cam" false true 3840 2160 0 false
       "" "" []
       [mkVideoLayer 0 480 270 0; mkVideoLayer 1 960 540 0;
        mkVideoLayer 2 1920 1080 0; mkVideoLayer 3 3840 2160 0]).

(** [toleratedSize n] is the integer part of nine tenths of [n], checked
    for [fuel] consecutive values from [n] on. *)
Fixpoint toleranceIsFloor (fuel : nat) (n : Z) : bool :=
  match fuel with
  | O => true
  | S fuel' => (toleratedSize n =? 9 * n / 10) && toleranceIsFloor fuel' (n + 1)
  end.

(** A portrait track without layers. *)
Definition portraitNoLayers : MediaTrackReceiver :=
  NewMediaTrackReceiver sampleParams
    (mkTrackInfo "TR_portrait" TrackType_VIDEO 1 "camera" "cam" false false 360 640 0 false
       "" "" [] []).

(** The fold class of a slot's mime type. *)
Definition mimeKey (r : simulcastReceiver) : list Z :=
  GoStrings.lower (codec_MimeType (Codec r)).

(** The slot [r] after [Upgrade(receiver)] was called on its Dummy [d]. *)
Definition upgradedSlot (r : simulcastReceiver) (d : DummyReceiver) (receiver : WebRTCReceiver)
    : simulcastReceiver :=
  mkSlot (slot_addr r) (IsDummy (DummyReceiver_Upgrade d receiver)) (priority r).

(** The slot [r] is of the receiver's codec and is held by a Dummy: the
    test the scan of [SetupReceiver] makes. *)
Definition matchesDummy (receiver : WebRTCReceiver) (r : simulcastReceiver) : bool :=
  GoStrings.EqualFold (codec_MimeType (Codec r)) (codec_MimeType (recv_Codec receiver))
  && isDummy r.

(** Addresses in use are pairwise distinct and below the next free one. *)
Definition addrsFresh (t : MediaTrackReceiver) : Prop :=
  NoDup (map slot_addr (receivers t)) /\
  forall r, r ∈ receivers t -> (slot_addr r < nextAddr t)%nat.

(** Two real receivers of the same codec, published one after the other. *)
Definition duplicateSetup : list SlotOp :=
  [Op_SetupReceiver (mkReceiver 1 vp8) 0 "0";
   Op_SetupReceiver (mkReceiver 2 vp8_lower) 1 "1"].

(** Announce three codecs, publish two of them, announce again. *)
Definition sampleSlotOps : list SlotOp :=
  [Op_SetPotentialCodecs [vp8; h264; av1] sampleHeaders;
   Op_SetupReceiver (mkReceiver 1 vp8_lower) 0 "0";
   Op_SetupReceiver (mkReceiver 2 h264) 1 "1";
   Op_SetPotentialCodecs [vp8_lower; av1] sampleHeaders].

(** Strictly ascending priorities. *)
Definition priorityLt (a b : simulcastReceiver) : Prop := Priority a < Priority b.

(** Three announced codecs with the first one cleared: the last slot now
    stands first. *)
Definition sampleCleared : MediaTrackReceiver :=
  ClearReceiver sampleThree "video/VP8" false.

(** The first slot of [sampleSeeded] and its Dummy. *)
Definition sampleDummy0 : DummyReceiver :=
  NewDummyReceiver "TR_cam" "PA_pub" vp8 [mkHeaderExt "urn:ietf:params:rtp-hdrext:sdes:mid" 1].

Definition sampleSlot0 : simulcastReceiver := mkSlot 0 (IsDummy sampleDummy0) 0.

(** ** Readers of the slot list *)

(** [IsClosed()] of the receiver held by a slot.  Whether a real
    receiver is closed is that receiver's own state, given here by
    [isClosed]; a Dummy proxies to its delegate when it has one and is
    not closed otherwise (modelled from the spec, as [DummyReceiver]
    above). *)
Definition slot_IsClosed (isClosed : WebRTCReceiver -> bool) (r : simulcastReceiver) : bool :=
  match slot_TrackReceiver r with
  | IsReal w => isClosed w
  | IsDummy d =>
      match DummyReceiver_Receiver d with
      | Some w => isClosed w
      | None => false
      end
  end.

Definition IsOpen (isClosed : WebRTCReceiver -> bool) (t : MediaTrackReceiver) : bool :=
  if negb (state_eqb (state t) mediaTrackReceiverStateOpen) then false
  else negb (existsb (slot_IsClosed isClosed) (receivers t)).

(** The receiver a slot stands for when it is handed out: the delegate
    of a Dummy (nil when it has none), the real receiver otherwise. *)
Definition slot_Receiver (r : simulcastReceiver) : option WebRTCReceiver :=
  match slot_TrackReceiver r with
  | IsDummy dr => DummyReceiver_Receiver dr
  | IsReal w => Some w
  end.

Definition PrimaryReceiver (t : MediaTrackReceiver) : option WebRTCReceiver :=
  match receivers t with
  | [] => None
  | r :: _ => slot_Receiver r
  end.

Definition Receiver (t : MediaTrackReceiver) (mime : string) : option WebRTCReceiver :=
  match List.find (fun r => GoStrings.EqualFold (codec_MimeType (Codec r)) mime) (receivers t) with
  | Some r => slot_Receiver r
  | None => None
  end.

Definition Receivers (t : MediaTrackReceiver) : list TrackReceiver :=
  map slot_TrackReceiver (receivers t).

Definition IsMuted (t : MediaTrackReceiver) : bool := ti_Muted (trackInfo t).

Definition runLifecycleOps (ops : list LifecycleOp) (t : MediaTrackReceiver) : MediaTrackReceiver :=
  fold_left (fun t op => runLifecycleOp op t) ops t.

(** The Dummy slot [SetPotentialCodecs] makes for the codec at index [k]
    of its argument: the header extensions are the publisher's, without
    the dependency descriptor unless the codec is scalable. *)
Definition seededDummy `{C : Collaborators} (t : MediaTrackReceiver)
    (headers : list RTPHeaderExtensionParameter) (c : RTPCodecParameters) : DummyReceiver :=
  NewDummyReceiver (ti_Sid (trackInfo t)) (ParticipantID (params t)) c
    (if IsSvcCodec (codec_MimeType c) then headers
     else List.filter (fun h => negb (String.eqb (ext_URI h) ExtensionURI)) headers).

(** ** Client ids of the codecs *)

Module GoStringsContains.

(** [strings.HasPrefix] and [strings.Contains] on byte strings: a string
    contains [substr] when [substr] is a prefix of one of its suffixes;
    every string contains the empty string. *)
Fixpoint HasPrefix (s prefix : string) : bool :=
  match prefix, s with
  | EmptyString, _ => true
  | String p prefix', String c s' => Ascii.eqb c p && HasPrefix s' prefix'
  | String _ _, EmptyString => false
  end.

Fixpoint Contains (s substr : string) : bool :=
  HasPrefix s substr ||
  match s with
  | EmptyString => false
  | String _ s' => Contains s' substr
  end.

End GoStringsContains.

(** Modelled from the spec: [livekit.SimulcastCodec] is declared in the
    protocol package; a codec name and the client id of its track. *)
Record SimulcastCodec := mkSimulcastCodec {
  sc_Codec : string;
  sc_Cid : string
}.

Definition set_ci_Cid (cid : string) (ci : SimulcastCodecInfo) : SimulcastCodecInfo :=
  mkSimulcastCodecInfo (ci_MimeType ci) (ci_Mid ci) cid (ci_Layers ci).

(** The inner loop of [UpdateCodecCid]: the first codec entry whose mime
    type contains the codec name takes the client id. *)
Fixpoint setCodecCid (origins : list SimulcastCodecInfo) (codec cid : string)
    : list SimulcastCodecInfo :=
  match origins with
  | [] => []
  | origin :: rest =>
      if GoStringsContains.Contains (ci_MimeType origin) codec
      then set_ci_Cid cid origin :: rest
      else origin :: setCodecCid rest codec cid
  end.

Definition UpdateCodecCid (t : MediaTrackReceiver) (codecs : list SimulcastCodec)
    : MediaTrackReceiver :=
  let ti := trackInfo t in
  let origins :=
    fold_left (fun origins c => setCodecCid origins (sc_Codec c) (sc_Cid c)) codecs
      (ti_Codecs ti) in
  updateTrackInfoOfReceivers (set_trackInfo (set_ti_Codecs origins ti) t).

(** The top-level layers are those of the primary codec, the codec entry
    at index 0, when there is one. *)
Definition layersMirrored (ti : TrackInfo) : Prop :=
  match ti_Codecs ti with
  | ci :: _ => ti_Layers ti = ci_Layers ci
  | [] => True
  end.

(** The quality [SetLayerSsrc] derives from a rid: the spatial layer of
    the rid, layer 0 when the rid names none. *)
Definition ridQuality `{C : Collaborators} (rid : string) (ti : TrackInfo) : VideoQuality :=
  let layer := RidToSpatialLayer rid ti in
  SpatialLayerToVideoQuality (if layer =? InvalidLayerSpatial then 0 else layer) ti.

(** ** Every operation on the receiver object *)

Inductive Op :=
| Do_SetupReceiver (receiver : WebRTCReceiver) (priority : Z) (mid : string)
| Do_SetPotentialCodecs (codecs : list RTPCodecParameters)
    (headers : list RTPHeaderExtensionParameter)
| Do_ClearReceiver (mime : string) (willBeResumed : bool)
| Do_ClearAllReceivers (willBeResumed : bool)
| Do_OnSetupReceiver (f : option Hook)
| Do_AddOnClose (f : option Hook)
| Do_SetClosing
| Do_TryClose
| Do_Close
| Do_AddSubscriber (sub : LocalParticipant)
| Do_SetMuted (muted : bool)
| Do_SetLayerSsrc (mime rid : string) (ssrc : Z)
| Do_UpdateCodecCid (codecs : list SimulcastCodec)
| Do_UpdateTrackInfo (ti : TrackInfo)
| Do_UpdateVideoLayers (layers : list VideoLayer).

Definition runOp `{C : Collaborators} (op : Op) (t : MediaTrackReceiver) : MediaTrackReceiver :=
  match op with
  | Do_SetupReceiver receiver priority mid => SetupReceiver t receiver priority mid
  | Do_SetPotentialCodecs codecs headers => SetPotentialCodecs t codecs headers
  | Do_ClearReceiver mime willBeResumed => ClearReceiver t mime willBeResumed
  | Do_ClearAllReceivers willBeResumed => ClearAllReceivers t willBeResumed
  | Do_OnSetupReceiver f => OnSetupReceiver f t
  | Do_AddOnClose f => AddOnClose f t
  | Do_SetClosing => SetClosing t
  | Do_TryClose => snd (TryClose t)
  | Do_Close => Close t
  | Do_AddSubscriber sub => snd (AddSubscriber t sub)
  | Do_SetMuted muted => SetMuted t muted
  | Do_SetLayerSsrc mime rid ssrc => SetLayerSsrc t mime rid ssrc
  | Do_UpdateCodecCid codecs => UpdateCodecCid t codecs
  | Do_UpdateTrackInfo ti => UpdateTrackInfo t ti
  | Do_UpdateVideoLayers layers => UpdateVideoLayers t layers
  end.

Definition runOps `{C : Collaborators} (ops : list Op) (t : MediaTrackReceiver)
    : MediaTrackReceiver :=
  fold_left (fun t op => runOp op t) ops t.

(** The calls of close hooks in a trace. *)
Definition onCloseCalls (cs : list Call) : list Call :=
  List.filter (fun c => match c with Call_onClose _ _ => true | _ => false end) cs.

(** The two kinds of step an operation can take.  A quiet step calls no
    close hook, keeps the registered hooks (it may register one more)
    and keeps the state or moves it from Open to Closing.  A closing
    step enters the state Closed from another state and calls the
    registered hooks, each once, in order. *)
Definition quietStep (t t1 : MediaTrackReceiver) : Prop :=
  (state t1 = state t \/
   (state t = mediaTrackReceiverStateOpen /\ state t1 = mediaTrackReceiverStateClosing)) /\
  onCloseCalls (calls t1) = onCloseCalls (calls t) /\
  onClose t `prefix_of` onClose t1.

Definition closingStep (t t1 : MediaTrackReceiver) : Prop :=
  state t <> mediaTrackReceiverStateClosed /\
  state t1 = mediaTrackReceiverStateClosed /\
  onClose t1 = onClose t /\
  onCloseCalls (calls t1)
  = onCloseCalls (calls t)
    ++ map (fun f => Call_onClose f mediaTrackReceiverStateClosed) (onClose t).

(** ** Revoking subscriptions *)

(** Modelled from the spec: [types.SubscribedTrack] is declared in
    another package; of a subscribed track the code reads the identity
    and the id of the subscriber. *)
Record SubscribedTrack := mkSubscribedTrack {
  st_SubscriberIdentity : string;
  st_SubscriberID : string
}.

(** A call [t.RemoveSubscriber(subscriberID, willBeResumed)]. *)
Record RemoveSubscriberCall := mkRemoveSubscriberCall {
  rm_subscriberID : string;
  rm_willBeResumed : bool
}.

(** The loop of [RevokeDisallowedSubscribers] over the subscribed tracks
    the subscriptions collaborator returns; [removed] collects the calls
    of [RemoveSubscriber], [revoked] is [revokedSubscriberIdentities]. *)
Fixpoint revokeLoop (subTracks : list SubscribedTrack) (allowed : list string)
    (removed : list RemoveSubscriberCall) (revoked : list string)
    : list RemoveSubscriberCall * list string :=
  match subTracks with
  | [] => (removed, revoked)
  | subTrack :: rest =>
      let found :=
        existsb (fun allowedIdentity => String.eqb (st_SubscriberIdentity subTrack) allowedIdentity)
          allowed in
      if negb found
      then revokeLoop rest allowed
             (removed ++ [mkRemoveSubscriberCall (st_SubscriberID subTrack) false])
             (revoked ++ [st_SubscriberIdentity subTrack])
      else revokeLoop rest allowed removed revoked
  end.

(** [RevokeDisallowedSubscribers]; [subscribedTracks] is what
    [getAllSubscribedTracks()] returns. *)
Definition RevokeDisallowedSubscribers (subscribedTracks : list SubscribedTrack)
    (allowedSubscriberIdentities : list string) : list RemoveSubscriberCall * list string :=
  revokeLoop subscribedTracks allowedSubscriberIdentities [] [].

(** ** Sequences of ssrc writes *)

(** The three operations that write layer ssrcs. *)
Inductive SsrcOp :=
| Ssrc_SetLayerSsrc (mime rid : string) (ssrc : Z)
| Ssrc_UpdateTrackInfo (ti : TrackInfo)
| Ssrc_UpdateVideoLayers (layers : list VideoLayer).

Definition runSsrcOp `{C : Collaborators} (op : SsrcOp) (t : MediaTrackReceiver)
    : MediaTrackReceiver :=
  match op with
  | Ssrc_SetLayerSsrc mime rid ssrc => SetLayerSsrc t mime rid ssrc
  | Ssrc_UpdateTrackInfo ti => UpdateTrackInfo t ti
  | Ssrc_UpdateVideoLayers layers => UpdateVideoLayers t layers
  end.

Definition runSsrcOps `{C : Collaborators} (ops : list SsrcOp) (t : MediaTrackReceiver)
    : MediaTrackReceiver :=
  fold_left (fun t op => runSsrcOp op t) ops t.

(** An update carries a pair of mime type and quality when it has a
    layer for it: a new track info in which the pair resolves to a
    layer, new layers with one of that quality.  [SetLayerSsrc] replaces
    no layer. *)
Definition carriesPair (mime : string) (quality : VideoQuality) (op : SsrcOp) : bool :=
  match op with
  | Ssrc_SetLayerSsrc _ _ _ => true
  | Ssrc_UpdateTrackInfo ti =>
      match lookupSsrc ti mime quality with Some _ => true | None => false end
  | Ssrc_UpdateVideoLayers layers =>
      match List.find (fun l => vl_Quality l =? quality) layers with
      | Some _ => true
      | None => false
      end
  end.

(** The sample track after the low layer of H264 got its ssrc and a
    receiver published at index 1 renamed that codec entry, so that two
    codec entries have the mime type of VP8 up to case; and an update
    that carries both. *)
Definition sampleRenamed : MediaTrackReceiver :=
  SetupReceiver (C := refCollaborators)
    (SetLayerSsrc (C := refCollaborators) sampleTrack "video/H264" "q" 5)
    (mkReceiver 2 vp8_lower) 1 "1".

Definition sampleTwoVp8Info : TrackInfo :=
  mkTrackInfo "TR_cam" TrackType_VIDEO 1 "camera" "cam" false true 1280 720 0 false
    "" "" [mkSimulcastCodecInfo "video/VP8" "" "" [mkVideoLayer VideoQuality_LOW 320 180 7];
           mkSimulcastCodecInfo "video/vp8" "" "" [mkVideoLayer VideoQuality_LOW 320 180 8]]
    [].

(** A track whose codec has two layers of the same quality, the second
    with an ssrc, and new layers of that quality. *)
Definition sampleTwoLow : MediaTrackReceiver :=
  NewMediaTrackReceiver sampleParams
    (mkTrackInfo "TR_cam" TrackType_VIDEO 1 "camera" "cam" false true 1280 720 0 false
       "" "" [mkSimulcastCodecInfo "video/VP8" "" ""
                [mkVideoLayer VideoQuality_LOW 320 180 0;
                 mkVideoLayer VideoQuality_LOW 320 180 5]]
       []).

Definition sampleTwoLowLayers : list VideoLayer :=
  [mkVideoLayer VideoQuality_LOW 320 180 7; mkVideoLayer VideoQuality_LOW 320 180 8].

(** New layers without a low layer. *)
Definition sampleMediumOnly : list VideoLayer :=
  [mkVideoLayer VideoQuality_MEDIUM 640 360 4444].

(** The mime type and the layer ssrcs of every codec entry. *)
Definition ssrcTable (t : MediaTrackReceiver) : list (string * list Z) :=
  map (fun ci => (ci_MimeType ci, map vl_Ssrc (ci_Layers ci))) (ti_Codecs (trackInfo t)).

(** * Properties *)

(** ** Case folding *)

Section EqualFoldFacts.
Import GoStrings.

Lemma foldEq_lowerByte (a b : ascii) :
  foldEq a b = true <-> lowerByte a = lowerByte b.
Proof.
  unfold foldEq, lowerByte.
  assert (Ha : (N_of_ascii a < 256)%N) by apply N_ascii_bounded.
  assert (Hb : (N_of_ascii b < 256)%N) by apply N_ascii_bounded.
  set (x := Z.of_N (N_of_ascii a)). set (y := Z.of_N (N_of_ascii b)).
  assert (0 <= x < 256) by (subst x; lia).
  assert (0 <= y < 256) by (subst y; lia).
  clearbody x y. clear Ha Hb.
  destruct (Z.eqb_spec y x) as [->|Hne].
  - split; auto.
  - destruct (Z.ltb_spec y x);
      destruct (Z.leb_spec 65 x), (Z.leb_spec x 90),
               (Z.leb_spec 65 y), (Z.leb_spec y 90); simpl;
      rewrite ?andb_true_iff, ?Z.eqb_eq; split; intros; try lia;
      try (exfalso; lia); try discriminate.
Qed.

Lemma EqualFold_lower (s t : string) :
  EqualFold s t = true <-> lower s = lower t.
Proof.
  revert t; induction s as [|a s IH]; intros [|b t]; simpl;
    try (split; [discriminate|discriminate]); try tauto.
  rewrite andb_true_iff, foldEq_lowerByte, IH.
  split; [intros [-> ->]; reflexivity | intros H; inversion H; auto].
Qed.

Lemma EqualFold_refl (s : string) : EqualFold s s = true.
Proof. apply EqualFold_lower; reflexivity. Qed.

Lemma EqualFold_sym (s t : string) : EqualFold s t = EqualFold t s.
Proof.
  destruct (EqualFold s t) eqn:E1, (EqualFold t s) eqn:E2; auto.
  - apply EqualFold_lower in E1. symmetry in E1.
    apply EqualFold_lower in E1. congruence.
  - apply EqualFold_lower in E2. symmetry in E2.
    apply EqualFold_lower in E2. congruence.
Qed.

Lemma EqualFold_trans (s t u : string) :
  EqualFold s t = true -> EqualFold t u = true -> EqualFold s u = true.
Proof. rewrite !EqualFold_lower. congruence. Qed.

(** Replacing one side by a fold-equal string does not change the answer. *)
Lemma EqualFold_congr_l (s t u : string) :
  EqualFold s t = true -> EqualFold s u = EqualFold t u.
Proof.
  intros Hst.
  destruct (EqualFold s u) eqn:E1, (EqualFold t u) eqn:E2; auto.
  - rewrite EqualFold_sym in Hst.
    rewrite (EqualFold_trans _ _ _ Hst E1) in E2. discriminate.
  - rewrite (EqualFold_trans _ _ _ Hst E2) in E1. discriminate.
Qed.

End EqualFoldFacts.

(** ** The reference sort meets the sorting contract *)

Section InsertionSortFacts.
Context {A : Type} (key : A -> Z).
Let less (a b : A) : bool := key a <? key b.
Let le (a b : A) : Prop := key a <= key b.

Lemma insertSorted_Permutation (x : A) (l : list A) :
  GoSort.insertSorted less x l ≡ₚ x :: l.
Proof.
  induction l as [|y l IH]; simpl; [reflexivity|].
  destruct (less x y); [reflexivity|].
  rewrite IH. apply Permutation_swap.
Qed.

Lemma insertionSort_Permutation (l : list A) :
  GoSort.insertionSort less l ≡ₚ l.
Proof.
  unfold GoSort.insertionSort.
  enough (Hgen : forall acc, fold_left (fun acc x => GoSort.insertSorted less x acc) l acc ≡ₚ acc ++ l).
  { rewrite Hgen. reflexivity. }
  induction l as [|x l IH]; intros acc; simpl.
  - rewrite app_nil_r. reflexivity.
  - rewrite IH, insertSorted_Permutation.
    rewrite (Permutation_middle acc l x). reflexivity.
Qed.

Lemma insertSorted_StronglySorted (x : A) (l : list A) :
  StronglySorted le l -> StronglySorted le (GoSort.insertSorted less x l).
Proof.
  induction 1 as [|y l Hl IH Hy]; simpl.
  - repeat constructor.
  - unfold less at 1. destruct (Z.ltb_spec (key x) (key y)) as [Hlt|Hge].
    + constructor; [constructor; assumption|].
      constructor; [unfold le; lia|].
      eapply Forall_impl; [exact Hy|]. unfold le; simpl; intros; lia.
    + constructor; [exact IH|].
      rewrite Forall_forall. intros z Hz.
      rewrite insertSorted_Permutation in Hz.
      apply elem_of_cons in Hz as [->|Hz]; [exact Hge|].
      rewrite Forall_forall in Hy. auto.
Qed.

Lemma insertionSort_StronglySorted (l : list A) :
  StronglySorted le (GoSort.insertionSort less l).
Proof.
  unfold GoSort.insertionSort.
  enough (Hgen : forall acc, StronglySorted le acc ->
            StronglySorted le (fold_left (fun acc x => GoSort.insertSorted less x acc) l acc)).
  { apply Hgen. constructor. }
  induction l as [|x l IH]; intros acc Hacc; simpl; [exact Hacc|].
  apply IH, insertSorted_StronglySorted, Hacc.
Qed.

End InsertionSortFacts.

Lemma refCollaborators_SortSliceSpec : SortSliceSpec refCollaborators.
Proof.
  split; intros l; simpl.
  - apply (insertionSort_Permutation Priority).
  - apply (insertionSort_StronglySorted Priority).
Qed.

Lemma sortLayerSizes_Permutation (l : list Z) : sortLayerSizes l ≡ₚ l.
Proof. apply (insertionSort_Permutation (fun z => z)). Qed.

Lemma sortLayerSizes_StronglySorted (l : list Z) : StronglySorted Z.le (sortLayerSizes l).
Proof. apply (insertionSort_StronglySorted (fun z => z)). Qed.

(** Whatever algorithm [sort.Slice] runs on the sizes, it returns
    [sortLayerSizes]: an ascending rearrangement of numbers is unique. *)
Lemma sortLayerSizes_unique (l l' : list Z) :
  l' ≡ₚ l -> StronglySorted Z.le l' -> l' = sortLayerSizes l.
Proof.
  intros Hp Hs.
  apply (StronglySorted_unique_strong Z.le); auto.
  - intros; lia.
  - apply sortLayerSizes_StronglySorted.
  - rewrite Hp. symmetry. apply sortLayerSizes_Permutation.
Qed.

(** ** Lifecycle *)

Lemma state_eqb_eq (a b : mediaTrackReceiverState) : state_eqb a b = true <-> a = b.
Proof. destruct a, b; simpl; split; intros; congruence. Qed.

Lemma state_eqb_neq (a b : mediaTrackReceiverState) : state_eqb a b = false <-> a <> b.
Proof. destruct a, b; simpl; split; intros; congruence. Qed.

Lemma set_state_same (t : MediaTrackReceiver) : set_state (state t) t = t.
Proof. destruct t; reflexivity. Qed.

(** The hook loop of [Close] adds one call per hook, in order, and
    touches nothing else. *)
Lemma run_onClose_hooks (fs : list Hook) (t : MediaTrackReceiver) :
  fold_left (fun t f => emit [Call_onClose f (state t)] t) fs t
  = emit (map (fun f => Call_onClose f (state t)) fs) t.
Proof.
  revert t; induction fs as [|f fs IH]; intros t; simpl.
  - destruct t; unfold emit; simpl. rewrite app_nil_r. reflexivity.
  - rewrite IH. destruct t; unfold emit; simpl.
    rewrite <- app_assoc. reflexivity.
Qed.

Lemma Close_open (t : MediaTrackReceiver) :
  state t <> mediaTrackReceiverStateClosed ->
  Close t = emit (map (fun f => Call_onClose f mediaTrackReceiverStateClosed) (onClose t))
              (set_state mediaTrackReceiverStateClosed t).
Proof.
  intros Hs. unfold Close.
  apply state_eqb_neq in Hs. rewrite Hs.
  rewrite run_onClose_hooks. reflexivity.
Qed.

Lemma Close_closed (t : MediaTrackReceiver) :
  state t = mediaTrackReceiverStateClosed -> Close t = t.
Proof. intros Hs. unfold Close. rewrite Hs. reflexivity. Qed.

Lemma state_Close (t : MediaTrackReceiver) : state (Close t) = mediaTrackReceiverStateClosed.
Proof.
  destruct (state_eqb (state t) mediaTrackReceiverStateClosed) eqn:Hs.
  - apply state_eqb_eq in Hs. rewrite Close_closed; assumption.
  - apply state_eqb_neq in Hs. rewrite Close_open by assumption. reflexivity.
Qed.

Lemma AddOnClose_all (fs : list (option Hook)) (t : MediaTrackReceiver) :
  fold_left (fun t f => AddOnClose f t) fs t = set_onClose (onClose t ++ omap id fs) t.
Proof.
  revert t; induction fs as [|[f|] fs IH]; intros t; simpl.
  - rewrite app_nil_r. destruct t; reflexivity.
  - rewrite IH. destruct t; unfold set_onClose; simpl. rewrite <- app_assoc. reflexivity.
  - apply IH.
Qed.

(** C7. [Close] is idempotent.  Called in a state other than Closed,
    after the hooks [fs] were registered through [AddOnClose] (nil
    functions are not registered), it sets the state to Closed and then
    calls every registered hook once, in the order of registration, each
    call seeing the state Closed, and changes nothing else; called in the
    state Closed, it changes nothing and calls no hook. *)
Theorem Close_idempotent_hooks_once (t : MediaTrackReceiver) (fs : list (option Hook)) :
  state t <> mediaTrackReceiverStateClosed ->
  let t1 := fold_left (fun t f => AddOnClose f t) fs t in
  let t2 := Close t1 in
  onClose t1 = onClose t ++ omap id fs /\
  t2 = emit (map (fun f => Call_onClose f mediaTrackReceiverStateClosed) (onClose t1))
         (set_state mediaTrackReceiverStateClosed t1) /\
  state t2 = mediaTrackReceiverStateClosed /\
  calls t2 = calls t1 ++ map (fun f => Call_onClose f mediaTrackReceiverStateClosed) (onClose t1) /\
  Close t2 = t2 /\
  (forall t', state t' = mediaTrackReceiverStateClosed ->
              Close t' = t' /\ calls (Close t') = calls t').
Proof.
  intros Hs t1 t2.
  assert (H1 : onClose t1 = onClose t ++ omap id fs).
  { subst t1. rewrite AddOnClose_all. reflexivity. }
  assert (Hs1 : state t1 <> mediaTrackReceiverStateClosed).
  { subst t1. rewrite AddOnClose_all. exact Hs. }
  assert (H2 : t2 = emit (map (fun f => Call_onClose f mediaTrackReceiverStateClosed) (onClose t1))
                      (set_state mediaTrackReceiverStateClosed t1)).
  { subst t2. apply Close_open, Hs1. }
  split; [exact H1|]. split; [exact H2|].
  split; [rewrite H2; reflexivity|].
  split; [rewrite H2; reflexivity|].
  split; [apply Close_closed; rewrite H2; reflexivity|].
  intros t' Ht'. rewrite Close_closed by exact Ht'. split; reflexivity.
Qed.

Lemma Close_idempotent_hooks_once_witness :
  let t := SetClosing sampleTrack in
  let t1 := fold_left (fun t f => AddOnClose f t) [Some 7%nat; None; Some 3%nat] t in
  calls (Close t1)
  = [Call_Subscriptions_OnDownTrackCreated;
     Call_onClose 7%nat mediaTrackReceiverStateClosed;
     Call_onClose 3%nat mediaTrackReceiverStateClosed]
  /\ Close (Close t1) = Close t1.
Proof.
  pose proof (Close_idempotent_hooks_once (SetClosing sampleTrack)
                [Some 7%nat; None; Some 3%nat]) as H.
  simpl in H.
  destruct H as (_ & _ & _ & Hcalls & Hidem & _); [discriminate|].
  split; [exact Hcalls | exact Hidem].
Defined.

(** C4. [TryClose] returns true and changes nothing when the state is
    already Closed; otherwise, when some slot holds a Dummy whose
    delegate is set, it returns false and changes nothing; otherwise it
    performs [Close] and returns true. *)
Theorem TryClose_cases (t : MediaTrackReceiver) :
  (state t = mediaTrackReceiverStateClosed -> TryClose t = (true, t)) /\
  (state t <> mediaTrackReceiverStateClosed ->
   (exists r d w, r ∈ receivers t /\ slot_TrackReceiver r = IsDummy d /\
                  DummyReceiver_Receiver d = Some w) ->
   TryClose t = (false, t)) /\
  (state t <> mediaTrackReceiverStateClosed ->
   (forall r d, r ∈ receivers t -> slot_TrackReceiver r = IsDummy d ->
                DummyReceiver_Receiver d = None) ->
   TryClose t = (true, Close t) /\ state (Close t) = mediaTrackReceiverStateClosed).
Proof.
  unfold TryClose. split; [|split].
  - intros ->. reflexivity.
  - intros Hs (r & d & w & Hin & Hd & Hw).
    apply state_eqb_neq in Hs. rewrite Hs.
    assert (Hex : existsb hasUpgradedDummy (receivers t) = true).
    { apply existsb_exists. exists r. split; [apply list_elem_of_In, Hin|].
      unfold hasUpgradedDummy. rewrite Hd, Hw. reflexivity. }
    rewrite Hex. reflexivity.
  - intros Hs Hnone. split; [|apply state_Close].
    apply state_eqb_neq in Hs. rewrite Hs.
    destruct (existsb hasUpgradedDummy (receivers t)) eqn:Hex; [|reflexivity].
    apply existsb_exists in Hex as (r & Hin & Hup).
    unfold hasUpgradedDummy in Hup.
    destruct (slot_TrackReceiver r) as [w|d] eqn:Hr; [discriminate|].
    rewrite (Hnone r d) in Hup; [discriminate| apply list_elem_of_In, Hin | exact Hr].
Qed.

Lemma TryClose_cases_witness :
  TryClose (Close sampleTrack) = (true, Close sampleTrack) /\
  TryClose sampleUpgraded = (false, sampleUpgraded) /\
  TryClose sampleSeeded = (true, Close sampleSeeded).
Proof.
  split; [|split].
  - apply (proj1 (TryClose_cases (Close sampleTrack))). reflexivity.
  - apply (proj1 (proj2 (TryClose_cases sampleUpgraded))); [discriminate|].
    eexists _, _, _. split; [left|]. split; reflexivity.
  - apply (proj2 (proj2 (TryClose_cases sampleSeeded))); [discriminate|].
    assert (Hall : Forall (fun r => forall d, slot_TrackReceiver r = IsDummy d ->
                                    DummyReceiver_Receiver d = None)
                     (receivers sampleSeeded)).
    { repeat constructor; intros d Hd; injection Hd as <-; reflexivity. }
    rewrite Forall_forall in Hall. intros r d Hin. exact (Hall r Hin d).
Defined.

Lemma SetClosing_state (t : MediaTrackReceiver) :
  state (SetClosing t) = state t \/
  (state t = mediaTrackReceiverStateOpen /\ state (SetClosing t) = mediaTrackReceiverStateClosing).
Proof. unfold SetClosing. destruct (state t) eqn:E; simpl; auto. Qed.

(** Every lifecycle operation leaves the state where it is, or moves it
    from Open to Closing, or from a state other than Closed to Closed. *)
Lemma runLifecycleOp_state (op : LifecycleOp) (t : MediaTrackReceiver) :
  state (runLifecycleOp op t) = state t \/
  (state t = mediaTrackReceiverStateOpen /\
   state (runLifecycleOp op t) = mediaTrackReceiverStateClosing) \/
  (state t <> mediaTrackReceiverStateClosed /\
   state (runLifecycleOp op t) = mediaTrackReceiverStateClosed).
Proof.
  destruct op; simpl.
  - destruct (SetClosing_state t) as [H|H]; auto.
  - destruct (state_eqb (state t) mediaTrackReceiverStateClosed) eqn:Hs.
    + apply state_eqb_eq in Hs. left. rewrite Close_closed; auto.
    + apply state_eqb_neq in Hs. right; right. split; [assumption|apply state_Close].
  - unfold TryClose.
    destruct (state_eqb (state t) mediaTrackReceiverStateClosed) eqn:Hs; simpl; auto.
    destruct (existsb hasUpgradedDummy (receivers t)); simpl; auto.
    apply state_eqb_neq in Hs. right; right. split; [assumption|apply state_Close].
Qed.

Lemma stateHistory_head (ops : list LifecycleOp) (t : MediaTrackReceiver) :
  exists tl, stateHistory ops t = state t :: tl.
Proof. destruct ops; simpl; eauto. Qed.

Lemma distinctStates_cons (a : mediaTrackReceiverState) (ops : list LifecycleOp)
    (t : MediaTrackReceiver) :
  distinctStates (a :: stateHistory ops t)
  = if state_eqb a (state t) then distinctStates (stateHistory ops t)
    else a :: distinctStates (stateHistory ops t).
Proof. destruct (stateHistory_head ops t) as [tl ->]. reflexivity. Qed.

Lemma distinctStates_from (ops : list LifecycleOp) (t : MediaTrackReceiver) :
  forwardFrom (state t) (distinctStates (stateHistory ops t)).
Proof.
  revert t; induction ops as [|op ops IH]; intros t.
  - simpl. destruct (state t); simpl; auto.
  - specialize (IH (runLifecycleOp op t)).
    cbn [stateHistory]. rewrite distinctStates_cons.
    destruct (runLifecycleOp_state op t) as [He|[[Ho Hc]|[Hn Hc]]].
    + rewrite He in IH |- *.
      assert (Hr : state_eqb (state t) (state t) = true) by (apply state_eqb_eq; reflexivity).
      rewrite Hr. exact IH.
    + rewrite Hc in IH |- *. rewrite Ho. simpl in *.
      destruct IH as [->| ->]; auto.
    + rewrite Hc in IH |- *. simpl in IH. rewrite IH.
      destruct (state t); simpl; auto.
Qed.

(** The lifecycle state never moves backward along a run. *)
Lemma stateHistory_monotone (ops : list LifecycleOp) (t : MediaTrackReceiver) :
  StronglySorted (fun s s' => (stateRank s <= stateRank s')%nat) (stateHistory ops t).
Proof.
  revert t; induction ops as [|op ops IH]; intros t; simpl.
  - repeat constructor.
  - constructor; [apply IH|].
    assert (Hstep : (stateRank (state t) <= stateRank (state (runLifecycleOp op t)))%nat).
    { destruct (runLifecycleOp_state op t) as [He|[[Ho Hc]|[Hn Hc]]].
      - rewrite He. lia.
      - rewrite Ho, Hc. simpl. lia.
      - rewrite Hc. destruct (state t); simpl; lia. }
    specialize (IH (runLifecycleOp op t)).
    destruct (stateHistory_head ops (runLifecycleOp op t)) as [tl Htl].
    rewrite Htl in IH |- *.
    apply StronglySorted_inv in IH as [_ Hall].
    constructor; [exact Hstep|].
    eapply Forall_impl; [exact Hall|]. simpl. intros; lia.
Qed.

(** C8, as amended.  For every sequence of [SetClosing], [Close] and
    [TryClose] calls on a receiver that is Open, the lifecycle state
    never moves backward in the order Open, Closing, Closed, and the
    sequence of distinct states passed through starts with Open and is an
    order-preserving selection from Open, Closing, Closed: Closing is
    skipped when [Close] or [TryClose] closes an Open receiver. *)
Theorem lifecycle_states_forward (ops : list LifecycleOp) (t : MediaTrackReceiver) :
  state t = mediaTrackReceiverStateOpen ->
  let seq := distinctStates (stateHistory ops t) in
  StronglySorted (fun s s' => (stateRank s <= stateRank s')%nat) (stateHistory ops t) /\
  head seq = Some mediaTrackReceiverStateOpen /\
  seq `sublist_of` [mediaTrackReceiverStateOpen; mediaTrackReceiverStateClosing;
                    mediaTrackReceiverStateClosed] /\
  (seq = [mediaTrackReceiverStateOpen] \/
   seq = [mediaTrackReceiverStateOpen; mediaTrackReceiverStateClosing] \/
   seq = [mediaTrackReceiverStateOpen; mediaTrackReceiverStateClosed] \/
   seq = [mediaTrackReceiverStateOpen; mediaTrackReceiverStateClosing;
          mediaTrackReceiverStateClosed]).
Proof.
  intros Hopen seq.
  pose proof (distinctStates_from ops t) as H. rewrite Hopen in H.
  simpl in H. fold seq in H.
  split; [apply stateHistory_monotone|].
  split; [destruct H as [->|[->|[->| ->]]]; reflexivity|].
  split; [|exact H].
  destruct H as [->|[->|[->| ->]]].
  - apply sublist_skip || apply sublist_cons. repeat constructor.
  - repeat constructor.
  - constructor. apply sublist_cons. repeat constructor.
  - reflexivity.
Qed.

Lemma lifecycle_states_forward_witness :
  distinctStates (stateHistory [Op_SetClosing; Op_TryClose; Op_Close; Op_SetClosing] sampleTrack)
  `sublist_of` [mediaTrackReceiverStateOpen; mediaTrackReceiverStateClosing;
                mediaTrackReceiverStateClosed].
Proof.
  apply (lifecycle_states_forward
           [Op_SetClosing; Op_TryClose; Op_Close; Op_SetClosing] sampleTrack).
  reflexivity.
Defined.

(** C8 as stated fails: [Close] on an Open receiver goes straight to
    Closed, so the distinct states are Open, Closed, which is not a
    prefix of Open, Closing, Closed. *)
Lemma lifecycle_states_not_prefix :
  state sampleTrack = mediaTrackReceiverStateOpen /\
  distinctStates (stateHistory [Op_Close] sampleTrack)
  = [mediaTrackReceiverStateOpen; mediaTrackReceiverStateClosed] /\
  ~ distinctStates (stateHistory [Op_Close] sampleTrack)
    `prefix_of` [mediaTrackReceiverStateOpen; mediaTrackReceiverStateClosing;
                 mediaTrackReceiverStateClosed].
Proof.
  split; [reflexivity|]. split; [reflexivity|].
  intros [k Hk]. vm_compute in Hk. discriminate Hk.
Qed.

(** ** Guards on the lifecycle state *)

(** C9. Called while the state is not Open, [SetupReceiver] returns the
    receiver object as it was: the slot list, the track info and the
    state are unchanged, no Dummy is upgraded and the trace gains no
    call, so the [onSetupReceiver] hook is not invoked.  The function
    has no result, so no error is signalled. *)
Theorem SetupReceiver_not_open_noop `{C : Collaborators} (t : MediaTrackReceiver)
    (receiver : WebRTCReceiver) (priority : Z) (mid : string) :
  state t <> mediaTrackReceiverStateOpen ->
  let t' := SetupReceiver t receiver priority mid in
  t' = t /\
  receivers t' = receivers t /\
  trackInfo t' = trackInfo t /\
  state t' = state t /\
  calls t' = calls t.
Proof.
  intros Hs t'. subst t'. unfold SetupReceiver.
  apply state_eqb_neq in Hs. rewrite Hs. simpl. auto.
Qed.

Lemma SetupReceiver_not_open_noop_witness :
  let t := SetClosing (OnSetupReceiver (Some 5%nat) sampleSeeded) in
  SetupReceiver (C := refCollaborators) t (mkReceiver 1 vp8) 0 "0" = t /\
  SetupReceiver (C := refCollaborators) (Close t) (mkReceiver 1 vp8) 0 "0" = Close t.
Proof.
  split.
  - apply (SetupReceiver_not_open_noop (C := refCollaborators)
             (SetClosing (OnSetupReceiver (Some 5%nat) sampleSeeded))).
    discriminate.
  - apply (SetupReceiver_not_open_noop (C := refCollaborators)
             (Close (SetClosing (OnSetupReceiver (Some 5%nat) sampleSeeded)))).
    discriminate.
Defined.

(** C5. [AddSubscriber] returns [ErrNotOpen] whenever the state is not
    Open, and [ErrNoReceiver] whenever the state is Open and the slot
    list is empty; in both cases the result carries no subscribed track
    and the receiver object is unchanged. *)
Theorem AddSubscriber_errors `{C : Collaborators} (t : MediaTrackReceiver)
    (sub : LocalParticipant) :
  (state t <> mediaTrackReceiverStateOpen ->
   AddSubscriber t sub = (AddSubscriber_error ErrNotOpen, t)) /\
  (state t = mediaTrackReceiverStateOpen -> receivers t = [] ->
   AddSubscriber t sub = (AddSubscriber_error ErrNoReceiver, t)).
Proof.
  unfold AddSubscriber. split.
  - intros Hs. apply state_eqb_neq in Hs. rewrite Hs. reflexivity.
  - intros Hs Hr. rewrite Hs, Hr. reflexivity.
Qed.

Lemma AddSubscriber_errors_witness :
  AddSubscriber (C := refCollaborators) (Close sampleUpgraded) (mkParticipant "PA_sub" true)
  = (AddSubscriber_error ErrNotOpen, Close sampleUpgraded) /\
  AddSubscriber (C := refCollaborators) (SetClosing sampleUpgraded) (mkParticipant "PA_sub" true)
  = (AddSubscriber_error ErrNotOpen, SetClosing sampleUpgraded) /\
  AddSubscriber (C := refCollaborators) sampleTrack (mkParticipant "PA_sub" true)
  = (AddSubscriber_error ErrNoReceiver, sampleTrack).
Proof.
  split; [|split].
  - apply (proj1 (AddSubscriber_errors (C := refCollaborators) (Close sampleUpgraded) _)).
    discriminate.
  - apply (proj1 (AddSubscriber_errors (C := refCollaborators) (SetClosing sampleUpgraded) _)).
    discriminate.
  - apply (proj2 (AddSubscriber_errors (C := refCollaborators) sampleTrack _)); reflexivity.
Defined.

(** ** Clearing a receiver *)

Section ClearReceiverFacts.
Import GoStrings.

(** Overwriting the slot at [idx] by the last slot and cutting the slice
    by one removes exactly the slot at [idx]. *)
Lemma swap_remove_Permutation (l : list simulcastReceiver) (idx : nat)
    (r lst : simulcastReceiver) :
  l !! idx = Some r -> last l = Some lst ->
  l ≡ₚ r :: take (length l - 1)%nat (<[idx := lst]> l).
Proof.
  intros Hidx Hlast.
  apply last_Some in Hlast as [l0 ->].
  rewrite length_app. simpl. replace (length l0 + 1 - 1)%nat with (length l0) by lia.
  destruct (decide (idx < length l0)%nat) as [Hlt|Hge].
  - rewrite insert_app_l by exact Hlt.
    rewrite take_app_length' by (rewrite length_insert; reflexivity).
    rewrite lookup_app_l in Hidx by exact Hlt.
    rewrite insert_take_drop by exact Hlt.
    rewrite <- (take_drop_middle l0 idx r Hidx) at 1.
    rewrite <- !app_assoc. simpl.
    rewrite <- !Permutation_middle.
    apply perm_skip.
    rewrite app_nil_r. reflexivity.
  - assert (Hlen : idx = length l0).
    { apply lookup_lt_Some in Hidx. rewrite length_app in Hidx. simpl in Hidx. lia. }
    subst idx.
    rewrite list_lookup_middle in Hidx by reflexivity.
    injection Hidx as <-.
    rewrite insert_app_r_alt by lia.
    rewrite Nat.sub_diag. simpl.
    rewrite take_app_length.
    symmetry. apply Permutation_cons_append.
Qed.

Lemma clearReceiver_no_match (l : list simulcastReceiver) (mime : string) :
  (forall r, r ∈ l -> EqualFold (codec_MimeType (Codec r)) mime = false) ->
  clearReceiver l mime = l.
Proof.
  intros Hno. unfold clearReceiver.
  destruct (list_find _ l) as [[idx r]|] eqn:Hf; [|reflexivity].
  apply list_find_Some in Hf as (Hidx & Hr & _).
  rewrite (Hno r) in Hr; [discriminate|].
  eapply list_elem_of_lookup_2, Hidx.
Qed.

Lemma clearReceiver_first_match (l : list simulcastReceiver) (mime : string)
    (idx : nat) (r : simulcastReceiver) :
  l !! idx = Some r ->
  EqualFold (codec_MimeType (Codec r)) mime = true ->
  (forall j r', (j < idx)%nat -> l !! j = Some r' ->
                EqualFold (codec_MimeType (Codec r')) mime = false) ->
  exists lst, last l = Some lst /\
              clearReceiver l mime = take (length l - 1)%nat (<[idx := lst]> l).
Proof.
  intros Hidx Hr Hfirst. unfold clearReceiver.
  assert (Hf : list_find (fun r => EqualFold (codec_MimeType (Codec r)) mime = true) l
               = Some (idx, r)).
  { apply list_find_Some. split; [exact Hidx|]. split; [exact Hr|].
    intros j y Hj Hlt Hy. rewrite (Hfirst j y Hlt Hj) in Hy. discriminate. }
  rewrite Hf.
  destruct (last l) as [lst|] eqn:Hlast; [eauto|].
  apply last_None in Hlast. subst l. discriminate.
Qed.

End ClearReceiverFacts.

(** C10. [ClearReceiver] removes at most one slot.  When no slot has the
    given mime type up to case, the slot list is unchanged.  Otherwise
    the first slot of that mime type is removed: the last slot is
    written over it and the list is cut by one, so the list is one slot
    shorter, every other slot is still a member (the old list is a
    rearrangement of the removed slot and the new list), and only the
    position of the last slot changes.  The lifecycle state and the track
    info are untouched. *)
Theorem ClearReceiver_removes_first_match (t : MediaTrackReceiver) (mime : string)
    (willBeResumed : bool) :
  let l := receivers t in
  let l' := receivers (ClearReceiver t mime willBeResumed) in
  state (ClearReceiver t mime willBeResumed) = state t /\
  trackInfo (ClearReceiver t mime willBeResumed) = trackInfo t /\
  ((forall r, r ∈ l -> GoStrings.EqualFold (codec_MimeType (Codec r)) mime = false) ->
   l' = l) /\
  (forall idx r,
     l !! idx = Some r ->
     GoStrings.EqualFold (codec_MimeType (Codec r)) mime = true ->
     (forall j r', (j < idx)%nat -> l !! j = Some r' ->
                   GoStrings.EqualFold (codec_MimeType (Codec r')) mime = false) ->
     l ≡ₚ r :: l' /\
     S (length l') = length l /\
     (forall j r', l !! j = Some r' -> j <> idx -> r' ∈ l') /\
     (forall j, (j < length l')%nat -> j <> idx -> l' !! j = l !! j) /\
     ((idx < length l')%nat -> l' !! idx = last l)).
Proof.
  intros l l'. subst l l'. simpl.
  split; [reflexivity|]. split; [reflexivity|]. split.
  - apply clearReceiver_no_match.
  - intros idx r Hidx Hr Hfirst.
    destruct (clearReceiver_first_match _ _ _ _ Hidx Hr Hfirst) as (lst & Hlast & ->).
    pose proof (swap_remove_Permutation _ _ _ _ Hidx Hlast) as Hperm.
    assert (Hlen : S (length (take (length (receivers t) - 1)%nat (<[idx:=lst]> (receivers t))))
                   = length (receivers t)).
    { apply Permutation_length in Hperm. simpl in Hperm. lia. }
    split; [exact Hperm|]. split; [exact Hlen|].
    assert (Hother : forall j, (j < length (take (length (receivers t) - 1)%nat
                                          (<[idx:=lst]> (receivers t))))%nat -> j <> idx ->
              take (length (receivers t) - 1)%nat (<[idx:=lst]> (receivers t)) !! j
              = receivers t !! j).
    { intros j Hj Hne. rewrite lookup_take_lt by lia.
      apply list_lookup_insert_ne. congruence. }
    split; [|split; [exact Hother|]].
    + intros j r' Hj Hne.
      destruct (decide (j < length (take (length (receivers t) - 1)%nat
                                      (<[idx:=lst]> (receivers t))))%nat) as [Hlt|Hge].
      * apply (list_elem_of_lookup_2 _ j). rewrite Hother by assumption. exact Hj.
      * (* [j] is the last index: that slot now sits at [idx] *)
        assert (Hjlast : j = (length (receivers t) - 1)%nat).
        { apply lookup_lt_Some in Hj. lia. }
        assert (r' = lst).
        { rewrite last_lookup in Hlast.
          replace (Nat.pred (length (receivers t))) with j in Hlast by lia. congruence. }
        subst r'.
        apply (list_elem_of_lookup_2 _ idx).
        rewrite lookup_take_lt by (apply lookup_lt_Some in Hidx; lia).
        apply list_lookup_insert_eq. apply lookup_lt_Some in Hidx. exact Hidx.
    + intros Hlt. rewrite lookup_take_lt by lia.
      rewrite Hlast. apply list_lookup_insert_eq. apply lookup_lt_Some in Hidx. exact Hidx.
Qed.

Lemma ClearReceiver_removes_first_match_witness :
  map slot_addr (receivers sampleThree) = [0; 1; 2]%nat /\
  map slot_addr (receivers (ClearReceiver sampleThree "VIDEO/vp8" false)) = [2; 1]%nat /\
  (exists r, receivers sampleThree !! 0%nat = Some r /\
             receivers sampleThree ≡ₚ r :: receivers (ClearReceiver sampleThree "VIDEO/vp8" false)) /\
  receivers (ClearReceiver sampleThree "audio/opus" true) = receivers sampleThree.
Proof.
  split; [reflexivity|]. split; [reflexivity|]. split.
  - destruct (ClearReceiver_removes_first_match sampleThree "VIDEO/vp8" false)
      as (_ & _ & _ & Hfirst).
    destruct (receivers sampleThree !! 0%nat) as [r|] eqn:Hr; [|discriminate Hr].
    exists r. split; [reflexivity|].
    apply (Hfirst 0%nat r Hr).
    + vm_compute in Hr. injection Hr as <-. reflexivity.
    + intros j r' Hj. lia.
  - destruct (ClearReceiver_removes_first_match sampleThree "audio/opus" true)
      as (_ & _ & Hno & _).
    apply Hno.
    assert (Hall : Forall (fun r => GoStrings.EqualFold (codec_MimeType (Codec r)) "audio/opus"
                                    = false) (receivers sampleThree)).
    { repeat constructor. }
    rewrite Forall_forall in Hall. exact Hall.
Defined.

(** ** First writer wins for layer ssrcs *)

Section SsrcFacts.
Import GoStrings.

Lemma find_ext_eq {A} (f g : A -> bool) (l : list A) :
  (forall x, f x = g x) -> List.find f l = List.find g l.
Proof.
  intros Hfg. induction l as [|x l IH]; simpl; [reflexivity|].
  rewrite Hfg, IH. reflexivity.
Qed.

Lemma find_map_comp {A B} (f : B -> bool) (g : A -> B) (l : list A) :
  List.find f (map g l) = option_map g (List.find (fun x => f (g x)) l).
Proof.
  induction l as [|x l IH]; simpl; [reflexivity|].
  destruct (f (g x)); [reflexivity|exact IH].
Qed.

Lemma find_Some_holds {A} (f : A -> bool) (l : list A) (x : A) :
  List.find f l = Some x -> f x = true.
Proof. intros H. apply find_some in H. tauto. Qed.

(** [setLayerSsrc] leaves every layer that has an ssrc as it is. *)
Lemma setLayerSsrc_keeps (layers : list VideoLayer) (quality : VideoQuality) (ssrc : Z)
    (j : nat) (l : VideoLayer) :
  layers !! j = Some l -> vl_Ssrc l <> 0 ->
  setLayerSsrc layers quality ssrc !! j = Some l.
Proof.
  revert j; induction layers as [|l0 layers IH]; intros j Hj Hne; [discriminate|].
  simpl. destruct (vl_Quality l0 =? quality) eqn:Hq.
  - destruct j as [|j]; simpl in *; [|exact Hj].
    injection Hj as ->.
    destruct (Z.eqb_spec (vl_Ssrc l) 0); [contradiction|reflexivity].
  - destruct j as [|j]; simpl in *; [exact Hj|]. apply IH; assumption.
Qed.

(** The first layer of a quality after [setLayerSsrc]: the layer that
    was first before, when that one has an ssrc. *)
Lemma setLayerSsrc_find (layers : list VideoLayer) (q quality : VideoQuality) (ssrc : Z)
    (l : VideoLayer) :
  List.find (fun l => vl_Quality l =? q) layers = Some l -> vl_Ssrc l <> 0 ->
  List.find (fun l => vl_Quality l =? q) (setLayerSsrc layers quality ssrc) = Some l.
Proof.
  induction layers as [|l0 layers IH]; intros Hf Hne; [discriminate|].
  simpl in *. destruct (vl_Quality l0 =? quality) eqn:Hq0.
  - destruct (vl_Quality l0 =? q) eqn:Hq.
    + injection Hf as ->.
      destruct (Z.eqb_spec (vl_Ssrc l) 0); [contradiction|].
      simpl. rewrite Hq. reflexivity.
    + destruct (negb (vl_Ssrc l0 =? 0)); simpl; rewrite Hq; exact Hf.
  - simpl. destruct (vl_Quality l0 =? q); [exact Hf|]. apply IH; assumption.
Qed.

Lemma setLayerSsrcCodecs_lookup (codecs : list SimulcastCodecInfo) (i : Z)
    (mime' : string) (quality' : VideoQuality) (ssrc : Z) (tiLayers : list VideoLayer)
    (mime : string) (quality : VideoQuality) (ssrc0 : Z) :
  lookupSsrcIn codecs mime quality = Some ssrc0 -> ssrc0 <> 0 ->
  lookupSsrcIn (fst (setLayerSsrcCodecs codecs i mime' quality' ssrc tiLayers)) mime quality
  = Some ssrc0.
Proof.
  revert i; induction codecs as [|ci codecs IH]; intros i Hl Hne; [discriminate|].
  simpl. destruct (EqualFold (ci_MimeType ci) mime') eqn:Hm'; simpl.
  - unfold lookupSsrcIn in *. simpl in *.
    destruct (EqualFold (ci_MimeType ci) mime); [|exact Hl].
    destruct (List.find _ (ci_Layers ci)) as [l|] eqn:Hf; [|discriminate].
    injection Hl as <-. simpl.
    rewrite (setLayerSsrc_find _ _ _ _ _ Hf Hne). reflexivity.
  - destruct (setLayerSsrcCodecs codecs (i + 1) mime' quality' ssrc tiLayers)
      as [rest' tiLayers'] eqn:Hrec.
    unfold lookupSsrcIn in *. simpl in *.
    destruct (EqualFold (ci_MimeType ci) mime); [exact Hl|].
    specialize (IH (i + 1) Hl Hne). rewrite Hrec in IH. exact IH.
Qed.

Lemma setLayerSsrcCodecs_keeps (codecs : list SimulcastCodecInfo) (i : Z)
    (mime' : string) (quality' : VideoQuality) (ssrc : Z) (tiLayers : list VideoLayer)
    (k j : nat) (ci : SimulcastCodecInfo) (l : VideoLayer) :
  codecs !! k = Some ci -> ci_Layers ci !! j = Some l -> vl_Ssrc l <> 0 ->
  exists ci',
    fst (setLayerSsrcCodecs codecs i mime' quality' ssrc tiLayers) !! k = Some ci' /\
    ci_MimeType ci' = ci_MimeType ci /\ ci_Layers ci' !! j = Some l.
Proof.
  revert i k; induction codecs as [|c0 codecs IH]; intros i k Hk Hj Hne; [discriminate|].
  simpl. destruct (EqualFold (ci_MimeType c0) mime') eqn:Hm'; simpl.
  - destruct k as [|k]; simpl in *.
    + injection Hk as ->. eexists. split; [reflexivity|]. split; [reflexivity|].
      simpl. apply setLayerSsrc_keeps; assumption.
    + exists ci. auto.
  - destruct (setLayerSsrcCodecs codecs (i + 1) mime' quality' ssrc tiLayers)
      as [rest' tiLayers'] eqn:Hrec.
    destruct k as [|k]; simpl in *.
    + injection Hk as ->. exists ci. auto.
    + specialize (IH (i + 1) k Hk Hj Hne). rewrite Hrec in IH. exact IH.
Qed.

(** A new layer patched against old layers whose first layer of the
    same quality has an ssrc takes that ssrc. *)
Lemma patchLayer_takes_ssrc (originLayers : list VideoLayer) (layer l0 : VideoLayer) :
  List.find (fun l => vl_Quality l =? vl_Quality layer) originLayers = Some l0 ->
  vl_Ssrc l0 <> 0 ->
  patchLayer originLayers layer = set_vl_Ssrc (vl_Ssrc l0) layer.
Proof.
  intros Hf Hne. unfold patchLayer.
  rewrite (find_ext_eq _ (fun l => vl_Quality l =? vl_Quality layer))
    by (intros; apply Z.eqb_sym).
  rewrite Hf. destruct (Z.eqb_spec (vl_Ssrc l0) 0); [contradiction|reflexivity].
Qed.

Lemma patchLayer_Quality (originLayers : list VideoLayer) (layer : VideoLayer) :
  vl_Quality (patchLayer originLayers layer) = vl_Quality layer.
Proof.
  unfold patchLayer. destruct (List.find _ originLayers) as [o|]; [|reflexivity].
  destruct (negb (vl_Ssrc o =? 0)); reflexivity.
Qed.

(** The first layer of a quality among patched layers. *)
Lemma patched_layers_find (originLayers layers : list VideoLayer) (quality : VideoQuality)
    (l0 : VideoLayer) :
  List.find (fun l => vl_Quality l =? quality) originLayers = Some l0 ->
  vl_Ssrc l0 <> 0 ->
  match List.find (fun l => vl_Quality l =? quality) (map (patchLayer originLayers) layers) with
  | Some l => Some (vl_Ssrc l)
  | None => None
  end
  = match List.find (fun l => vl_Quality l =? quality) layers with
    | Some _ => Some (vl_Ssrc l0)
    | None => None
    end.
Proof.
  intros Hf Hne. rewrite find_map_comp.
  rewrite (find_ext_eq _ (fun l => vl_Quality l =? quality))
    by (intros; rewrite patchLayer_Quality; reflexivity).
  destruct (List.find _ layers) as [l|] eqn:Hl; simpl; [|reflexivity].
  apply find_Some_holds in Hl. apply Z.eqb_eq in Hl.
  rewrite (patchLayer_takes_ssrc originLayers l l0); [reflexivity| |exact Hne].
  rewrite Hl. exact Hf.
Qed.

Lemma patchCodec_MimeType (originCodecs : list SimulcastCodecInfo) (ci : SimulcastCodecInfo) :
  ci_MimeType (patchCodec originCodecs ci) = ci_MimeType ci.
Proof.
  unfold patchCodec. destruct (List.find _ originCodecs) as [o|]; [|reflexivity].
  destruct (negb (ci_Mid o =? EmptyString)%string); reflexivity.
Qed.

Lemma patchCodec_lookup (originCodecs newCodecs : list SimulcastCodecInfo)
    (mime : string) (quality : VideoQuality) (ssrc0 : Z) :
  lookupSsrcIn originCodecs mime quality = Some ssrc0 -> ssrc0 <> 0 ->
  lookupSsrcIn (map (patchCodec originCodecs) newCodecs) mime quality
  = match lookupSsrcIn newCodecs mime quality with
    | Some _ => Some ssrc0
    | None => None
    end.
Proof.
  intros Hl Hne. unfold lookupSsrcIn in *.
  destruct (List.find _ originCodecs) as [o|] eqn:Ho; [|discriminate].
  destruct (List.find _ (ci_Layers o)) as [l0|] eqn:Hl0; [|discriminate].
  injection Hl as <-.
  rewrite find_map_comp.
  rewrite (find_ext_eq _ (fun ci => EqualFold (ci_MimeType ci) mime))
    by (intros; rewrite patchCodec_MimeType; reflexivity).
  destruct (List.find _ newCodecs) as [ci|] eqn:Hci; simpl; [|reflexivity].
  apply find_Some_holds in Hci.
  unfold patchCodec.
  rewrite (find_ext_eq _ (fun o => EqualFold (ci_MimeType o) mime)).
  2:{ intros x. rewrite (EqualFold_congr_l _ _ _ Hci). apply EqualFold_sym. }
  rewrite Ho. simpl.
  replace (ci_Layers (if negb (ci_Mid o =? EmptyString)%string
                      then set_ci_Mid (ci_Mid o) ci else ci))
    with (ci_Layers ci) by (destruct (negb _); reflexivity).
  rewrite (patched_layers_find _ _ _ _ Hl0 Hne).
  destruct (List.find _ (ci_Layers ci)); reflexivity.
Qed.

Lemma updateVideoLayers_lookup (codecs : list SimulcastCodecInfo) (layers : list VideoLayer)
    (mime : string) (quality : VideoQuality) (ssrc0 : Z) :
  lookupSsrcIn codecs mime quality = Some ssrc0 -> ssrc0 <> 0 ->
  lookupSsrcIn
    (map (fun ci => set_ci_Layers (map (patchLayer (ci_Layers ci)) layers) ci) codecs)
    mime quality
  = match List.find (fun l => vl_Quality l =? quality) layers with
    | Some _ => Some ssrc0
    | None => None
    end.
Proof.
  intros Hl Hne. unfold lookupSsrcIn in *.
  rewrite find_map_comp. simpl.
  destruct (List.find _ codecs) as [o|] eqn:Ho; [|discriminate].
  destruct (List.find _ (ci_Layers o)) as [l0|] eqn:Hl0; [|discriminate].
  injection Hl as <-. simpl.
  apply patched_layers_find; assumption.
Qed.

End SsrcFacts.

Lemma lookupSsrc_codecs (ti : TrackInfo) (mime : string) (quality : VideoQuality) :
  lookupSsrc ti mime quality = lookupSsrcIn (ti_Codecs ti) mime quality.
Proof. reflexivity. Qed.

Lemma ti_Codecs_mirrorPrimaryLayers (ti : TrackInfo) :
  ti_Codecs (mirrorPrimaryLayers ti) = ti_Codecs ti.
Proof. unfold mirrorPrimaryLayers. destruct (ti_Codecs ti) eqn:E; simpl; auto. Qed.

Lemma ti_Codecs_SetLayerSsrc `{C : Collaborators} (t : MediaTrackReceiver)
    (mime rid : string) (ssrc : Z) :
  exists i quality tiLayers,
    ti_Codecs (trackInfo (SetLayerSsrc t mime rid ssrc))
    = fst (setLayerSsrcCodecs (ti_Codecs (trackInfo t)) i mime quality ssrc tiLayers).
Proof.
  unfold SetLayerSsrc.
  eexists 0, _, (ti_Layers (trackInfo t)).
  destruct (setLayerSsrcCodecs _ _ _ _ _ _) as [codecs tiLayers] eqn:E.
  simpl. rewrite E. reflexivity.
Qed.

Lemma ti_Codecs_UpdateTrackInfo (t : MediaTrackReceiver) (ti : TrackInfo) :
  ti_Codecs (trackInfo (UpdateTrackInfo t ti))
  = map (patchCodec (ti_Codecs (trackInfo t))) (ti_Codecs ti).
Proof.
  unfold UpdateTrackInfo. simpl.
  destruct (negb _); simpl; rewrite ti_Codecs_mirrorPrimaryLayers; reflexivity.
Qed.

Lemma ti_Codecs_UpdateVideoLayers (t : MediaTrackReceiver) (layers : list VideoLayer) :
  ti_Codecs (trackInfo (UpdateVideoLayers t layers))
  = map (fun ci => set_ci_Layers (map (patchLayer (ci_Layers ci)) layers) ci)
      (ti_Codecs (trackInfo t)).
Proof.
  unfold UpdateVideoLayers. simpl. rewrite ti_Codecs_mirrorPrimaryLayers. reflexivity.
Qed.

Lemma find_first {A} (f : A -> bool) (l : list A) (i : nat) (x : A) :
  l !! i = Some x -> f x = true ->
  (forall j y, (j < i)%nat -> l !! j = Some y -> f y = false) ->
  List.find f l = Some x.
Proof.
  revert i; induction l as [|a l IH]; intros i Hi Hx Hfirst; [discriminate|].
  destruct i as [|i]; simpl in *.
  - injection Hi as ->. rewrite Hx. reflexivity.
  - rewrite (Hfirst 0%nat a) by (lia || reflexivity).
    apply (IH i); [exact Hi|exact Hx|].
    intros j y Hj Hy. apply (Hfirst (S j)); [lia|exact Hy].
Qed.

(** Every layer is the layer found for its codec's mime type and its
    quality, unless an earlier codec has the same mime type up to case
    or an earlier layer of the codec has the same quality. *)
Lemma lookupSsrc_first_layer (ti : TrackInfo) (k j : nat) (ci : SimulcastCodecInfo)
    (l : VideoLayer) :
  ti_Codecs ti !! k = Some ci ->
  (forall k' ci', (k' < k)%nat -> ti_Codecs ti !! k' = Some ci' ->
                  GoStrings.EqualFold (ci_MimeType ci') (ci_MimeType ci) = false) ->
  ci_Layers ci !! j = Some l ->
  (forall j' l', (j' < j)%nat -> ci_Layers ci !! j' = Some l' ->
                 vl_Quality l' <> vl_Quality l) ->
  lookupSsrc ti (ci_MimeType ci) (vl_Quality l) = Some (vl_Ssrc l).
Proof.
  intros Hk Hfirstk Hj Hfirstj. unfold lookupSsrc, lookupSsrcIn.
  rewrite (find_first _ _ k ci Hk (EqualFold_refl _) Hfirstk).
  rewrite (find_first _ _ j l Hj (Z.eqb_refl _)); [reflexivity|].
  intros j' l' Hlt Hl'. apply Z.eqb_neq. eauto.
Qed.

Lemma runSsrcOp_keeps `{C : Collaborators} (op : SsrcOp) (t : MediaTrackReceiver)
    (mime : string) (quality : VideoQuality) (ssrc0 : Z) :
  lookupSsrc (trackInfo t) mime quality = Some ssrc0 -> ssrc0 <> 0 ->
  carriesPair mime quality op = true ->
  lookupSsrc (trackInfo (runSsrcOp op t)) mime quality = Some ssrc0.
Proof.
  intros Hl Hne Hc. rewrite lookupSsrc_codecs in Hl. destruct op as [mime' rid ssrc|ti|layers];
    cbn [runSsrcOp carriesPair] in *; rewrite lookupSsrc_codecs.
  - destruct (ti_Codecs_SetLayerSsrc t mime' rid ssrc) as (i & q & tl & ->).
    apply setLayerSsrcCodecs_lookup; assumption.
  - rewrite ti_Codecs_UpdateTrackInfo, (patchCodec_lookup _ _ _ _ _ Hl Hne).
    unfold lookupSsrc in Hc. destruct (lookupSsrcIn (ti_Codecs ti) mime quality);
      [reflexivity|discriminate].
  - rewrite ti_Codecs_UpdateVideoLayers, (updateVideoLayers_lookup _ _ _ _ _ Hl Hne).
    destruct (List.find _ layers); [reflexivity|discriminate].
Qed.

Lemma runSsrcOps_keep `{C : Collaborators} (ops : list SsrcOp) (t : MediaTrackReceiver)
    (mime : string) (quality : VideoQuality) (ssrc0 : Z) :
  lookupSsrc (trackInfo t) mime quality = Some ssrc0 -> ssrc0 <> 0 ->
  forallb (carriesPair mime quality) ops = true ->
  lookupSsrc (trackInfo (runSsrcOps ops t)) mime quality = Some ssrc0.
Proof.
  unfold runSsrcOps. revert t; induction ops as [|op ops IH]; intros t Hl Hne Hall; simpl;
    [exact Hl|].
  simpl in Hall. apply andb_true_iff in Hall as [Hop Hrest].
  apply IH; [|exact Hne|exact Hrest]. apply runSsrcOp_keeps; assumption.
Qed.

(** C3. A pair of mime type and quality is resolved as the code resolves
    it: the first codec entry of that mime type up to case, and its
    first layer of that quality.  That is every layer of every codec
    entry when no earlier codec entry has the same mime type and no
    earlier layer of the entry has the same quality (last part).  Let
    [ssrc0], not zero, be the ssrc of the pair.  Then [SetLayerSsrc],
    whatever its arguments, leaves the pair at [ssrc0], and leaves,
    position by position, every layer of every codec entry that has an
    ssrc unchanged.  After [UpdateTrackInfo] and [UpdateVideoLayers] the
    pair has [ssrc0] whenever the update carries a layer for it, and no
    layer otherwise.  So after any sequence of the three operations in
    which every update carries a layer for the pair, the pair still has
    [ssrc0]. *)
Theorem ssrc_first_writer_wins `{C : Collaborators} (t : MediaTrackReceiver)
    (mime : string) (quality : VideoQuality) (ssrc0 : Z) :
  lookupSsrc (trackInfo t) mime quality = Some ssrc0 ->
  ssrc0 <> 0 ->
  (forall mime' rid ssrc,
     lookupSsrc (trackInfo (SetLayerSsrc t mime' rid ssrc)) mime quality = Some ssrc0) /\
  (forall mime' rid ssrc k j ci l,
     ti_Codecs (trackInfo t) !! k = Some ci -> ci_Layers ci !! j = Some l ->
     vl_Ssrc l <> 0 ->
     exists ci',
       ti_Codecs (trackInfo (SetLayerSsrc t mime' rid ssrc)) !! k = Some ci' /\
       ci_MimeType ci' = ci_MimeType ci /\ ci_Layers ci' !! j = Some l) /\
  (forall ti,
     lookupSsrc (trackInfo (UpdateTrackInfo t ti)) mime quality
     = match lookupSsrc ti mime quality with
       | Some _ => Some ssrc0
       | None => None
       end) /\
  (forall layers,
     lookupSsrc (trackInfo (UpdateVideoLayers t layers)) mime quality
     = match List.find (fun l => vl_Quality l =? quality) layers with
       | Some _ => Some ssrc0
       | None => None
       end) /\
  (forall ops,
     forallb (carriesPair mime quality) ops = true ->
     lookupSsrc (trackInfo (runSsrcOps ops t)) mime quality = Some ssrc0) /\
  (forall k j ci l,
     ti_Codecs (trackInfo t) !! k = Some ci ->
     (forall k' ci', (k' < k)%nat -> ti_Codecs (trackInfo t) !! k' = Some ci' ->
                     GoStrings.EqualFold (ci_MimeType ci') (ci_MimeType ci) = false) ->
     ci_Layers ci !! j = Some l ->
     (forall j' l', (j' < j)%nat -> ci_Layers ci !! j' = Some l' ->
                    vl_Quality l' <> vl_Quality l) ->
     lookupSsrc (trackInfo t) (ci_MimeType ci) (vl_Quality l) = Some (vl_Ssrc l)).
Proof.
  intros Hl Hne. pose proof Hl as Hl0. rewrite lookupSsrc_codecs in Hl.
  split; [|split; [|split; [|split; [|split]]]].
  - intros mime' rid ssrc. rewrite lookupSsrc_codecs.
    destruct (ti_Codecs_SetLayerSsrc t mime' rid ssrc) as (i & q & tl & ->).
    apply setLayerSsrcCodecs_lookup; assumption.
  - intros mime' rid ssrc k j ci l Hk Hj Hnz.
    destruct (ti_Codecs_SetLayerSsrc t mime' rid ssrc) as (i & q & tl & ->).
    apply setLayerSsrcCodecs_keeps; assumption.
  - intros ti. rewrite !lookupSsrc_codecs, ti_Codecs_UpdateTrackInfo.
    apply patchCodec_lookup; assumption.
  - intros layers. rewrite lookupSsrc_codecs, ti_Codecs_UpdateVideoLayers.
    apply updateVideoLayers_lookup; assumption.
  - intros ops Hall. apply runSsrcOps_keep; assumption.
  - intros k j ci l Hk Hfirstk Hj Hfirstj. apply (lookupSsrc_first_layer _ k j); assumption.
Qed.

Lemma ssrc_first_writer_wins_witness :
  lookupSsrc (trackInfo sampleWithSsrc) "video/VP8" VideoQuality_LOW = Some 1111 /\
  lookupSsrc (trackInfo (SetLayerSsrc (C := refCollaborators) sampleWithSsrc "VIDEO/VP8" "q" 2222))
    "video/VP8" VideoQuality_LOW = Some 1111 /\
  lookupSsrc (trackInfo (UpdateTrackInfo sampleWithSsrc sampleNewInfo))
    "video/VP8" VideoQuality_LOW = Some 1111 /\
  lookupSsrc (trackInfo (UpdateVideoLayers sampleWithSsrc sampleNewLayers))
    "video/VP8" VideoQuality_LOW = Some 1111 /\
  lookupSsrc
    (trackInfo
       (runSsrcOps (C := refCollaborators)
          [Ssrc_UpdateVideoLayers sampleNewLayers; Ssrc_SetLayerSsrc "video/vp8" "q" 2222;
           Ssrc_UpdateTrackInfo sampleNewInfo; Ssrc_UpdateVideoLayers sampleNewLayers]
          sampleWithSsrc))
    "video/VP8" VideoQuality_LOW = Some 1111.
Proof.
  assert (Hl : lookupSsrc (trackInfo sampleWithSsrc) "video/VP8" VideoQuality_LOW = Some 1111)
    by reflexivity.
  assert (Hne : 1111 <> 0) by lia.
  destruct (ssrc_first_writer_wins (C := refCollaborators) sampleWithSsrc
              "video/VP8" VideoQuality_LOW 1111 Hl Hne)
    as (Hset & _ & Hinfo & Hlayers & Hrun & _).
  split; [exact Hl|]. split; [apply Hset|].
  split; [rewrite Hinfo; reflexivity|]. split; [rewrite Hlayers; reflexivity|].
  apply Hrun. reflexivity.
Defined.

(** C3 as stated fails in three ways: the ssrc of a layer that the pair
    does not resolve to is not kept, for a repeated mime type and for a
    repeated quality, and no ssrc is kept across an update that drops
    its layer.  A codec entry renamed by [SetupReceiver] to a mime type
    an earlier entry has: its low layer has ssrc 5, and
    [UpdateTrackInfo] gives it the update's 8.  A second layer of the same quality with ssrc 5:
    [UpdateVideoLayers] gives it the update's 8.  The low layer of VP8
    with ssrc 1111: after new layers without a low layer it is gone, and
    the next update sets 3333. *)
Lemma ssrc_replaced_by_update :
  ssrcTable sampleRenamed
  = [("video/VP8"%string, [0; 0; 0]); ("video/vp8"%string, [5; 0; 0])] /\
  ssrcTable (UpdateTrackInfo sampleRenamed sampleTwoVp8Info)
  = [("video/VP8"%string, [7]); ("video/vp8"%string, [8])] /\
  ssrcTable sampleTwoLow = [("video/VP8"%string, [0; 5])] /\
  ssrcTable (UpdateVideoLayers sampleTwoLow sampleTwoLowLayers)
  = [("video/VP8"%string, [7; 8])] /\
  lookupSsrc (trackInfo sampleWithSsrc) "video/VP8" VideoQuality_LOW = Some 1111 /\
  lookupSsrc (trackInfo (UpdateVideoLayers sampleWithSsrc sampleMediumOnly))
    "video/VP8" VideoQuality_LOW = None /\
  lookupSsrc
    (trackInfo (UpdateVideoLayers (UpdateVideoLayers sampleWithSsrc sampleMediumOnly)
                  sampleNewLayers))
    "video/VP8" VideoQuality_LOW = Some 3333.
Proof. repeat split; reflexivity. Qed.

(** ** Quality selection *)

Lemma toleranceIsFloor_spec (fuel : nat) (n : Z) :
  toleranceIsFloor fuel n = true ->
  forall m, n <= m < n + Z.of_nat fuel -> toleratedSize m = 9 * m / 10.
Proof.
  revert n; induction fuel as [|fuel IH]; intros n Hc m Hm; [lia|].
  simpl in Hc. apply andb_true_iff in Hc as [Hn Hrest].
  destruct (Z.eq_dec m n) as [->|Hne].
  - apply Z.eqb_eq, Hn.
  - apply (IH (n + 1) Hrest). lia.
Qed.

(** For every requested size a 16-bit dimension can take, the
    single-precision product truncates to the integer part of nine
    tenths of the size.  (The two differ from 4660341 on.) *)
Lemma toleratedSize_floor (n : Z) :
  0 <= n < 65536 -> toleratedSize n = 9 * n / 10.
Proof.
  intros Hn.
  apply (toleranceIsFloor_spec (Z.to_nat 65536) 0); [vm_compute; reflexivity|].
  rewrite Z2Nat.id; lia.
Qed.

Lemma layerSelectionTolerance_nearest :
  let c := layerSelectionTolerance in
  Float32.expo c = -24 /\ 2 ^ 23 <= Float32.mant c < 2 ^ 24 /\
  2 * Z.abs (10 * Float32.mant c - 9 * 2 ^ 24) < 10.
Proof. vm_compute. repeat split; congruence. Qed.

Lemma stopsAt_cons (x : Z) (l : list Z) (target : Z) (i : nat) :
  stopsAt (x :: l) target (S i) <-> stopsAt l target i.
Proof.
  unfold stopsAt. simpl. split.
  - intros [H|H]; [left; lia | right; exact H].
  - intros [H|H]; [left; lia | right; exact H].
Qed.

Lemma selectQuality_step (s next : Z) (rest : list Z) (target : Z) (k : nat)
    (quality : VideoQuality) :
  selectQuality (s :: next :: rest) target k quality
  = if (target <=? s) && negb (s =? next) then VideoQuality_of_int (Z.of_nat k)
    else selectQuality (next :: rest) target (S k) (VideoQuality_of_int (Z.of_nat k)).
Proof. reflexivity. Qed.

(** The loop returns the quality of the first index at which it stops. *)
Lemma selectQuality_first_stop (layerSizes : list Z) (target : Z) (k : nat)
    (quality : VideoQuality) :
  layerSizes <> [] ->
  exists i,
    selectQuality layerSizes target k quality = VideoQuality_of_int (Z.of_nat (k + i)) /\
    (i < length layerSizes)%nat /\
    stopsAt layerSizes target i /\
    (forall j, (j < i)%nat -> ~ stopsAt layerSizes target j).
Proof.
  revert k quality; induction layerSizes as [|s rest IH]; intros k quality Hne;
    [contradiction|].
  destruct rest as [|next rest'].
  - exists 0%nat. simpl. rewrite Nat.add_0_r.
    split; [reflexivity|]. split; [lia|]. split; [left; reflexivity|]. intros j Hj; lia.
  - rewrite selectQuality_step.
    destruct ((target <=? s) && negb (s =? next)) eqn:Hcond.
    + exists 0%nat. rewrite Nat.add_0_r.
      split; [reflexivity|]. split; [simpl; lia|]. split; [|intros j Hj; lia].
      right. exists s, next.
      apply andb_true_iff in Hcond as [Hle Hneq].
      apply Z.leb_le in Hle. apply negb_true_iff, Z.eqb_neq in Hneq.
      repeat split; auto.
    + destruct (IH (S k) (VideoQuality_of_int (Z.of_nat k)) ltac:(discriminate))
        as (i & Hres & Hlt & Hstop & Hfirst).
      exists (S i). split; [rewrite Hres; f_equal; lia|].
      split; [simpl in *; lia|].
      split; [apply stopsAt_cons, Hstop|].
      intros [|j] Hj.
      * intros [Hlast|(s0 & n0 & Hs0 & Hn0 & Hle & Hneq)]; [simpl in Hlast; lia|].
        simpl in Hs0, Hn0. injection Hs0 as <-. injection Hn0 as <-.
        apply andb_false_iff in Hcond as [Hc|Hc].
        -- apply Z.leb_gt in Hc. lia.
        -- apply negb_false_iff, Z.eqb_eq in Hc. contradiction.
      * rewrite stopsAt_cons. apply Hfirst. lia.
Qed.

Lemma VideoQuality_of_int_small (i : nat) :
  (i < 3)%nat ->
  VideoQuality_of_int (Z.of_nat i) = VideoQuality_LOW \/
  VideoQuality_of_int (Z.of_nat i) = VideoQuality_MEDIUM \/
  VideoQuality_of_int (Z.of_nat i) = VideoQuality_HIGH.
Proof.
  intros Hi. destruct i as [|[|[|i]]]; [left|right; left|right; right|lia]; reflexivity.
Qed.

Lemma layerSizesOf_nonempty (ti : TrackInfo) : layerSizesOf ti <> [].
Proof.
  unfold layerSizesOf. destruct (ti_Layers ti) as [|l ls] eqn:E; [discriminate|].
  intros Hnil.
  pose proof (sortLayerSizes_Permutation (map vl_Height (l :: ls))) as Hp.
  rewrite Hnil in Hp. apply Permutation_nil_l in Hp. discriminate.
Qed.

Lemma layerSizesOf_length (ti : TrackInfo) :
  length (layerSizesOf ti) = match ti_Layers ti with [] => 3%nat | ls => length ls end.
Proof.
  unfold layerSizesOf. destruct (ti_Layers ti) as [|l ls] eqn:E; [reflexivity|].
  rewrite (Permutation_length (sortLayerSizes_Permutation _)), length_map. reflexivity.
Qed.

(** The code, in terms of the sizes and the requested size it settles on. *)
Lemma GetQualityForDimension_unfold (t : MediaTrackReceiver) (width height : Z) :
  ti_Type (trackInfo t) <> TrackType_AUDIO ->
  ti_Height (trackInfo t) <> 0 ->
  GetQualityForDimension t width height
  = selectQuality (layerSizesOf (trackInfo t))
      (toleratedSize (requestedSizeOf (trackInfo t) width height)) 0 VideoQuality_HIGH.
Proof.
  intros Hk Hh. unfold GetQualityForDimension, Kind, layerSizesOf, requestedSizeOf.
  apply Z.eqb_neq in Hh. rewrite Hh.
  destruct (ti_Type (trackInfo t)); [contradiction| |];
    destruct (ti_Width (trackInfo t) <? ti_Height (trackInfo t));
    destruct (ti_Layers (trackInfo t)); reflexivity.
Qed.

(** C1, as amended.  [GetQualityForDimension] returns high for an audio
    track and when [TrackInfo.Height] is zero.  Otherwise: when
    [TrackInfo] has layers, the sizes are the layers' heights in
    ascending order and the requested size is the requested height,
    whatever the orientation; when it has none, the sizes are 180, 360
    and the original size, and for a portrait track (width < height) the
    original size is the track's width and the requested size the
    requested width, else the track's height and the requested height.
    The target is the single-precision product of the requested size and
    0.9, truncated, which is the integer part of nine tenths of the
    requested size for sizes below 65536.  The result is
    [VideoQuality(i)] for the first index [i] that is the last index or
    whose size is at least the target and differs from the next size; it
    is one of low, medium, high whenever [TrackInfo] has at most three
    layers. *)
Theorem GetQualityForDimension_selects (t : MediaTrackReceiver) (width height : Z) :
  let ti := trackInfo t in
  let sizes := layerSizesOf ti in
  let requested := requestedSizeOf ti width height in
  let target := toleratedSize requested in
  (ti_Type ti = TrackType_AUDIO -> GetQualityForDimension t width height = VideoQuality_HIGH) /\
  (ti_Height ti = 0 -> GetQualityForDimension t width height = VideoQuality_HIGH) /\
  (ti_Layers ti <> [] ->
   sizes ≡ₚ map vl_Height (ti_Layers ti) /\ StronglySorted Z.le sizes /\ requested = height) /\
  (ti_Layers ti = [] ->
   (ti_Width ti < ti_Height ti -> sizes = [180; 360; ti_Width ti] /\ requested = width) /\
   (ti_Height ti <= ti_Width ti -> sizes = [180; 360; ti_Height ti] /\ requested = height)) /\
  (0 <= requested < 65536 -> target = 9 * requested / 10) /\
  (ti_Type ti <> TrackType_AUDIO -> ti_Height ti <> 0 ->
   exists i,
     GetQualityForDimension t width height = VideoQuality_of_int (Z.of_nat i) /\
     stopsAt sizes target i /\
     (forall j, (j < i)%nat -> ~ stopsAt sizes target j) /\
     ((length (ti_Layers ti) <= 3)%nat ->
      GetQualityForDimension t width height = VideoQuality_LOW \/
      GetQualityForDimension t width height = VideoQuality_MEDIUM \/
      GetQualityForDimension t width height = VideoQuality_HIGH)).
Proof.
  intros ti sizes requested target.
  split; [|split; [|split; [|split; [|split]]]].
  - intros Ha. unfold GetQualityForDimension, Kind. fold ti. rewrite Ha. reflexivity.
  - intros Hh. unfold GetQualityForDimension, Kind. fold ti. rewrite Hh.
    destruct (ti_Type ti); reflexivity.
  - intros Hne. subst sizes requested. unfold layerSizesOf, requestedSizeOf.
    destruct (ti_Layers ti) as [|l ls]; [contradiction|].
    split; [apply sortLayerSizes_Permutation|].
    split; [apply sortLayerSizes_StronglySorted|reflexivity].
  - intros Hnil. subst sizes requested. unfold layerSizesOf, requestedSizeOf.
    rewrite Hnil. split; intros Hcmp.
    + apply Z.ltb_lt in Hcmp. rewrite Hcmp. auto.
    + apply Z.ltb_ge in Hcmp. rewrite Hcmp. auto.
  - apply toleratedSize_floor.
  - intros Hk Hh.
    rewrite (GetQualityForDimension_unfold t width height Hk Hh).
    fold ti sizes requested target.
    destruct (selectQuality_first_stop sizes target 0 VideoQuality_HIGH
                (layerSizesOf_nonempty ti)) as (i & Hres & Hlt & Hstop & Hfirst).
    exists i. rewrite Hres. simpl.
    split; [reflexivity|]. split; [exact Hstop|]. split; [exact Hfirst|].
    intros Hlen. apply VideoQuality_of_int_small.
    subst sizes. rewrite layerSizesOf_length in Hlt.
    destruct (ti_Layers ti); simpl in *; lia.
Qed.

Lemma GetQualityForDimension_selects_witness :
  GetQualityForDimension sampleTrack 640 360 = VideoQuality_MEDIUM /\
  toleratedSize 360 = 324 /\
  stopsAt [180; 360; 720] 324 1 /\
  ~ stopsAt [180; 360; 720] 324 0.
Proof.
  pose proof (GetQualityForDimension_selects sampleTrack 640 360) as H.
  cbv zeta in H.
  destruct H as (_ & _ & _ & _ & Htol & Hsel).
  assert (Hreq : requestedSizeOf (trackInfo sampleTrack) 640 360 = 360) by reflexivity.
  assert (Hsizes : layerSizesOf (trackInfo sampleTrack) = [180; 360; 720]) by reflexivity.
  rewrite Hreq, Hsizes in *.
  specialize (Htol ltac:(lia)).
  destruct Hsel as (i & Hres & Hstop & Hfirst & _); [discriminate|discriminate|].
  rewrite Htol in Hstop, Hfirst. change (9 * 360 / 10) with 324 in *.
  assert (Hi : i = 1%nat).
  { assert (Hq : GetQualityForDimension sampleTrack 640 360 = 1) by reflexivity.
    rewrite Hq in Hres.
    destruct i as [|[|[|i]]]; try reflexivity; try discriminate Hres.
    destruct Hstop as [Hlast|(s & n & Hs & _)]; simpl in *; [lia|].
    destruct i; discriminate Hs. }
  subst i.
  split; [exact Hres|]. split; [exact Htol|]. split; [exact Hstop|].
  apply Hfirst. lia.
Defined.

(** C1 as stated fails in three ways.  On a portrait track with layers
    the code compares the requested height, not the requested width:
    for a 360x640 track with layer heights 160, 320, 640 and a request of
    90x640 it answers high where the claim's wording gives low.  On a
    portrait track without layers the third default size is the track's
    width, not its height.  With four layers the answer can be
    [VideoQuality(3)], which is none of low, medium, high. *)
Lemma GetQualityForDimension_differs_from_wording :
  GetQualityForDimension portraitTrack 90 640 = VideoQuality_HIGH /\
  spec_GetQualityForDimension (trackInfo portraitTrack) 90 640 = VideoQuality_LOW /\
  GetQualityForDimension portraitTrack 90 640
  <> spec_GetQualityForDimension (trackInfo portraitTrack) 90 640 /\
  GetQualityForDimension portraitNoLayers 300 640 = VideoQuality_HIGH /\
  spec_GetQualityForDimension (trackInfo portraitNoLayers) 300 640 = VideoQuality_MEDIUM /\
  GetQualityForDimension fourLayerTrack 3840 2160 = 3 /\
  ~ In (GetQualityForDimension fourLayerTrack 3840 2160)
       [VideoQuality_LOW; VideoQuality_MEDIUM; VideoQuality_HIGH].
Proof.
  split; [reflexivity|]. split; [reflexivity|]. split; [discriminate|].
  split; [reflexivity|]. split; [reflexivity|]. split; [reflexivity|].
  vm_compute. intros [H|[H|[H|[]]]]; discriminate H.
Qed.

(** ** The slot list *)

Section SlotFacts.
Import GoStrings.

Lemma mimeKey_EqualFold (r r' : simulcastReceiver) :
  EqualFold (codec_MimeType (Codec r)) (codec_MimeType (Codec r')) = true
  <-> mimeKey r = mimeKey r'.
Proof. apply EqualFold_lower. Qed.

Lemma uniqueMimes_of_NoDup (l : list simulcastReceiver) :
  NoDup (map mimeKey l) -> uniqueMimes l.
Proof.
  intros Hnd i j r r' Hi Hj Heq.
  apply mimeKey_EqualFold in Heq.
  apply (NoDup_lookup _ i j (mimeKey r) Hnd).
  - rewrite list_lookup_fmap, Hi. reflexivity.
  - rewrite list_lookup_fmap, Hj, Heq. reflexivity.
Qed.

(** An upgrade keeps the address, the priority and the fold class of
    the mime type of a slot of the receiver's codec. *)
Lemma upgradedSlot_mimeKey (r : simulcastReceiver) (d : DummyReceiver)
    (receiver : WebRTCReceiver) :
  slot_TrackReceiver r = IsDummy d ->
  EqualFold (codec_MimeType (Codec r)) (codec_MimeType (recv_Codec receiver)) = true ->
  mimeKey (upgradedSlot r d receiver) = mimeKey r.
Proof.
  intros Hd Hm. unfold mimeKey, upgradedSlot, Codec in *. simpl. rewrite Hd in *.
  unfold DummyReceiver_Upgrade, DummyReceiver_Codec in *.
  destruct (dummy_receiver d) as [w|] eqn:Hw; simpl.
  - rewrite Hw. reflexivity.
  - symmetry. apply EqualFold_lower, Hm.
Qed.

Lemma upgradedSlot_sameSlot (r : simulcastReceiver) (d : DummyReceiver)
    (receiver : WebRTCReceiver) :
  slot_TrackReceiver r = IsDummy d -> sameSlot r (upgradedSlot r d receiver).
Proof.
  intros Hd. split; [reflexivity|]. split; [reflexivity|].
  right. exists d, receiver. split; [exact Hd|reflexivity].
Qed.

Lemma sameSlot_refl (r : simulcastReceiver) : sameSlot r r.
Proof. split; [reflexivity|]. split; [reflexivity|]. left; reflexivity. Qed.

(** When the scan upgrades, it upgrades the first slot of the receiver's
    codec held by a Dummy, in place. *)
Lemma upgradeDummy_Some (l l' : list simulcastReceiver) (receiver : WebRTCReceiver) :
  upgradeDummy l receiver = Some l' ->
  exists i r d,
    l !! i = Some r /\ slot_TrackReceiver r = IsDummy d /\
    EqualFold (codec_MimeType (Codec r)) (codec_MimeType (recv_Codec receiver)) = true /\
    (forall j r', (j < i)%nat -> l !! j = Some r' -> matchesDummy receiver r' = false) /\
    l' = <[i := upgradedSlot r d receiver]> l.
Proof.
  revert l'; induction l as [|r l IH]; intros l' H; [discriminate|].
  simpl in H.
  destruct (EqualFold (codec_MimeType (Codec r)) (codec_MimeType (recv_Codec receiver)))
    eqn:Hm.
  - destruct (slot_TrackReceiver r) as [w|d] eqn:Hr.
    + destruct (upgradeDummy l receiver) as [l0|] eqn:Hrec; [|discriminate].
      injection H as <-.
      destruct (IH l0 eq_refl) as (i & r0 & d & Hi & Hd & Hm0 & Hfirst & ->).
      exists (S i), r0, d. repeat split; auto.
      intros [|j] r' Hj Hl; simpl in Hl.
      * injection Hl as <-. unfold matchesDummy, isDummy. rewrite Hr.
        apply andb_false_r.
      * apply (Hfirst j); [lia|exact Hl].
    + injection H as <-. exists 0%nat, r, d. repeat split; auto.
      intros j r' Hj; lia.
  - destruct (upgradeDummy l receiver) as [l0|] eqn:Hrec; [|discriminate].
    injection H as <-.
    destruct (IH l0 eq_refl) as (i & r0 & d & Hi & Hd & Hm0 & Hfirst & ->).
    exists (S i), r0, d. repeat split; auto.
    intros [|j] r' Hj Hl; simpl in Hl.
    + injection Hl as <-. unfold matchesDummy. rewrite Hm. reflexivity.
    + apply (Hfirst j); [lia|exact Hl].
Qed.

Lemma upgradeDummy_None (l : list simulcastReceiver) (receiver : WebRTCReceiver) :
  upgradeDummy l receiver = None <-> forall r, r ∈ l -> matchesDummy receiver r = false.
Proof.
  induction l as [|r l IH]; simpl.
  - split; [intros _ r Hr; inversion Hr|reflexivity].
  - unfold matchesDummy at 1, isDummy.
    destruct (EqualFold (codec_MimeType (Codec r)) (codec_MimeType (recv_Codec receiver)))
      eqn:Hm; [destruct (slot_TrackReceiver r) as [w|d] eqn:Hr|].
    + destruct (upgradeDummy l receiver) as [l0|]; simpl.
      * split; [discriminate|]. intros H. exfalso.
        assert (Hn : Some l0 = @None (list simulcastReceiver));
          [|discriminate Hn].
        apply IH. intros r' Hr'. apply H. right. exact Hr'.
      * split; [|reflexivity]. intros _ r' Hr'.
        apply elem_of_cons in Hr' as [->|Hr'].
        -- unfold matchesDummy, isDummy. rewrite Hr. apply andb_false_r.
        -- apply IH; [reflexivity|exact Hr'].
    + split; [discriminate|]. intros H.
      specialize (H r ltac:(left)). unfold matchesDummy, isDummy in H.
      rewrite Hm, Hr in H. discriminate.
    + destruct (upgradeDummy l receiver) as [l0|]; simpl.
      * split; [discriminate|]. intros H. exfalso.
        assert (Hn : Some l0 = @None (list simulcastReceiver));
          [|discriminate Hn].
        apply IH. intros r' Hr'. apply H. right. exact Hr'.
      * split; [|reflexivity]. intros _ r' Hr'.
        apply elem_of_cons in Hr' as [->|Hr'].
        -- unfold matchesDummy. rewrite Hm. reflexivity.
        -- apply IH; [reflexivity|exact Hr'].
Qed.

(** The converse: the first slot of the codec held by a Dummy is the
    one the scan upgrades. *)
Lemma upgradeDummy_first (l : list simulcastReceiver) (receiver : WebRTCReceiver)
    (i : nat) (r : simulcastReceiver) (d : DummyReceiver) :
  l !! i = Some r -> slot_TrackReceiver r = IsDummy d ->
  EqualFold (codec_MimeType (Codec r)) (codec_MimeType (recv_Codec receiver)) = true ->
  (forall j r', (j < i)%nat -> l !! j = Some r' -> matchesDummy receiver r' = false) ->
  upgradeDummy l receiver = Some (<[i := upgradedSlot r d receiver]> l).
Proof.
  intros Hi Hd Hm Hfirst.
  destruct (upgradeDummy l receiver) as [l'|] eqn:Hup.
  - destruct (upgradeDummy_Some _ _ _ Hup) as (i' & r0 & d0 & Hi' & Hd0 & Hm0 & Hfirst' & ->).
    assert (Hmd : matchesDummy receiver r = true).
    { unfold matchesDummy, isDummy. rewrite Hm, Hd. reflexivity. }
    assert (Hmd0 : matchesDummy receiver r0 = true).
    { unfold matchesDummy, isDummy. rewrite Hm0, Hd0. reflexivity. }
    assert (i' = i).
    { destruct (lt_eq_lt_dec i' i) as [[Hlt|Heq]|Hgt]; [|exact Heq|].
      - rewrite (Hfirst i' r0 Hlt Hi') in Hmd0. discriminate.
      - rewrite (Hfirst' i r Hgt Hi) in Hmd. discriminate. }
    subst i'. rewrite Hi in Hi'. injection Hi' as <-.
    rewrite Hd in Hd0. injection Hd0 as <-. reflexivity.
  - rewrite upgradeDummy_None in Hup.
    assert (Hmd : matchesDummy receiver r = true).
    { unfold matchesDummy, isDummy. rewrite Hm, Hd. reflexivity. }
    rewrite (Hup r) in Hmd; [discriminate|].
    eapply list_elem_of_lookup_2, Hi.
Qed.

End SlotFacts.

Section SlotInvariants.
Import GoStrings.
Context `{C : Collaborators}.

Lemma map_insert_same {A B} (f : A -> B) (l : list A) (i : nat) (x y : A) :
  l !! i = Some x -> f y = f x -> map f (<[i := y]> l) = map f l.
Proof.
  intros Hi Hf.
  change (map f (<[i := y]> l)) with (f <$> <[i := y]> l).
  rewrite list_fmap_insert, Hf.
  apply list_insert_id. rewrite list_lookup_fmap, Hi. reflexivity.
Qed.

(** What [SetupReceiver] stores as slot list and next address when the
    state is Open. *)
Lemma SetupReceiver_open (t : MediaTrackReceiver) (receiver : WebRTCReceiver)
    (priority : Z) (mid : string) :
  state t = mediaTrackReceiverStateOpen ->
  receivers (SetupReceiver t receiver priority mid)
  = sortSlice (match upgradeDummy (receivers t) receiver with
               | Some upgraded => upgraded
               | None => receivers t ++ [mkSlot (nextAddr t) (IsReal receiver) priority]
               end) /\
  nextAddr (SetupReceiver t receiver priority mid)
  = match upgradeDummy (receivers t) receiver with
    | Some _ => nextAddr t
    | None => S (nextAddr t)
    end /\
  state (SetupReceiver t receiver priority mid) = mediaTrackReceiverStateOpen.
Proof.
  intros Hs. unfold SetupReceiver. rewrite Hs. simpl.
  destruct (upgradeDummy (receivers t) receiver); simpl;
    destruct (onSetupReceiver t); simpl; auto.
Qed.

Lemma SetupReceiver_closed (t : MediaTrackReceiver) (receiver : WebRTCReceiver)
    (priority : Z) (mid : string) :
  state t <> mediaTrackReceiverStateOpen ->
  SetupReceiver t receiver priority mid = t.
Proof.
  intros Hs. unfold SetupReceiver. apply state_eqb_neq in Hs. rewrite Hs. reflexivity.
Qed.

(** The loop of [SetPotentialCodecs] appends Dummies at fresh addresses,
    one for each codec whose mime type is not in the list yet. *)
Lemma addPotentialCodecs_appends (codecs : list RTPCodecParameters) (i : Z)
    (headers headersWithoutDD : list RTPHeaderExtensionParameter)
    (trackID streamId : string) (l : list simulcastReceiver) (next : nat) :
  exists news,
    addPotentialCodecs codecs i headers headersWithoutDD trackID streamId l next
    = (l ++ news, (next + length news)%nat) /\
    map slot_addr news = seq next (length news) /\
    (NoDup (map mimeKey l) -> NoDup (map mimeKey (l ++ news))).
Proof.
  revert i l next; induction codecs as [|c rest IH]; intros i l next.
  - exists []. simpl. rewrite app_nil_r, Nat.add_0_r. auto.
  - simpl.
    destruct (existsb _ l) eqn:Hex.
    + apply IH.
    + set (new := mkSlot next (IsDummy (NewDummyReceiver trackID streamId c
               (if negb (IsSvcCodec (codec_MimeType c)) then headersWithoutDD else headers))) i).
      destruct (IH (i + 1) (l ++ [new]) (S next)) as (news & Heq & Haddr & Hnd).
      exists (new :: news). rewrite Heq. simpl.
      split; [rewrite <- app_assoc; simpl; f_equal; lia|].
      split; [f_equal; exact Haddr|].
      intros Hl. rewrite <- app_assoc in Hnd. simpl in Hnd. apply Hnd.
      rewrite map_app. simpl.
      apply NoDup_app. split; [exact Hl|]. split; [|repeat constructor; apply not_elem_of_nil].
      intros k Hk Hk'. apply list_elem_of_singleton in Hk'. subst k.
      apply list_elem_of_fmap in Hk as (r & Hkey & Hr).
      assert (Hf : EqualFold (codec_MimeType c) (codec_MimeType (Codec r)) = false).
      { destruct (EqualFold (codec_MimeType c) (codec_MimeType (Codec r))) eqn:E; [|reflexivity].
        rewrite <- Hex. symmetry. apply existsb_exists. exists r.
        split; [apply list_elem_of_In, Hr|exact E]. }
      assert (Ht : EqualFold (codec_MimeType c) (codec_MimeType (Codec r)) = true).
      { apply EqualFold_lower. exact Hkey. }
      congruence.
Qed.

Lemma SetPotentialCodecs_receivers (t : MediaTrackReceiver)
    (codecs : list RTPCodecParameters) (headers : list RTPHeaderExtensionParameter) :
  exists news,
    receivers (SetPotentialCodecs t codecs headers) = sortSlice (receivers t ++ news) /\
    nextAddr (SetPotentialCodecs t codecs headers) = (nextAddr t + length news)%nat /\
    map slot_addr news = seq (nextAddr t) (length news) /\
    (NoDup (map mimeKey (receivers t)) -> NoDup (map mimeKey (receivers t ++ news))) /\
    state (SetPotentialCodecs t codecs headers) = state t.
Proof.
  unfold SetPotentialCodecs.
  destruct (addPotentialCodecs_appends codecs 0 headers
              (List.filter (fun h => negb (String.eqb (ext_URI h) ExtensionURI)) headers)
              (ti_Sid (trackInfo t)) (ParticipantID (params t)) (receivers t) (nextAddr t))
    as (news & Heq & Haddr & Hnd).
  exists news. rewrite Heq. simpl. auto.
Qed.

End SlotInvariants.

Section SlotSteps.
Import GoStrings.
Context `{S : SortSliceSpec}.

Lemma state_cases (t : MediaTrackReceiver) :
  state t = mediaTrackReceiverStateOpen \/ state t <> mediaTrackReceiverStateOpen.
Proof. destruct (state t); auto; right; discriminate. Qed.

Lemma upgraded_map (f : simulcastReceiver -> nat) (l l' : list simulcastReceiver)
    (receiver : WebRTCReceiver) :
  (forall r d, f (upgradedSlot r d receiver) = f r) ->
  upgradeDummy l receiver = Some l' -> map f l' = map f l.
Proof.
  intros Hf Hup.
  destruct (upgradeDummy_Some _ _ _ Hup) as (i & r & d & Hi & _ & _ & _ & ->).
  apply (map_insert_same f l i r); [exact Hi|apply Hf].
Qed.

Lemma upgraded_mimeKeys (l l' : list simulcastReceiver) (receiver : WebRTCReceiver) :
  upgradeDummy l receiver = Some l' -> map mimeKey l' = map mimeKey l.
Proof.
  intros Hup.
  destruct (upgradeDummy_Some _ _ _ Hup) as (i & r & d & Hi & Hd & Hm & _ & ->).
  apply (map_insert_same mimeKey l i r); [exact Hi|].
  apply upgradedSlot_mimeKey; assumption.
Qed.

Lemma upgraded_sameSlot (l l' : list simulcastReceiver) (receiver : WebRTCReceiver)
    (r : simulcastReceiver) :
  upgradeDummy l receiver = Some l' -> r ∈ l -> exists r', r' ∈ l' /\ sameSlot r r'.
Proof.
  intros Hup Hr.
  destruct (upgradeDummy_Some _ _ _ Hup) as (i & r0 & d & Hi & Hd & _ & _ & ->).
  apply list_elem_of_lookup in Hr as [j Hj].
  destruct (decide (j = i)) as [->|Hne].
  - rewrite Hi in Hj. injection Hj as <-.
    exists (upgradedSlot r0 d receiver). split; [|apply upgradedSlot_sameSlot, Hd].
    apply (list_elem_of_lookup_2 _ i). apply list_lookup_insert_eq.
    eapply lookup_lt_Some, Hi.
  - exists r. split; [|apply sameSlot_refl].
    apply (list_elem_of_lookup_2 _ j). rewrite list_lookup_insert_ne by congruence.
    exact Hj.
Qed.

Lemma runSlotOp_sorted (op : SlotOp) (t : MediaTrackReceiver) :
  StronglySorted priorityLe (receivers t) ->
  StronglySorted priorityLe (receivers (runSlotOp op t)).
Proof.
  intros Hs. destruct op as [receiver priority mid|codecs headers]; simpl.
  - destruct (state_cases t) as [Ho|Hc].
    + destruct (SetupReceiver_open t receiver priority mid Ho) as (-> & _).
      apply sortSlice_Sorted.
    + rewrite SetupReceiver_closed by exact Hc. exact Hs.
  - destruct (SetPotentialCodecs_receivers t codecs headers) as (news & -> & _).
    apply sortSlice_Sorted.
Qed.

Lemma NoDup_addrs_app (l news : list simulcastReceiver) (next : nat) :
  NoDup (map slot_addr l) ->
  (forall r, r ∈ l -> (slot_addr r < next)%nat) ->
  map slot_addr news = seq next (length news) ->
  NoDup (map slot_addr (l ++ news)) /\
  (forall r, r ∈ l ++ news -> (slot_addr r < next + length news)%nat).
Proof.
  intros Hnd Hlt Hnews. split.
  - rewrite map_app, Hnews. apply NoDup_app. split; [exact Hnd|].
    split; [|apply NoDup_seq].
    intros a Ha Ha'. apply list_elem_of_fmap in Ha as (r & -> & Hr).
    apply elem_of_seq in Ha'. specialize (Hlt r Hr). lia.
  - intros r Hr. apply elem_of_app in Hr as [Hr|Hr].
    + specialize (Hlt r Hr). lia.
    + assert (Ha : slot_addr r ∈ map slot_addr news).
      { apply list_elem_of_fmap. exists r. auto. }
      rewrite Hnews in Ha. apply elem_of_seq in Ha. lia.
Qed.

Lemma runSlotOp_addrsFresh (op : SlotOp) (t : MediaTrackReceiver) :
  addrsFresh t -> addrsFresh (runSlotOp op t).
Proof.
  intros [Hnd Hlt]. unfold addrsFresh.
  destruct op as [receiver priority mid|codecs headers]; simpl.
  - destruct (state_cases t) as [Ho|Hc];
      [|rewrite SetupReceiver_closed by exact Hc; split; assumption].
    destruct (SetupReceiver_open t receiver priority mid Ho) as (-> & -> & _).
    destruct (upgradeDummy (receivers t) receiver) as [l'|] eqn:Hup.
    + assert (Hmap : map slot_addr l' = map slot_addr (receivers t)).
      { apply (upgraded_map slot_addr _ _ receiver); [reflexivity|exact Hup]. }
      split.
      * rewrite sortSlice_Permutation, Hmap. exact Hnd.
      * intros r Hr. rewrite sortSlice_Permutation in Hr.
        assert (Ha : slot_addr r ∈ map slot_addr l').
        { apply list_elem_of_fmap. exists r. auto. }
        rewrite Hmap in Ha. apply list_elem_of_fmap in Ha as (r0 & -> & Hr0).
        apply Hlt, Hr0.
    + destruct (NoDup_addrs_app (receivers t)
                  [mkSlot (nextAddr t) (IsReal receiver) priority] (nextAddr t) Hnd Hlt eq_refl)
        as [Hnd' Hlt'].
      split.
      * rewrite sortSlice_Permutation. exact Hnd'.
      * intros r Hr. rewrite sortSlice_Permutation in Hr.
        specialize (Hlt' r Hr). simpl in Hlt'. lia.
  - destruct (SetPotentialCodecs_receivers t codecs headers)
      as (news & -> & -> & Haddr & _).
    destruct (NoDup_addrs_app (receivers t) news (nextAddr t) Hnd Hlt Haddr) as [Hnd' Hlt'].
    split.
    + rewrite sortSlice_Permutation. exact Hnd'.
    + intros r Hr. rewrite sortSlice_Permutation in Hr. apply Hlt', Hr.
Qed.

Lemma runSlotOp_sameSlot (op : SlotOp) (t : MediaTrackReceiver) (r : simulcastReceiver) :
  r ∈ receivers t -> exists r', r' ∈ receivers (runSlotOp op t) /\ sameSlot r r'.
Proof.
  intros Hr. destruct op as [receiver priority mid|codecs headers]; simpl.
  - destruct (state_cases t) as [Ho|Hc];
      [|rewrite SetupReceiver_closed by exact Hc; exists r; split;
        [exact Hr|apply sameSlot_refl]].
    destruct (SetupReceiver_open t receiver priority mid Ho) as (-> & _).
    destruct (upgradeDummy (receivers t) receiver) as [l'|] eqn:Hup.
    + destruct (upgraded_sameSlot _ _ _ _ Hup Hr) as (r' & Hr' & Hsame).
      exists r'. split; [|exact Hsame]. rewrite sortSlice_Permutation. exact Hr'.
    + exists r. split; [|apply sameSlot_refl].
      rewrite sortSlice_Permutation. apply elem_of_app. left. exact Hr.
  - destruct (SetPotentialCodecs_receivers t codecs headers) as (news & -> & _).
    exists r. split; [|apply sameSlot_refl].
    rewrite sortSlice_Permutation. apply elem_of_app. left. exact Hr.
Qed.

Lemma runSlotOp_mimeKeys (op : SlotOp) (t : MediaTrackReceiver) :
  NoDup (map mimeKey (receivers t)) -> freshCodec op t = true ->
  NoDup (map mimeKey (receivers (runSlotOp op t))).
Proof.
  intros Hnd Hfresh. destruct op as [receiver priority mid|codecs headers]; simpl.
  - destruct (state_cases t) as [Ho|Hc];
      [|rewrite SetupReceiver_closed by exact Hc; exact Hnd].
    destruct (SetupReceiver_open t receiver priority mid Ho) as (-> & _).
    rewrite sortSlice_Permutation.
    destruct (upgradeDummy (receivers t) receiver) as [l'|] eqn:Hup.
    + rewrite (upgraded_mimeKeys _ _ _ Hup). exact Hnd.
    + rewrite map_app. simpl.
      apply NoDup_app. split; [exact Hnd|].
      split; [|repeat constructor; apply not_elem_of_nil].
      intros k Hk Hk'. apply list_elem_of_singleton in Hk'. subst k.
      apply list_elem_of_fmap in Hk as (r & Hkey & Hr).
      simpl in Hfresh. rewrite Ho in Hfresh. simpl in Hfresh.
      rewrite forallb_forall in Hfresh.
      specialize (Hfresh r ltac:(apply list_elem_of_In, Hr)).
      rewrite upgradeDummy_None in Hup. specialize (Hup r Hr).
      unfold matchesDummy in Hup.
      assert (Ht : EqualFold (codec_MimeType (Codec r)) (codec_MimeType (recv_Codec receiver))
                   = true).
      { apply EqualFold_lower. symmetry. exact Hkey. }
      rewrite Ht in Hfresh, Hup. simpl in Hfresh, Hup. congruence.
  - destruct (SetPotentialCodecs_receivers t codecs headers) as (news & -> & _ & _ & Hk & _).
    rewrite sortSlice_Permutation. apply Hk, Hnd.
Qed.

End SlotSteps.

Section SlotRuns.
Context `{S : SortSliceSpec}.

Lemma runSlotOps_snoc (ops : list SlotOp) (op : SlotOp) (t : MediaTrackReceiver) :
  runSlotOps (ops ++ [op]) t = runSlotOp op (runSlotOps ops t).
Proof. unfold runSlotOps. rewrite fold_left_app. reflexivity. Qed.

Lemma runSlotOps_cons (op : SlotOp) (ops : list SlotOp) (t : MediaTrackReceiver) :
  runSlotOps (op :: ops) t = runSlotOps ops (runSlotOp op t).
Proof. reflexivity. Qed.

Lemma runSlotOps_invariants (ops : list SlotOp) (t : MediaTrackReceiver) :
  StronglySorted priorityLe (receivers t) -> addrsFresh t ->
  StronglySorted priorityLe (receivers (runSlotOps ops t)) /\
  addrsFresh (runSlotOps ops t) /\
  (NoDup (map mimeKey (receivers t)) -> freshCodecs ops t = true ->
   NoDup (map mimeKey (receivers (runSlotOps ops t)))).
Proof.
  revert t; induction ops as [|op ops IH]; intros t Hs Ha.
  - simpl. auto.
  - rewrite runSlotOps_cons.
    destruct (IH (runSlotOp op t) (runSlotOp_sorted op t Hs) (runSlotOp_addrsFresh op t Ha))
      as (Hs' & Ha' & Hk').
    split; [exact Hs'|]. split; [exact Ha'|].
    intros Hk Hfresh. simpl in Hfresh. apply andb_true_iff in Hfresh as [Hf1 Hf2].
    apply Hk'; [|exact Hf2]. apply runSlotOp_mimeKeys; assumption.
Qed.

End SlotRuns.

(** C2, as amended.  After every sequence of [SetupReceiver] and
    [SetPotentialCodecs] calls starting from the empty slot list: (a) the
    slot list is in ascending order of priority; (c) slot addresses are
    pairwise distinct, and whatever call comes next, every slot is still
    in the list afterwards with its address and its priority, holding
    the receiver it held, or the Dummy it held after [Upgrade]; (b) no
    two slots have the same mime type up to case, provided every
    [SetupReceiver] call was made with a codec that no real receiver
    held a slot for at the time of the call. *)
Theorem slot_list_invariants `{S : SortSliceSpec} (ops : list SlotOp)
    (t0 : MediaTrackReceiver) :
  receivers t0 = [] ->
  let t := runSlotOps ops t0 in
  StronglySorted priorityLe (receivers t) /\
  NoDup (map slot_addr (receivers t)) /\
  (forall op r, r ∈ receivers t ->
                exists r', r' ∈ receivers (runSlotOp op t) /\ sameSlot r r') /\
  (freshCodecs ops t0 = true -> uniqueMimes (receivers t)).
Proof.
  intros Hnil t.
  assert (Hs0 : StronglySorted priorityLe (receivers t0)) by (rewrite Hnil; constructor).
  assert (Ha0 : addrsFresh t0).
  { split; rewrite Hnil; [constructor|]. intros r Hr. inversion Hr. }
  destruct (runSlotOps_invariants ops t0 Hs0 Ha0) as (Hs & [Hnd _] & Hk).
  split; [exact Hs|]. split; [exact Hnd|]. split.
  - intros op r Hr. apply runSlotOp_sameSlot, Hr.
  - intros Hfresh. apply uniqueMimes_of_NoDup, Hk; [|exact Hfresh].
    rewrite Hnil. constructor.
Qed.

Lemma slot_list_invariants_witness :
  let t := runSlotOps (C := refCollaborators) sampleSlotOps sampleTrack in
  map slot_addr (receivers t) = [0; 1; 2]%nat /\
  map priority (receivers t) = [0; 1; 2] /\
  map isDummy (receivers t) = [true; true; true] /\
  map hasUpgradedDummy (receivers t) = [true; true; false] /\
  StronglySorted priorityLe (receivers t) /\
  uniqueMimes (receivers t).
Proof.
  cbv zeta.
  destruct (slot_list_invariants (S := refCollaborators_SortSliceSpec)
              sampleSlotOps sampleTrack eq_refl) as (Hs & _ & _ & Hu).
  split; [reflexivity|]. split; [reflexivity|]. split; [reflexivity|].
  split; [reflexivity|]. split; [exact Hs|].
  apply Hu. reflexivity.
Defined.

(** C2 as stated fails in (b): [SetupReceiver] appends a second slot
    when the codec is already held by a real receiver. *)
Lemma slot_list_duplicate_mime :
  let t := runSlotOps (C := refCollaborators) duplicateSetup sampleTrack in
  receivers sampleTrack = [] /\
  map (fun r => codec_MimeType (Codec r)) (receivers t) = ["video/VP8"; "video/vp8"]%string /\
  ~ uniqueMimes (receivers t).
Proof.
  cbv zeta. split; [reflexivity|]. split; [reflexivity|].
  intros Hu.
  assert (H01 : 0%nat = 1%nat); [|discriminate H01].
  eapply Hu; reflexivity.
Qed.

Section UpgradeInPlace.
Import GoStrings.

Lemma StronglySorted_by_priority (R : relation Z) (l : list simulcastReceiver) :
  StronglySorted (fun a b => R (priority a) (priority b)) l
  <-> StronglySorted R (map priority l).
Proof.
  induction l as [|x l IH]; simpl.
  - split; constructor.
  - rewrite !StronglySorted_cons, IH, Forall_map. reflexivity.
Qed.

Lemma strictly_sorted_priority_inj (l : list simulcastReceiver) :
  StronglySorted priorityLt l ->
  forall x y, x ∈ l -> y ∈ l -> priority x = priority y -> x = y.
Proof.
  induction 1 as [|a l Hl IH Ha]; intros x y Hx Hy Hp.
  - inversion Hx.
  - rewrite Forall_forall in Ha.
    apply elem_of_cons in Hx as [->|Hx]; apply elem_of_cons in Hy as [->|Hy].
    + reflexivity.
    + specialize (Ha y Hy). unfold priorityLt, Priority in Ha. lia.
    + specialize (Ha x Hx). unfold priorityLt, Priority in Ha. lia.
    + apply IH; assumption.
Qed.

(** A list in strictly ascending priority order is the only ascending
    arrangement of its slots. *)
Lemma sorted_arrangement_unique (l l' : list simulcastReceiver) :
  StronglySorted priorityLt l -> l' ≡ₚ l -> StronglySorted priorityLe l' -> l' = l.
Proof.
  intros Hstrict Hperm Hsorted.
  apply (StronglySorted_unique_strong priorityLe); [|exact Hsorted| |exact Hperm].
  - intros x1 x2 Hx1 Hx2 H12 H21. rewrite Hperm in Hx1.
    apply (strictly_sorted_priority_inj l Hstrict); [assumption..|].
    unfold priorityLe, Priority in *. lia.
  - apply (StronglySorted_by_priority Z.le).
    apply (StronglySorted_by_priority Z.lt) in Hstrict.
    clear -Hstrict. induction Hstrict as [|a m Hm IH Ha]; constructor; [exact IH|].
    eapply Forall_impl; [exact Ha|]. simpl. intros; lia.
Qed.

End UpgradeInPlace.

(** C6, as amended.  When [SetupReceiver] is called while the state is
    Open with a receiver whose mime type matches, up to case, a slot
    held by a Dummy, [Upgrade(receiver)] is called on the Dummy of the
    first such slot, so a Dummy without delegate delegates to the
    supplied receiver afterwards.  No slot is appended or removed and no
    address is allocated; the upgraded slot keeps its address and its
    priority and every other slot is untouched.  The list is then sorted
    by priority: it is in ascending priority order afterwards, and it is
    the old list with the slot upgraded in place when the old list was
    in strictly ascending priority order, or when it was in ascending
    order and the sort leaves an ordered slice as it is. *)
Theorem SetupReceiver_upgrades_in_place `{S : SortSliceSpec} (t : MediaTrackReceiver)
    (receiver : WebRTCReceiver) (priority' : Z) (mid : string)
    (i : nat) (r : simulcastReceiver) (d : DummyReceiver) :
  state t = mediaTrackReceiverStateOpen ->
  receivers t !! i = Some r ->
  slot_TrackReceiver r = IsDummy d ->
  GoStrings.EqualFold (codec_MimeType (Codec r)) (codec_MimeType (recv_Codec receiver)) = true ->
  (forall j r', (j < i)%nat -> receivers t !! j = Some r' -> matchesDummy receiver r' = false) ->
  let t' := SetupReceiver t receiver priority' mid in
  let upgraded := <[i := upgradedSlot r d receiver]> (receivers t) in
  receivers t' ≡ₚ upgraded /\
  length (receivers t') = length (receivers t) /\
  nextAddr t' = nextAddr t /\
  slot_addr (upgradedSlot r d receiver) = slot_addr r /\
  priority (upgradedSlot r d receiver) = priority r /\
  (DummyReceiver_Receiver d = None ->
   DummyReceiver_Receiver (DummyReceiver_Upgrade d receiver) = Some receiver) /\
  (forall j, j <> i -> upgraded !! j = receivers t !! j) /\
  StronglySorted priorityLe (receivers t') /\
  (StronglySorted priorityLt (receivers t) -> receivers t' = upgraded) /\
  ((forall l, StronglySorted priorityLe l -> sortSlice l = l) ->
   StronglySorted priorityLe (receivers t) -> receivers t' = upgraded).
Proof.
  intros Ho Hi Hd Hm Hfirst t' upgraded.
  destruct (SetupReceiver_open t receiver priority' mid Ho) as (Hrecv & Hnext & _).
  rewrite (upgradeDummy_first _ _ _ _ _ Hi Hd Hm Hfirst) in Hrecv, Hnext.
  fold t' in Hrecv, Hnext. fold upgraded in Hrecv.
  assert (Hprio : map priority upgraded = map priority (receivers t)).
  { apply (map_insert_same priority _ i r); [exact Hi|reflexivity]. }
  split; [rewrite Hrecv; apply sortSlice_Permutation|].
  split.
  { rewrite Hrecv, (Permutation_length (sortSlice_Permutation upgraded)).
    apply length_insert. }
  split; [exact Hnext|]. split; [reflexivity|]. split; [reflexivity|].
  split.
  { unfold DummyReceiver_Receiver, DummyReceiver_Upgrade. intros ->. reflexivity. }
  split; [intros j Hj; apply list_lookup_insert_ne; congruence|].
  split; [rewrite Hrecv; apply sortSlice_Sorted|].
  split.
  - intros Hstrict. rewrite Hrecv.
    apply sorted_arrangement_unique;
      [|apply sortSlice_Permutation|apply sortSlice_Sorted].
    apply (StronglySorted_by_priority Z.lt). rewrite Hprio.
    apply (StronglySorted_by_priority Z.lt). exact Hstrict.
  - intros Hkeep Hsorted. rewrite Hrecv. apply Hkeep.
    apply (StronglySorted_by_priority Z.le). rewrite Hprio.
    apply (StronglySorted_by_priority Z.le). exact Hsorted.
Qed.

Lemma SetupReceiver_upgrades_in_place_witness :
  let receiver := mkReceiver 1 vp8_lower in
  let t' := SetupReceiver (C := refCollaborators) sampleSeeded receiver 0 "0" in
  receivers sampleSeeded !! 0%nat = Some sampleSlot0 /\
  receivers t' = <[0%nat := upgradedSlot sampleSlot0 sampleDummy0 receiver]> (receivers sampleSeeded) /\
  map slot_addr (receivers t') = [0; 1]%nat /\
  map hasUpgradedDummy (receivers t') = [true; false].
Proof.
  cbv zeta.
  pose proof (SetupReceiver_upgrades_in_place (S := refCollaborators_SortSliceSpec)
                sampleSeeded (mkReceiver 1 vp8_lower) 0 "0" 0%nat sampleSlot0 sampleDummy0)
    as H.
  cbv zeta in H.
  destruct H as (_ & _ & _ & _ & _ & _ & _ & _ & Hstrict & _);
    [reflexivity|reflexivity|reflexivity|reflexivity|intros j r' Hj; lia|].
  split; [reflexivity|]. split.
  - apply Hstrict. repeat constructor.
  - split; reflexivity.
Defined.

(** C6 as stated fails in two ways.  While the receiver object is not
    Open the call does nothing, so the Dummy is not upgraded.  And the
    call sorts the list: after [ClearReceiver] has moved the last slot
    to the front, upgrading a Dummy rearranges the slots. *)
Lemma SetupReceiver_upgrade_not_always_in_place :
  let closing := SetClosing sampleSeeded in
  map isDummy (receivers closing) = [true; true] /\
  map (fun r => GoStrings.EqualFold (codec_MimeType (Codec r)) (codec_MimeType vp8))
      (receivers closing) = [true; false] /\
  map hasUpgradedDummy
      (receivers (SetupReceiver (C := refCollaborators) closing (mkReceiver 1 vp8) 0 "0"))
  = [false; false] /\
  state sampleCleared = mediaTrackReceiverStateOpen /\
  map slot_addr (receivers sampleCleared) = [2; 1]%nat /\
  map isDummy (receivers sampleCleared) = [true; true] /\
  map (fun r => GoStrings.EqualFold (codec_MimeType (Codec r)) (codec_MimeType h264))
      (receivers sampleCleared) = [false; true] /\
  map slot_addr
      (receivers (SetupReceiver (C := refCollaborators) sampleCleared (mkReceiver 1 h264) 1 "1"))
  = [1; 2]%nat.
Proof. cbv zeta. repeat split; reflexivity. Qed.

(** ** Readers of the slot list and how they compose with the writers *)

Section ReaderFacts.
Import GoStrings.

Lemma find_unique {A} (f : A -> bool) (l : list A) (x : A) :
  x ∈ l -> f x = true -> (forall y, y ∈ l -> f y = true -> y = x) ->
  List.find f l = Some x.
Proof.
  induction l as [|a l IH]; intros Hx Hfx Huniq; [inversion Hx|].
  simpl. destruct (f a) eqn:Hfa.
  - f_equal. apply Huniq; [left|exact Hfa].
  - apply IH; [|exact Hfx|].
    + apply elem_of_cons in Hx as [->|Hx]; [congruence|exact Hx].
    + intros y Hy. apply Huniq. right. exact Hy.
Qed.

Lemma find_none_iff {A} (f : A -> bool) (l : list A) :
  List.find f l = None <-> forall y, y ∈ l -> f y = false.
Proof.
  induction l as [|a l IH]; simpl.
  - split; [intros _ y Hy; inversion Hy|reflexivity].
  - destruct (f a) eqn:Hfa.
    + split; [discriminate|]. intros H. rewrite (H a) in Hfa by left. discriminate.
    + rewrite IH. split.
      * intros H y Hy. apply elem_of_cons in Hy as [->|Hy]; auto.
      * intros H y Hy. apply H. right. exact Hy.
Qed.

Lemma NoDup_map_inj_on {A B} (f : A -> B) (l : list A) (x y : A) :
  NoDup (map f l) -> x ∈ l -> y ∈ l -> f x = f y -> x = y.
Proof.
  intros Hnd Hx Hy Hf.
  apply list_elem_of_lookup in Hx as [i Hi]. apply list_elem_of_lookup in Hy as [j Hj].
  assert (i = j).
  { apply (NoDup_lookup _ i j (f x) Hnd).
    - rewrite list_lookup_fmap, Hi. reflexivity.
    - rewrite list_lookup_fmap, Hj, Hf. reflexivity. }
  subst j. congruence.
Qed.

(** In a list without repeated mime types, the lookup by mime type finds
    the one slot of that mime type. *)
Lemma find_by_mime (l : list simulcastReceiver) (mime : string) (s : simulcastReceiver) :
  NoDup (map mimeKey l) -> s ∈ l ->
  EqualFold (codec_MimeType (Codec s)) mime = true ->
  List.find (fun r => EqualFold (codec_MimeType (Codec r)) mime) l = Some s.
Proof.
  intros Hnd Hs Hm. apply find_unique; [exact Hs|exact Hm|].
  intros y Hy Hym. apply (NoDup_map_inj_on mimeKey l); [exact Hnd|exact Hy|exact Hs|].
  unfold mimeKey. apply EqualFold_lower in Hm, Hym. congruence.
Qed.

Lemma find_Permutation_by_mime (l l' : list simulcastReceiver) (mime : string) :
  NoDup (map mimeKey l) -> l' ≡ₚ l ->
  List.find (fun r => EqualFold (codec_MimeType (Codec r)) mime) l'
  = List.find (fun r => EqualFold (codec_MimeType (Codec r)) mime) l.
Proof.
  intros Hnd Hp.
  destruct (List.find _ l) as [s|] eqn:Hf.
  - pose proof (find_some _ _ Hf) as [Hin Hm].
    apply find_by_mime; [rewrite Hp; exact Hnd| |exact Hm].
    rewrite Hp. apply list_elem_of_In, Hin.
  - rewrite find_none_iff in Hf |- *. intros y Hy. apply Hf. rewrite <- Hp. exact Hy.
Qed.

(** What [ClearReceiver] does to the list, as a rearrangement. *)
Lemma clearReceiver_cases (l : list simulcastReceiver) (mime : string) :
  ((forall r, r ∈ l -> EqualFold (codec_MimeType (Codec r)) mime = false) /\
   clearReceiver l mime = l) \/
  (exists r, r ∈ l /\ EqualFold (codec_MimeType (Codec r)) mime = true /\
             l ≡ₚ r :: clearReceiver l mime).
Proof.
  destruct (list_find (fun r => EqualFold (codec_MimeType (Codec r)) mime = true) l)
    as [[idx r]|] eqn:Hf.
  - right. apply list_find_Some in Hf as (Hidx & Hr & Hfirst).
    exists r. split; [eapply list_elem_of_lookup_2, Hidx|]. split; [exact Hr|].
    assert (Hfirst' : forall j r', (j < idx)%nat -> l !! j = Some r' ->
                       EqualFold (codec_MimeType (Codec r')) mime = false).
    { intros j r' Hj Hl. specialize (Hfirst j r' Hl Hj).
      destruct (EqualFold (codec_MimeType (Codec r')) mime); [contradiction|reflexivity]. }
    destruct (clearReceiver_first_match l mime idx r Hidx Hr Hfirst') as (lst & Hlast & ->).
    apply swap_remove_Permutation; assumption.
  - left. apply list_find_None in Hf. rewrite Forall_forall in Hf.
    assert (Hno : forall r, r ∈ l -> EqualFold (codec_MimeType (Codec r)) mime = false).
    { intros r Hr. specialize (Hf r Hr).
      destruct (EqualFold (codec_MimeType (Codec r)) mime); [contradiction|reflexivity]. }
    split; [exact Hno|]. apply clearReceiver_no_match, Hno.
Qed.

Lemma runLifecycleOps_not_open (ops : list LifecycleOp) (t : MediaTrackReceiver) :
  state t <> mediaTrackReceiverStateOpen ->
  state (runLifecycleOps ops t) <> mediaTrackReceiverStateOpen.
Proof.
  revert t; induction ops as [|op ops IH]; intros t Hs; [exact Hs|].
  simpl. apply IH.
  destruct (runLifecycleOp_state op t) as [He|[[Ho _]|[_ Hc]]].
  - rewrite He. exact Hs.
  - contradiction.
  - rewrite Hc. discriminate.
Qed.

End ReaderFacts.

(** X1. [IsOpen] answers true exactly when the state is Open and no
    slot's receiver is closed.  When it answers true, [AddSubscriber]
    does not fail with [ErrNotOpen]; and once the state has left Open,
    [IsOpen] answers false after any further [SetClosing], [Close] and
    [TryClose] calls, whatever the receivers report. *)
Theorem IsOpen_guards `{C : Collaborators} (isClosed : WebRTCReceiver -> bool)
    (t : MediaTrackReceiver) :
  (IsOpen isClosed t = true <->
   state t = mediaTrackReceiverStateOpen /\
   forall r, r ∈ receivers t -> slot_IsClosed isClosed r = false) /\
  (IsOpen isClosed t = true ->
   forall sub, fst (AddSubscriber t sub) <> AddSubscriber_error ErrNotOpen) /\
  (state t <> mediaTrackReceiverStateOpen ->
   forall ops, IsOpen isClosed (runLifecycleOps ops t) = false).
Proof.
  assert (Hiff : IsOpen isClosed t = true <->
                 state t = mediaTrackReceiverStateOpen /\
                 forall r, r ∈ receivers t -> slot_IsClosed isClosed r = false).
  { unfold IsOpen. destruct (state_eqb (state t) mediaTrackReceiverStateOpen) eqn:Hs; simpl.
    - apply state_eqb_eq in Hs. rewrite negb_true_iff. split.
      + intros Hex. split; [exact Hs|]. intros r Hr.
        destruct (slot_IsClosed isClosed r) eqn:Hc; [|reflexivity].
        rewrite <- Hex. symmetry. apply existsb_exists. exists r.
        split; [apply list_elem_of_In, Hr|exact Hc].
      + intros [_ Hall].
        destruct (existsb _ (receivers t)) eqn:Hex; [|reflexivity].
        apply existsb_exists in Hex as (r & Hr & Hc).
        rewrite (Hall r) in Hc; [discriminate|apply list_elem_of_In, Hr].
    - apply state_eqb_neq in Hs. split; [discriminate|]. intros [Ho _]. contradiction. }
  split; [exact Hiff|]. split.
  - intros Hopen sub. apply Hiff in Hopen as [Hs _].
    unfold AddSubscriber. rewrite Hs. simpl.
    destruct (length (receivers t) =? 0)%nat; simpl; discriminate.
  - intros Hs ops. unfold IsOpen.
    pose proof (runLifecycleOps_not_open ops t Hs) as Hn.
    apply state_eqb_neq in Hn. rewrite Hn. reflexivity.
Qed.

Lemma IsOpen_guards_witness :
  IsOpen (fun _ => false) sampleUpgraded = true /\
  fst (AddSubscriber (C := refCollaborators) sampleUpgraded (mkParticipant "PA_sub" true))
  <> AddSubscriber_error ErrNotOpen /\
  IsOpen (fun _ => false)
    (runLifecycleOps [Op_TryClose; Op_SetClosing] (SetClosing sampleUpgraded)) = false.
Proof.
  destruct (IsOpen_guards (C := refCollaborators) (fun _ => false) sampleUpgraded)
    as (_ & Hsub & _).
  destruct (IsOpen_guards (C := refCollaborators) (fun _ => false) (SetClosing sampleUpgraded))
    as (_ & _ & Hclosed).
  split; [reflexivity|]. split.
  - apply Hsub. reflexivity.
  - apply Hclosed. discriminate.
Defined.

(** X2. Publishing makes the receiver reachable by its mime type: when
    [SetupReceiver] is called on an Open receiver object whose slots have
    pairwise different mime types (up to case), and every slot of the
    receiver's mime type, if there is one, is a Dummy without delegate,
    then [Receiver(mime)] returns the supplied receiver afterwards, for
    every spelling of the mime type. *)
Theorem Receiver_after_SetupReceiver `{S : SortSliceSpec} (t : MediaTrackReceiver)
    (receiver : WebRTCReceiver) (priority' : Z) (mid mime : string) :
  state t = mediaTrackReceiverStateOpen ->
  NoDup (map mimeKey (receivers t)) ->
  (forall r, r ∈ receivers t ->
     GoStrings.EqualFold (codec_MimeType (Codec r)) (codec_MimeType (recv_Codec receiver)) = true ->
     exists d, slot_TrackReceiver r = IsDummy d /\ DummyReceiver_Receiver d = None) ->
  GoStrings.EqualFold (codec_MimeType (recv_Codec receiver)) mime = true ->
  Receiver (SetupReceiver t receiver priority' mid) mime = Some receiver.
Proof.
  intros Ho Hnd Hdummy Hmime.
  unfold Receiver.
  destruct (SetupReceiver_open t receiver priority' mid Ho) as (-> & _).
  set (l' := match upgradeDummy (receivers t) receiver with
             | Some upgraded => upgraded
             | None => receivers t ++ [mkSlot (nextAddr t) (IsReal receiver) priority']
             end).
  assert (Hl' : NoDup (map mimeKey l') /\
                exists s, s ∈ l' /\ slot_Receiver s = Some receiver /\
                          GoStrings.EqualFold (codec_MimeType (Codec s)) mime = true).
  { subst l'. destruct (upgradeDummy (receivers t) receiver) as [up|] eqn:Hup.
    - split; [rewrite (upgraded_mimeKeys _ _ _ Hup); exact Hnd|].
      destruct (upgradeDummy_Some _ _ _ Hup) as (i & r & d & Hi & Hd & Hm & _ & ->).
      destruct (Hdummy r (list_elem_of_lookup_2 _ _ _ Hi) Hm) as (d' & Hd' & Hnone).
      rewrite Hd in Hd'. injection Hd' as <-.
      exists (upgradedSlot r d receiver). split; [|split].
      + apply (list_elem_of_lookup_2 _ i). apply list_lookup_insert_eq.
        eapply lookup_lt_Some, Hi.
      + unfold slot_Receiver, upgradedSlot, DummyReceiver_Receiver, DummyReceiver_Upgrade in *.
        simpl. rewrite Hnone. reflexivity.
      + unfold upgradedSlot, Codec, DummyReceiver_Codec, DummyReceiver_Upgrade,
          DummyReceiver_Receiver in *. simpl. rewrite Hnone. simpl. exact Hmime.
    - rewrite upgradeDummy_None in Hup.
      assert (Hno : forall r, r ∈ receivers t ->
                GoStrings.EqualFold (codec_MimeType (Codec r))
                  (codec_MimeType (recv_Codec receiver)) = false).
      { intros r Hr.
        destruct (GoStrings.EqualFold (codec_MimeType (Codec r))
                    (codec_MimeType (recv_Codec receiver))) eqn:Hm; [|reflexivity].
        destruct (Hdummy r Hr Hm) as (d & Hd & _).
        specialize (Hup r Hr). unfold matchesDummy, isDummy in Hup.
        rewrite Hm, Hd in Hup. discriminate. }
      split.
      + rewrite map_app. simpl. apply NoDup_app. split; [exact Hnd|].
        split; [|repeat constructor; apply not_elem_of_nil].
        intros k Hk Hk'. apply list_elem_of_singleton in Hk'. subst k.
        apply list_elem_of_fmap in Hk as (r & Hkey & Hr).
        specialize (Hno r Hr).
        assert (Ht : GoStrings.EqualFold (codec_MimeType (Codec r))
                       (codec_MimeType (recv_Codec receiver)) = true).
        { apply EqualFold_lower. symmetry. exact Hkey. }
        congruence.
      + exists (mkSlot (nextAddr t) (IsReal receiver) priority').
        split; [apply elem_of_app; right; left|]. split; [reflexivity|exact Hmime]. }
  destruct Hl' as (Hnd' & s & Hs & Hrecv & Hm).
  rewrite (find_Permutation_by_mime l' (sortSlice l') mime Hnd' (sortSlice_Permutation l')).
  rewrite (find_by_mime l' mime s Hnd' Hs Hm). exact Hrecv.
Qed.

Lemma Receiver_after_SetupReceiver_witness :
  Receiver (SetupReceiver (C := refCollaborators) sampleSeeded (mkReceiver 9 vp8_lower) 0 "0")
    "VIDEO/VP8" = Some (mkReceiver 9 vp8_lower) /\
  Receiver (SetupReceiver (C := refCollaborators) sampleSeeded (mkReceiver 9 av1) 5 "2")
    "video/av1" = Some (mkReceiver 9 av1).
Proof.
  assert (Hnd : NoDup (map mimeKey (receivers sampleSeeded))).
  { apply (bool_decide_unpack _). vm_compute. exact I. }
  split.
  - apply (Receiver_after_SetupReceiver (S := refCollaborators_SortSliceSpec));
      [reflexivity|exact Hnd| |reflexivity].
    intros r Hr Hm.
    assert (Hall : Forall (fun r => exists d, slot_TrackReceiver r = IsDummy d /\
                                              DummyReceiver_Receiver d = None)
                     (receivers sampleSeeded)).
    { repeat constructor; eexists; split; reflexivity. }
    rewrite Forall_forall in Hall. apply Hall, Hr.
  - apply (Receiver_after_SetupReceiver (S := refCollaborators_SortSliceSpec));
      [reflexivity|exact Hnd| |reflexivity].
    intros r Hr Hm.
    assert (Hall : Forall (fun r => exists d, slot_TrackReceiver r = IsDummy d /\
                                              DummyReceiver_Receiver d = None)
                     (receivers sampleSeeded)).
    { repeat constructor; eexists; split; reflexivity. }
    rewrite Forall_forall in Hall. apply Hall, Hr.
Defined.



(** X4. Clearing forgets exactly one codec: on a slot list with pairwise
    different mime types (up to case), after [ClearReceiver(mime)] the
    lookup [Receiver] finds nothing for that mime type, and returns what
    it returned before for every other mime type; the mime types of the
    slots stay pairwise different. *)
Theorem Receiver_after_ClearReceiver (t : MediaTrackReceiver) (mime : string)
    (willBeResumed : bool) :
  NoDup (map mimeKey (receivers t)) ->
  let t' := ClearReceiver t mime willBeResumed in
  NoDup (map mimeKey (receivers t')) /\
  (forall mime', GoStrings.EqualFold mime mime' = true -> Receiver t' mime' = None) /\
  (forall mime', GoStrings.EqualFold mime mime' = false -> Receiver t' mime' = Receiver t mime').
Proof.
  intros Hnd t'. subst t'. unfold Receiver. simpl.
  destruct (clearReceiver_cases (receivers t) mime) as [[Hno ->]|(r & Hr & Hm & Hp)].
  - split; [exact Hnd|]. split; [|reflexivity].
    intros mime' Hmm.
    assert (Hf : List.find (fun r => GoStrings.EqualFold (codec_MimeType (Codec r)) mime')
                   (receivers t) = None).
    { apply find_none_iff. intros y Hy. rewrite <- (Hno y Hy).
      rewrite !(EqualFold_sym (codec_MimeType (Codec y))).
      symmetry. apply EqualFold_congr_l. exact Hmm. }
    rewrite Hf. reflexivity.
  - assert (Hnd' : NoDup (map mimeKey (r :: clearReceiver (receivers t) mime))).
    { rewrite <- Hp. exact Hnd. }
    simpl in Hnd'. apply NoDup_cons in Hnd' as [Hnotin Hnd''].
    split; [exact Hnd''|]. split.
    + intros mime' Hmm.
      assert (Hf : List.find (fun r => GoStrings.EqualFold (codec_MimeType (Codec r)) mime')
                     (clearReceiver (receivers t) mime) = None).
      { apply find_none_iff. intros y Hy.
        destruct (GoStrings.EqualFold (codec_MimeType (Codec y)) mime') eqn:Hym; [|reflexivity].
        exfalso. apply Hnotin. apply list_elem_of_fmap. exists y. split; [|exact Hy].
        unfold mimeKey. apply EqualFold_lower in Hm, Hym, Hmm. congruence. }
      rewrite Hf. reflexivity.
    + intros mime' Hmm.
      symmetry in Hp.
      rewrite <- (find_Permutation_by_mime (receivers t) _ mime' Hnd Hp). simpl.
      assert (Hrm : GoStrings.EqualFold (codec_MimeType (Codec r)) mime' = false).
      { rewrite (EqualFold_congr_l _ _ _ Hm). exact Hmm. }
      rewrite Hrm. reflexivity.
Qed.

Lemma Receiver_after_ClearReceiver_witness :
  Receiver (ClearReceiver sampleUpgraded "VIDEO/vp8" false) "video/VP8" = None /\
  Receiver sampleUpgraded "video/VP8" = Some (mkReceiver 1 vp8) /\
  Receiver (ClearReceiver sampleUpgraded "video/h264" false) "video/VP8"
  = Some (mkReceiver 1 vp8).
Proof.
  assert (Hnd : NoDup (map mimeKey (receivers sampleUpgraded))).
  { apply (bool_decide_unpack _). vm_compute. exact I. }
  split; [|split; [reflexivity|]].
  - apply (Receiver_after_ClearReceiver sampleUpgraded "VIDEO/vp8" false Hnd). reflexivity.
  - destruct (Receiver_after_ClearReceiver sampleUpgraded "video/h264" false Hnd)
      as (_ & _ & Hother).
    rewrite Hother; reflexivity.
Defined.

(** X5. [ClearAllReceivers] empties the slot list and asks for the
    removal of the subscribers of every cleared slot's mime type, in slot
    order; whatever the slots held, a [TryClose] that follows closes the
    receiver object, and an [AddSubscriber] that follows is refused. *)
Theorem ClearAllReceivers_then_TryClose `{C : Collaborators} (t : MediaTrackReceiver)
    (willBeResumed : bool) (sub : LocalParticipant) :
  let t' := ClearAllReceivers t willBeResumed in
  receivers t' = [] /\
  calls t' = calls t ++
             map (fun r => Call_removeAllSubscribersForMime (codec_MimeType (Codec r))
                             willBeResumed) (receivers t) /\
  state t' = state t /\ trackInfo t' = trackInfo t /\
  fst (TryClose t') = true /\
  state (snd (TryClose t')) = mediaTrackReceiverStateClosed /\
  (exists err, AddSubscriber t' sub = (AddSubscriber_error err, t')) /\
  PrimaryReceiver t' = None /\
  (forall mime, Receiver t' mime = None).
Proof.
  intros t'. subst t'. unfold ClearAllReceivers. simpl.
  split; [reflexivity|]. split; [reflexivity|]. split; [reflexivity|].
  split; [reflexivity|].
  unfold TryClose. simpl.
  destruct (state_eqb (state t) mediaTrackReceiverStateClosed) eqn:Hs; simpl.
  - apply state_eqb_eq in Hs. split; [reflexivity|]. split; [exact Hs|].
    split; [|split; reflexivity].
    unfold AddSubscriber. simpl. rewrite Hs. simpl. eauto.
  - split; [reflexivity|]. split; [apply state_Close|].
    split; [|split; reflexivity].
    unfold AddSubscriber. simpl.
    destruct (negb (state_eqb (state t) mediaTrackReceiverStateOpen)); eauto.
Qed.

(** ** The snapshot handed to a subscriber *)

Section UpstreamCodecs.

Lemma upstreamCodecs_spec (receivers : list simulcastReceiver)
    (potentialCodecs : list RTPCodecParameters) :
  let up := upstreamCodecs receivers potentialCodecs in
  potentialCodecs `prefix_of` up /\
  (forall r, r ∈ receivers ->
     codec_MimeType (Codec r) ∈ map codec_MimeType up) /\
  (forall c, c ∈ up -> c ∈ potentialCodecs \/ exists r, r ∈ receivers /\ c = Codec r) /\
  (NoDup (map codec_MimeType potentialCodecs) -> NoDup (map codec_MimeType up)).
Proof.
  revert potentialCodecs; induction receivers as [|r rest IH]; intros pcs; simpl.
  - split; [reflexivity|]. split; [intros r Hr; inversion Hr|]. split; auto.
  - set (found := existsb (fun pc => String.eqb (codec_MimeType (Codec r)) (codec_MimeType pc)) pcs).
    set (pcs' := if found then pcs else pcs ++ [Codec r]).
    destruct (IH pcs') as (Hpre & Hcov & Horigin & Hnd).
    assert (Hpp : pcs `prefix_of` pcs').
    { subst pcs'. destruct found; [reflexivity|]. apply prefix_app_r. reflexivity. }
    assert (Hin : codec_MimeType (Codec r) ∈ map codec_MimeType pcs').
    { subst pcs'. destruct found eqn:Hf.
      - subst found. apply existsb_exists in Hf as (pc & Hpc & Heq).
        apply String.eqb_eq in Heq. rewrite Heq.
        apply list_elem_of_fmap. exists pc. split; [reflexivity|apply list_elem_of_In, Hpc].
      - rewrite map_app. apply elem_of_app. right. left. }
    split; [etransitivity; eassumption|]. split; [|split].
    + intros r' Hr'. apply elem_of_cons in Hr' as [->|Hr']; [|apply Hcov, Hr'].
      destruct Hpre as [k ->]. rewrite map_app. apply elem_of_app. left. exact Hin.
    + intros c Hc. destruct (Horigin c Hc) as [Hc'|(r' & Hr' & ->)].
      * subst pcs'. destruct found; [left; exact Hc'|].
        apply elem_of_app in Hc' as [Hc'|Hc']; [left; exact Hc'|].
        apply list_elem_of_singleton in Hc'. subst c. right. exists r. split; [left|reflexivity].
      * right. exists r'. split; [right; exact Hr'|reflexivity].
    + intros Hpcs. apply Hnd. subst pcs'. destruct found eqn:Hf; [exact Hpcs|].
      rewrite map_app. simpl. apply NoDup_app. split; [exact Hpcs|].
      split; [|repeat constructor; apply not_elem_of_nil].
      intros m Hm Hm'. apply list_elem_of_singleton in Hm'. subst m.
      apply list_elem_of_fmap in Hm as (pc & Heq & Hpc).
      assert (Ht : found = true); [|congruence].
      subst found. apply existsb_exists.
      exists pc. split; [apply list_elem_of_In, Hpc|]. apply String.eqb_eq. exact Heq.
Qed.

End UpstreamCodecs.

(** X6. On an Open receiver object with at least one slot,
    [AddSubscriber] hands the subscriptions collaborator a snapshot and
    changes nothing but the trace: the snapshot holds the current slot
    list and the track id; its stream id is the publisher id, packed
    with the track id when the subscriber supports that; its upstream
    codecs start with the potential codecs, contain the mime type of
    every slot's codec, hold only potential codecs and slot codecs, and
    repeat no mime type unless the potential codecs do; red is disabled
    when the track disables it or the audio configuration has no active
    red encoding. *)
Theorem AddSubscriber_snapshot `{C : Collaborators} (t : MediaTrackReceiver)
    (sub : LocalParticipant) :
  state t = mediaTrackReceiverStateOpen ->
  receivers t <> [] ->
  exists wr,
    AddSubscriber t sub
    = (AddSubscriber_delegated sub wr, emit [Call_Subscriptions_AddSubscriber sub wr] t) /\
    wr_Receivers wr = receivers t /\
    wr_TrackID wr = ti_Sid (trackInfo t) /\
    wr_StreamId wr = (if sub_SupportsPackedStreamId sub
                      then PackStreamID (ParticipantID (params t)) (ti_Sid (trackInfo t))
                      else ParticipantID (params t)) /\
    wr_DisableRed wr = (ti_DisableRed (trackInfo t)
                        || negb (AudioConfig_ActiveREDEncoding (params t))) /\
    potentialCodecs t `prefix_of` wr_UpstreamCodecs wr /\
    (forall r, r ∈ receivers t ->
       codec_MimeType (Codec r) ∈ map codec_MimeType (wr_UpstreamCodecs wr)) /\
    (forall c, c ∈ wr_UpstreamCodecs wr ->
       c ∈ potentialCodecs t \/ exists r, r ∈ receivers t /\ c = Codec r) /\
    (NoDup (map codec_MimeType (potentialCodecs t)) ->
     NoDup (map codec_MimeType (wr_UpstreamCodecs wr))).
Proof.
  intros Ho Hne. unfold AddSubscriber. rewrite Ho. simpl.
  destruct (receivers t) as [|r rest] eqn:Hr; [contradiction|].
  cbn [length Nat.eqb].
  eexists. split; [reflexivity|]. cbn [wr_Receivers wr_TrackID wr_StreamId wr_DisableRed
                                      wr_UpstreamCodecs].
  split; [reflexivity|]. split; [reflexivity|]. split; [reflexivity|].
  split; [reflexivity|].
  apply (upstreamCodecs_spec (r :: rest) (potentialCodecs t)).
Qed.

Lemma AddSubscriber_snapshot_witness :
  exists wr,
    AddSubscriber (C := refCollaborators) sampleUpgraded (mkParticipant "PA_sub" true)
    = (AddSubscriber_delegated (mkParticipant "PA_sub" true) wr,
       emit [Call_Subscriptions_AddSubscriber (mkParticipant "PA_sub" true) wr] sampleUpgraded) /\
    wr_StreamId wr = "PA_pub|TR_cam"%string /\
    map codec_MimeType (wr_UpstreamCodecs wr) = ["video/VP8"; "video/H264"]%string.
Proof.
  destruct (AddSubscriber_snapshot (C := refCollaborators) sampleUpgraded
              (mkParticipant "PA_sub" true) eq_refl ltac:(discriminate))
    as (wr & Heq & _ & _ & Hsid & _).
  exists wr. split; [exact Heq|]. split; [rewrite Hsid; reflexivity|].
  vm_compute in Heq. injection Heq as <-. reflexivity.
Defined.

(** ** What [SetupReceiver] writes into the track info *)

Lemma setCodecAt_lookup (codecs : list SimulcastCodecInfo) (i priority' : Z)
    (mime mid : string) (k : nat) (ci : SimulcastCodecInfo) :
  codecs !! k = Some ci ->
  setCodecAt codecs i priority' mime mid !! k
  = Some (if i + Z.of_nat k =? priority' then set_ci_MimeType_Mid mime mid ci else ci).
Proof.
  revert i k; induction codecs as [|c codecs IH]; intros i k Hk; [discriminate|].
  destruct k as [|k].
  - injection Hk as ->. rewrite Z.add_0_r. simpl.
    destruct (i =? priority'); reflexivity.
  - assert (Hk' : codecs !! k = Some ci) by exact Hk.
    replace (i + Z.of_nat (S k)) with (i + 1 + Z.of_nat k) by lia.
    specialize (IH (i + 1) k Hk').
    cbn [setCodecAt]. destruct (Z.eqb_spec i priority') as [Heq|Hne].
    + change ((set_ci_MimeType_Mid mime mid c :: codecs) !! S k) with (codecs !! k).
      rewrite Hk'. destruct (Z.eqb_spec (i + 1 + Z.of_nat k) priority'); [lia|reflexivity].
    + change ((c :: setCodecAt codecs (i + 1) priority' mime mid) !! S k)
        with (setCodecAt codecs (i + 1) priority' mime mid !! k).
      exact IH.
Qed.

Lemma setCodecAt_length (codecs : list SimulcastCodecInfo) (i priority' : Z)
    (mime mid : string) :
  length (setCodecAt codecs i priority' mime mid) = length codecs.
Proof.
  revert i; induction codecs as [|c codecs IH]; intros i; simpl; [reflexivity|].
  destruct (i =? priority'); simpl; [reflexivity|]. rewrite IH. reflexivity.
Qed.

(** X7. What publishing writes into the track info.  [SetupReceiver] on
    an Open receiver object never touches the top-level layers, the
    muted flag or the dimensions, and keeps the number of codecs.  With
    an empty mid the track info is unchanged.  With a non-empty mid the
    codec entry at index [priority] (if there is one) takes the
    receiver's mime type and the mid, keeping its cid and layers, every
    other codec entry is unchanged, and the top-level mime type and mid
    are overwritten exactly when the priority is 0. *)
Theorem SetupReceiver_trackInfo `{C : Collaborators} (t : MediaTrackReceiver)
    (receiver : WebRTCReceiver) (priority' : Z) (mid : string) :
  state t = mediaTrackReceiverStateOpen ->
  let ti := trackInfo t in
  let ti' := trackInfo (SetupReceiver t receiver priority' mid) in
  let mime := codec_MimeType (recv_Codec receiver) in
  ti_Layers ti' = ti_Layers ti /\
  ti_Muted ti' = ti_Muted ti /\
  ti_Width ti' = ti_Width ti /\ ti_Height ti' = ti_Height ti /\
  length (ti_Codecs ti') = length (ti_Codecs ti) /\
  (mid = EmptyString -> ti' = ti) /\
  (mid <> EmptyString ->
   (priority' = 0 -> ti_MimeType ti' = mime /\ ti_Mid ti' = mid) /\
   (priority' <> 0 -> ti_MimeType ti' = ti_MimeType ti /\ ti_Mid ti' = ti_Mid ti) /\
   (forall k ci, ti_Codecs ti !! k = Some ci ->
      ti_Codecs ti' !! k
      = Some (if Z.of_nat k =? priority' then set_ci_MimeType_Mid mime mid ci else ci))).
Proof.
  intros Ho ti ti' mime.
  assert (Hti : ti' = if String.eqb mid EmptyString then ti
                      else set_ti_Codecs
                             (setCodecAt
                                (ti_Codecs (if priority' =? 0
                                            then set_ti_MimeType_Mid mime mid ti else ti))
                                0 priority' mime mid)
                             (if priority' =? 0 then set_ti_MimeType_Mid mime mid ti else ti)).
  { subst ti' ti mime. unfold SetupReceiver. rewrite Ho. simpl.
    destruct (upgradeDummy (receivers t) receiver); simpl;
      destruct (onSetupReceiver t); reflexivity. }
  assert (Hcodecs : ti_Codecs (if priority' =? 0 then set_ti_MimeType_Mid mime mid ti else ti)
                    = ti_Codecs ti) by (destruct (priority' =? 0); reflexivity).
  rewrite Hcodecs in Hti.
  destruct (String.eqb_spec mid EmptyString) as [Hmid|Hmid].
  - rewrite Hti. do 5 (split; [reflexivity|]).
    split; [intros _; reflexivity|]. intros Hne. contradiction.
  - rewrite Hti.
    split; [destruct (priority' =? 0); reflexivity|].
    split; [destruct (priority' =? 0); reflexivity|].
    split; [destruct (priority' =? 0); reflexivity|].
    split; [destruct (priority' =? 0); reflexivity|].
    split; [simpl; apply setCodecAt_length|].
    split; [intros He; contradiction|].
    intros _. split; [|split].
    + intros ->. simpl. auto.
    + intros Hp. apply Z.eqb_neq in Hp. rewrite Hp. simpl. auto.
    + intros k ci Hk. simpl. rewrite (setCodecAt_lookup _ 0 priority' mime mid k ci Hk).
      reflexivity.
Qed.

Lemma SetupReceiver_trackInfo_witness :
  let ti' := trackInfo (SetupReceiver (C := refCollaborators) sampleSeeded
                          (mkReceiver 1 vp8_lower) 1 "m1") in
  ti_MimeType ti' = EmptyString /\
  map ci_MimeType (ti_Codecs ti') = ["video/VP8"; "video/vp8"]%string /\
  map ci_Mid (ti_Codecs ti') = [""; "m1"]%string /\
  ti_Layers ti' = sampleLayers.
Proof.
  pose proof (SetupReceiver_trackInfo (C := refCollaborators) sampleSeeded
                (mkReceiver 1 vp8_lower) 1 "m1" eq_refl) as H.
  cbv zeta in H. destruct H as (Hlayers & _ & _ & _ & _ & _ & Hmid).
  destruct (Hmid ltac:(discriminate)) as (_ & Htop & _).
  destruct (Htop ltac:(lia)) as [Hm _].
  cbv zeta. split; [rewrite Hm; reflexivity|].
  split; [reflexivity|]. split; [reflexivity|]. rewrite Hlayers. reflexivity.
Defined.

(** ** Seeding placeholders *)

Section SeedFacts.
Import GoStrings.
Context `{C : Collaborators}.

(** Every slot the loop of [SetPotentialCodecs] appends is a fresh Dummy
    for one of the codecs, with that codec's index as priority, and
    afterwards every codec has a slot of its mime type. *)
Lemma addPotentialCodecs_news (codecs : list RTPCodecParameters) (i : Z)
    (headers headersWithoutDD : list RTPHeaderExtensionParameter)
    (trackID streamId : string) (l : list simulcastReceiver) (next : nat) :
  exists news,
    addPotentialCodecs codecs i headers headersWithoutDD trackID streamId l next
    = (l ++ news, (next + length news)%nat) /\
    Forall (fun r => exists k c,
              codecs !! k = Some c /\ priority r = i + Z.of_nat k /\
              slot_TrackReceiver r
              = IsDummy (NewDummyReceiver trackID streamId c
                           (if IsSvcCodec (codec_MimeType c) then headers
                            else headersWithoutDD))) news /\
    (forall c, c ∈ codecs ->
       exists r, r ∈ l ++ news /\
                 EqualFold (codec_MimeType c) (codec_MimeType (Codec r)) = true).
Proof.
  revert i l next; induction codecs as [|c rest IH]; intros i l next.
  - exists []. simpl. rewrite app_nil_r, Nat.add_0_r.
    split; [reflexivity|]. split; [constructor|]. intros c Hc. inversion Hc.
  - simpl. destruct (existsb _ l) eqn:Hex.
    + destruct (IH (i + 1) l next) as (news & Heq & Hnews & Hcov).
      exists news. split; [exact Heq|]. split.
      * eapply Forall_impl; [exact Hnews|]. simpl.
        intros r (k & c' & Hk & Hp & Hr). exists (S k), c'.
        split; [exact Hk|]. split; [lia|exact Hr].
      * intros c' Hc'. apply elem_of_cons in Hc' as [->|Hc']; [|apply Hcov, Hc'].
        apply existsb_exists in Hex as (r & Hr & Hm).
        exists r. split; [apply elem_of_app; left; apply list_elem_of_In, Hr|exact Hm].
    + set (new := mkSlot next (IsDummy (NewDummyReceiver trackID streamId c
               (if negb (IsSvcCodec (codec_MimeType c)) then headersWithoutDD else headers))) i).
      destruct (IH (i + 1) (l ++ [new]) (S next)) as (news & Heq & Hnews & Hcov).
      exists (new :: news). rewrite Heq. simpl.
      split; [rewrite <- app_assoc; simpl; f_equal; lia|]. split.
      * constructor.
        -- exists 0%nat, c. split; [reflexivity|]. split; [simpl; lia|].
           subst new. simpl. destruct (IsSvcCodec (codec_MimeType c)); reflexivity.
        -- eapply Forall_impl; [exact Hnews|]. simpl.
           intros r (k & c' & Hk & Hp & Hr). exists (S k), c'.
           split; [exact Hk|]. split; [lia|exact Hr].
      * intros c' Hc'. rewrite <- app_assoc in Hcov. simpl in Hcov.
        apply elem_of_cons in Hc' as [->|Hc']; [|apply Hcov, Hc'].
        exists new. split; [apply elem_of_app; right; left|].
        subst new. apply EqualFold_refl.
Qed.

(** Codecs that all have a slot of their mime type add nothing. *)
Lemma addPotentialCodecs_present (codecs : list RTPCodecParameters) (i : Z)
    (headers headersWithoutDD : list RTPHeaderExtensionParameter)
    (trackID streamId : string) (l : list simulcastReceiver) (next : nat) :
  (forall c, c ∈ codecs ->
     exists r, r ∈ l /\ EqualFold (codec_MimeType c) (codec_MimeType (Codec r)) = true) ->
  addPotentialCodecs codecs i headers headersWithoutDD trackID streamId l next = (l, next).
Proof.
  revert i; induction codecs as [|c rest IH]; intros i Hall; [reflexivity|].
  simpl.
  assert (Hex : existsb (fun r => EqualFold (codec_MimeType c) (codec_MimeType (Codec r))) l
                = true).
  { destruct (Hall c ltac:(left)) as (r & Hr & Hm).
    apply existsb_exists. exists r. split; [apply list_elem_of_In, Hr|exact Hm]. }
  rewrite Hex. apply IH. intros c' Hc'. apply Hall. right. exact Hc'.
Qed.

End SeedFacts.

(** X8. [SetPotentialCodecs] stores the codecs verbatim and changes
    neither the state, the track info nor the trace.  Afterwards every
    codec of the argument has a slot of its mime type (up to case), and
    every slot of the list is a slot that was there before or a Dummy
    without delegate made for the codec at some index [k] of the
    argument, with priority [k], the track id and the publisher id, and
    the publisher's header extensions, from which the dependency
    descriptor is removed unless the codec is scalable. *)
Theorem SetPotentialCodecs_seeds `{S : SortSliceSpec} (t : MediaTrackReceiver)
    (codecs : list RTPCodecParameters) (headers : list RTPHeaderExtensionParameter) :
  let t' := SetPotentialCodecs t codecs headers in
  potentialCodecs t' = codecs /\
  state t' = state t /\ trackInfo t' = trackInfo t /\ calls t' = calls t /\
  (forall c, c ∈ codecs ->
     exists r, r ∈ receivers t' /\
               GoStrings.EqualFold (codec_MimeType c) (codec_MimeType (Codec r)) = true) /\
  (forall r, r ∈ receivers t' ->
     r ∈ receivers t \/
     exists k c, codecs !! k = Some c /\ priority r = Z.of_nat k /\
                 slot_TrackReceiver r = IsDummy (seededDummy t headers c) /\
                 slot_Receiver r = None /\
                 (IsSvcCodec (codec_MimeType c) = false ->
                  forall h, h ∈ dummy_headerExtensions (seededDummy t headers c) ->
                            ext_URI h <> ExtensionURI /\ h ∈ headers)).
Proof.
  intros t'. subst t'. unfold SetPotentialCodecs.
  destruct (addPotentialCodecs_news codecs 0 headers
              (List.filter (fun h => negb (String.eqb (ext_URI h) ExtensionURI)) headers)
              (ti_Sid (trackInfo t)) (ParticipantID (params t)) (receivers t) (nextAddr t))
    as (news & Heq & Hnews & Hcov).
  rewrite Heq. simpl.
  split; [reflexivity|]. split; [reflexivity|]. split; [reflexivity|].
  split; [reflexivity|]. split.
  - intros c Hc. destruct (Hcov c Hc) as (r & Hr & Hm).
    exists r. split; [rewrite sortSlice_Permutation; exact Hr|exact Hm].
  - intros r Hr. rewrite sortSlice_Permutation in Hr.
    apply elem_of_app in Hr as [Hr|Hr]; [left; exact Hr|right].
    rewrite Forall_forall in Hnews.
    destruct (Hnews r Hr) as (k & c & Hk & Hp & Hd).
    exists k, c. split; [exact Hk|]. split; [lia|].
    split; [exact Hd|]. split; [unfold slot_Receiver; rewrite Hd; reflexivity|].
    intros Hsvc h Hh. unfold seededDummy in Hh. rewrite Hsvc in Hh. simpl in Hh.
    apply list_elem_of_In, filter_In in Hh as [Hin Hne].
    split; [|apply list_elem_of_In, Hin].
    apply negb_true_iff in Hne. apply String.eqb_neq in Hne. exact Hne.
Qed.

Lemma SetPotentialCodecs_seeds_witness :
  let t' := SetPotentialCodecs (C := refCollaborators) sampleUpgraded [vp8_lower; av1]
              sampleHeaders in
  map (fun r => codec_MimeType (Codec r)) (receivers t')
  = ["video/VP8"; "video/H264"; "video/AV1"]%string /\
  map priority (receivers t') = [0; 1; 1] /\
  forall c, c ∈ [vp8_lower; av1] ->
    exists r, r ∈ receivers t' /\
              GoStrings.EqualFold (codec_MimeType c) (codec_MimeType (Codec r)) = true.
Proof.
  cbv zeta. split; [reflexivity|]. split; [reflexivity|].
  apply (SetPotentialCodecs_seeds (S := refCollaborators_SortSliceSpec)
           sampleUpgraded [vp8_lower; av1] sampleHeaders).
Defined.

(** X9. [SetPotentialCodecs] adds no slot for codecs whose mime types
    (up to case) all have a slot already: the slot list is a
    rearrangement of the old one and no address is allocated.  In
    particular a second call with the same codecs, whatever the header
    extensions, adds nothing. *)
Theorem SetPotentialCodecs_repeat `{S : SortSliceSpec} (t : MediaTrackReceiver)
    (codecs : list RTPCodecParameters) (headers headers' : list RTPHeaderExtensionParameter) :
  ((forall c, c ∈ codecs ->
      exists r, r ∈ receivers t /\
                GoStrings.EqualFold (codec_MimeType c) (codec_MimeType (Codec r)) = true) ->
   receivers (SetPotentialCodecs t codecs headers) ≡ₚ receivers t /\
   nextAddr (SetPotentialCodecs t codecs headers) = nextAddr t) /\
  receivers (SetPotentialCodecs (SetPotentialCodecs t codecs headers) codecs headers')
  ≡ₚ receivers (SetPotentialCodecs t codecs headers) /\
  nextAddr (SetPotentialCodecs (SetPotentialCodecs t codecs headers) codecs headers')
  = nextAddr (SetPotentialCodecs t codecs headers).
Proof.
  assert (Hpresent : forall t0 hs,
            (forall c, c ∈ codecs ->
               exists r, r ∈ receivers t0 /\
                 GoStrings.EqualFold (codec_MimeType c) (codec_MimeType (Codec r)) = true) ->
            receivers (SetPotentialCodecs t0 codecs hs) ≡ₚ receivers t0 /\
            nextAddr (SetPotentialCodecs t0 codecs hs) = nextAddr t0).
  { intros t0 hs Hall. unfold SetPotentialCodecs.
    rewrite (addPotentialCodecs_present codecs 0 _ _ _ _ _ _ Hall). simpl.
    split; [apply sortSlice_Permutation|reflexivity]. }
  split; [apply Hpresent|].
  apply Hpresent.
  intros c Hc.
  unfold SetPotentialCodecs.
  destruct (addPotentialCodecs_news codecs 0 headers
              (List.filter (fun h => negb (String.eqb (ext_URI h) ExtensionURI)) headers)
              (ti_Sid (trackInfo t)) (ParticipantID (params t)) (receivers t) (nextAddr t))
    as (news & Heq & _ & Hcov).
  rewrite Heq. simpl.
  destruct (Hcov c Hc) as (r & Hr & Hm).
  exists r. split; [rewrite sortSlice_Permutation; exact Hr|exact Hm].
Qed.

Lemma SetPotentialCodecs_repeat_witness :
  receivers (SetPotentialCodecs (C := refCollaborators) sampleUpgraded [vp8_lower; h264] [])
  ≡ₚ receivers sampleUpgraded /\
  nextAddr (SetPotentialCodecs (C := refCollaborators) sampleUpgraded [vp8_lower; h264] [])
  = nextAddr sampleUpgraded.
Proof.
  apply (proj1 (SetPotentialCodecs_repeat (S := refCollaborators_SortSliceSpec)
                  sampleUpgraded [vp8_lower; h264] [] [])).
  assert (Hall : Forall (fun c => exists r, r ∈ receivers sampleUpgraded /\
                     GoStrings.EqualFold (codec_MimeType c) (codec_MimeType (Codec r)) = true)
                   [vp8_lower; h264]).
  { constructor; [|constructor; [|constructor]].
    - eexists. split; [left|reflexivity].
    - eexists. split; [right; left|reflexivity]. }
  rewrite Forall_forall in Hall. exact Hall.
Defined.

(** ** Track info updates *)

Section TrackInfoFacts.
Import GoStrings.

Lemma setCodecCid_frame (origins : list SimulcastCodecInfo) (codec cid : string) :
  map ci_MimeType (setCodecCid origins codec cid) = map ci_MimeType origins /\
  map ci_Mid (setCodecCid origins codec cid) = map ci_Mid origins /\
  map ci_Layers (setCodecCid origins codec cid) = map ci_Layers origins.
Proof.
  induction origins as [|o rest (IH1 & IH2 & IH3)]; simpl; [auto|].
  destruct (GoStringsContains.Contains (ci_MimeType o) codec); simpl; [auto|].
  rewrite IH1, IH2, IH3. auto.
Qed.

Lemma setCodecCid_all_frame (codecs : list SimulcastCodec) (origins : list SimulcastCodecInfo) :
  let origins' :=
    fold_left (fun origins c => setCodecCid origins (sc_Codec c) (sc_Cid c)) codecs origins in
  map ci_MimeType origins' = map ci_MimeType origins /\
  map ci_Mid origins' = map ci_Mid origins /\
  map ci_Layers origins' = map ci_Layers origins.
Proof.
  revert origins; induction codecs as [|c codecs IH]; intros origins; simpl; [auto|].
  destruct (IH (setCodecCid origins (sc_Codec c) (sc_Cid c))) as (H1 & H2 & H3).
  destruct (setCodecCid_frame origins (sc_Codec c) (sc_Cid c)) as (F1 & F2 & F3).
  simpl in *. rewrite H1, H2, H3. auto.
Qed.




End TrackInfoFacts.



Section SetLayerSsrcFacts.
Import GoStrings.

Lemma setLayerSsrc_writes (layers : list VideoLayer) (quality : VideoQuality) (ssrc : Z)
    (l : VideoLayer) :
  List.find (fun l => vl_Quality l =? quality) layers = Some l -> vl_Ssrc l = 0 ->
  List.find (fun l => vl_Quality l =? quality) (setLayerSsrc layers quality ssrc)
  = Some (set_vl_Ssrc ssrc l).
Proof.
  induction layers as [|l0 layers IH]; intros Hf Hz; [discriminate|].
  simpl in *. destruct (vl_Quality l0 =? quality) eqn:Hq.
  - injection Hf as ->. rewrite Hz. simpl. rewrite Hq. reflexivity.
  - simpl. rewrite Hq. apply IH; assumption.
Qed.

Lemma setLayerSsrc_other (layers : list VideoLayer) (q quality : VideoQuality) (ssrc : Z) :
  q <> quality ->
  List.find (fun l => vl_Quality l =? q) (setLayerSsrc layers quality ssrc)
  = List.find (fun l => vl_Quality l =? q) layers.
Proof.
  intros Hne. induction layers as [|l0 layers IH]; [reflexivity|].
  simpl. destruct (Z.eqb_spec (vl_Quality l0) quality) as [Hq|Hq].
  - assert (Hq' : (vl_Quality l0 =? q) = false) by (apply Z.eqb_neq; congruence).
    destruct (negb (vl_Ssrc l0 =? 0)); simpl; rewrite Hq'; reflexivity.
  - simpl. rewrite IH. reflexivity.
Qed.

Lemma setLayerSsrc_absent (layers : list VideoLayer) (quality : VideoQuality) (ssrc : Z) :
  List.find (fun l => vl_Quality l =? quality) layers = None ->
  setLayerSsrc layers quality ssrc = layers.
Proof.
  induction layers as [|l0 layers IH]; intros Hf; [reflexivity|].
  simpl in *. destruct (vl_Quality l0 =? quality); [discriminate|].
  rewrite IH by exact Hf. reflexivity.
Qed.

Lemma setLayerSsrcCodecs_writes (codecs : list SimulcastCodecInfo) (i : Z)
    (mime : string) (quality : VideoQuality) (ssrc : Z) (tiLayers : list VideoLayer) :
  lookupSsrcIn codecs mime quality = Some 0 ->
  lookupSsrcIn (fst (setLayerSsrcCodecs codecs i mime quality ssrc tiLayers)) mime quality
  = Some ssrc.
Proof.
  revert i; induction codecs as [|ci codecs IH]; intros i Hl; [discriminate|].
  simpl. unfold lookupSsrcIn in Hl. cbn [List.find] in Hl.
  destruct (EqualFold (ci_MimeType ci) mime) eqn:Hm; simpl.
  - unfold lookupSsrcIn. cbn [List.find]. simpl. rewrite Hm.
    destruct (List.find _ (ci_Layers ci)) as [l|] eqn:Hf; [|discriminate].
    injection Hl as Hz. simpl.
    rewrite (setLayerSsrc_writes _ _ _ _ Hf Hz). reflexivity.
  - destruct (setLayerSsrcCodecs codecs (i + 1) mime quality ssrc tiLayers)
      as [rest' tiLayers'] eqn:Hrec.
    specialize (IH (i + 1) Hl). rewrite Hrec in IH.
    unfold lookupSsrcIn in *. cbn [List.find fst]. rewrite Hm. exact IH.
Qed.

Lemma setLayerSsrcCodecs_absent (codecs : list SimulcastCodecInfo) (i : Z)
    (mime : string) (quality : VideoQuality) (ssrc : Z) (tiLayers : list VideoLayer) :
  lookupSsrcIn codecs mime quality = None ->
  fst (setLayerSsrcCodecs codecs i mime quality ssrc tiLayers) = codecs.
Proof.
  revert i; induction codecs as [|ci codecs IH]; intros i Hl; [reflexivity|].
  simpl. unfold lookupSsrcIn in Hl. cbn [List.find] in Hl.
  destruct (EqualFold (ci_MimeType ci) mime) eqn:Hm; simpl.
  - destruct (List.find _ (ci_Layers ci)) as [l|] eqn:Hf; [discriminate|].
    rewrite (setLayerSsrc_absent _ _ _ Hf). destruct ci; reflexivity.
  - destruct (setLayerSsrcCodecs codecs (i + 1) mime quality ssrc tiLayers)
      as [rest' tiLayers'] eqn:Hrec.
    specialize (IH (i + 1) Hl). rewrite Hrec in IH. simpl in *. rewrite IH. reflexivity.
Qed.

Lemma setLayerSsrcCodecs_other (codecs : list SimulcastCodecInfo) (i : Z)
    (mime : string) (quality : VideoQuality) (ssrc : Z) (tiLayers : list VideoLayer)
    (mime' : string) (quality' : VideoQuality) :
  EqualFold mime' mime = false \/ quality' <> quality ->
  lookupSsrcIn (fst (setLayerSsrcCodecs codecs i mime quality ssrc tiLayers)) mime' quality'
  = lookupSsrcIn codecs mime' quality'.
Proof.
  intros Hother.
  revert i; induction codecs as [|ci codecs IH]; intros i; [reflexivity|].
  simpl. destruct (EqualFold (ci_MimeType ci) mime) eqn:Hm; simpl.
  - unfold lookupSsrcIn. cbn [List.find]. simpl.
    destruct (EqualFold (ci_MimeType ci) mime') eqn:Hm'; [|reflexivity].
    destruct Hother as [Hmime|Hq].
    + rewrite EqualFold_sym in Hm'.
      rewrite (EqualFold_trans _ _ _ Hm' Hm) in Hmime. discriminate.
    + simpl. rewrite (setLayerSsrc_other _ _ _ _ Hq). reflexivity.
  - destruct (setLayerSsrcCodecs codecs (i + 1) mime quality ssrc tiLayers)
      as [rest' tiLayers'] eqn:Hrec.
    specialize (IH (i + 1)). rewrite Hrec in IH.
    unfold lookupSsrcIn in *. cbn [List.find fst].
    destruct (EqualFold (ci_MimeType ci) mime'); [reflexivity|exact IH].
Qed.

End SetLayerSsrcFacts.

(** X11. [SetLayerSsrc] fills in an ssrc that is not set yet: when the
    layer the code finds for the mime type and the quality of the rid
    has ssrc 0, it has the given ssrc afterwards.  Every other pair of
    mime type (different up to case) or quality reads as before, and
    when there is no such codec or layer the codec list is unchanged.
    Mime types of the codecs, slot list and state are never changed. *)
Theorem SetLayerSsrc_fills_unset `{C : Collaborators} (t : MediaTrackReceiver)
    (mime rid : string) (ssrc : Z) :
  let ti := trackInfo t in
  let quality := ridQuality rid ti in
  let ti' := trackInfo (SetLayerSsrc t mime rid ssrc) in
  (lookupSsrc ti mime quality = Some 0 -> lookupSsrc ti' mime quality = Some ssrc) /\
  (lookupSsrc ti mime quality = None -> ti_Codecs ti' = ti_Codecs ti) /\
  (forall mime' quality',
     GoStrings.EqualFold mime' mime = false \/ quality' <> quality ->
     lookupSsrc ti' mime' quality' = lookupSsrc ti mime' quality') /\
  receivers (SetLayerSsrc t mime rid ssrc) = receivers t /\
  state (SetLayerSsrc t mime rid ssrc) = state t.
Proof.
  intros ti quality ti'.
  assert (Hc : ti_Codecs ti'
               = fst (setLayerSsrcCodecs (ti_Codecs ti) 0 mime quality ssrc (ti_Layers ti))).
  { subst ti' quality ti. unfold SetLayerSsrc, ridQuality.
    destruct (setLayerSsrcCodecs _ _ _ _ _ _) as [codecs tiLayers]. reflexivity. }
  unfold lookupSsrc. rewrite Hc.
  split; [apply setLayerSsrcCodecs_writes|].
  split; [apply setLayerSsrcCodecs_absent|].
  split; [intros mime' quality'; apply setLayerSsrcCodecs_other|].
  unfold SetLayerSsrc. destruct (setLayerSsrcCodecs _ _ _ _ _ _) as [codecs tiLayers].
  split; reflexivity.
Qed.

Lemma SetLayerSsrc_fills_unset_witness :
  lookupSsrc (trackInfo sampleWithSsrc) "VIDEO/vp8" VideoQuality_MEDIUM = Some 0 /\
  lookupSsrc (trackInfo (SetLayerSsrc (C := refCollaborators) sampleWithSsrc "VIDEO/vp8" "h" 2222))
    "VIDEO/vp8" VideoQuality_MEDIUM = Some 2222 /\
  lookupSsrc (trackInfo (SetLayerSsrc (C := refCollaborators) sampleWithSsrc "VIDEO/vp8" "h" 2222))
    "video/H264" VideoQuality_MEDIUM = Some 0.
Proof.
  pose proof (SetLayerSsrc_fills_unset (C := refCollaborators) sampleWithSsrc
                "VIDEO/vp8" "h" 2222) as H.
  cbv zeta in H. destruct H as (Hfill & _ & Hother & _).
  split; [reflexivity|]. split.
  - apply Hfill. reflexivity.
  - rewrite Hother; [reflexivity|]. left. reflexivity.
Defined.

Section UpdateFacts.
Import GoStrings.

(** No ssrc is known for a quality among the layers: there is no layer
    of that quality, or the first one has ssrc 0. *)
Lemma patchLayer_unset (originLayers : list VideoLayer) (layer : VideoLayer) :
  match List.find (fun l => vl_Quality l =? vl_Quality layer) originLayers with
  | Some l0 => vl_Ssrc l0 = 0
  | None => True
  end ->
  patchLayer originLayers layer = layer.
Proof.
  intros Hu. unfold patchLayer.
  rewrite (find_ext_eq _ (fun l => vl_Quality l =? vl_Quality layer))
    by (intros; apply Z.eqb_sym).
  destruct (List.find _ originLayers) as [l0|]; [|reflexivity].
  rewrite Hu. reflexivity.
Qed.

Lemma patched_layers_find_unset (originLayers layers : list VideoLayer)
    (quality : VideoQuality) :
  match List.find (fun l => vl_Quality l =? quality) originLayers with
  | Some l0 => vl_Ssrc l0 = 0
  | None => True
  end ->
  List.find (fun l => vl_Quality l =? quality) (map (patchLayer originLayers) layers)
  = List.find (fun l => vl_Quality l =? quality) layers.
Proof.
  intros Hu. rewrite find_map_comp.
  rewrite (find_ext_eq _ (fun l => vl_Quality l =? quality))
    by (intros; rewrite patchLayer_Quality; reflexivity).
  destruct (List.find _ layers) as [l|] eqn:Hl; simpl; [|reflexivity].
  apply find_Some_holds in Hl. apply Z.eqb_eq in Hl.
  rewrite patchLayer_unset; [reflexivity|]. rewrite Hl. exact Hu.
Qed.

Lemma lookupSsrcIn_unset (codecs : list SimulcastCodecInfo) (mime : string)
    (quality : VideoQuality) :
  lookupSsrcIn codecs mime quality = None \/ lookupSsrcIn codecs mime quality = Some 0 ->
  match List.find (fun ci => EqualFold (ci_MimeType ci) mime) codecs with
  | Some o =>
      match List.find (fun l => vl_Quality l =? quality) (ci_Layers o) with
      | Some l0 => vl_Ssrc l0 = 0
      | None => True
      end
  | None => True
  end.
Proof.
  unfold lookupSsrcIn.
  destruct (List.find _ codecs) as [o|]; [|auto].
  destruct (List.find _ (ci_Layers o)) as [l0|]; [|auto].
  intros [H|H]; [discriminate|]. injection H as H. exact H.
Qed.

Lemma patchCodec_lookup_unset (originCodecs newCodecs : list SimulcastCodecInfo)
    (mime : string) (quality : VideoQuality) :
  lookupSsrcIn originCodecs mime quality = None \/
  lookupSsrcIn originCodecs mime quality = Some 0 ->
  lookupSsrcIn (map (patchCodec originCodecs) newCodecs) mime quality
  = lookupSsrcIn newCodecs mime quality.
Proof.
  intros Hu. apply lookupSsrcIn_unset in Hu. unfold lookupSsrcIn.
  rewrite find_map_comp.
  rewrite (find_ext_eq _ (fun ci => EqualFold (ci_MimeType ci) mime))
    by (intros; rewrite patchCodec_MimeType; reflexivity).
  destruct (List.find _ newCodecs) as [ci|] eqn:Hci; simpl; [|reflexivity].
  apply find_Some_holds in Hci.
  unfold patchCodec.
  rewrite (find_ext_eq _ (fun o => EqualFold (ci_MimeType o) mime)).
  2:{ intros x. rewrite (EqualFold_congr_l _ _ _ Hci). apply EqualFold_sym. }
  destruct (List.find _ originCodecs) as [o|]; [|reflexivity].
  simpl.
  replace (ci_Layers (if negb (ci_Mid o =? EmptyString)%string
                      then set_ci_Mid (ci_Mid o) ci else ci))
    with (ci_Layers ci) by (destruct (negb _); reflexivity).
  rewrite (patched_layers_find_unset _ _ _ Hu). reflexivity.
Qed.

Lemma updateVideoLayers_lookup_unset (codecs : list SimulcastCodecInfo)
    (layers : list VideoLayer) (mime : string) (quality : VideoQuality) :
  lookupSsrcIn codecs mime quality = None \/ lookupSsrcIn codecs mime quality = Some 0 ->
  lookupSsrcIn
    (map (fun ci => set_ci_Layers (map (patchLayer (ci_Layers ci)) layers) ci) codecs)
    mime quality
  = match List.find (fun ci => EqualFold (ci_MimeType ci) mime) codecs with
    | Some _ => option_map vl_Ssrc (List.find (fun l => vl_Quality l =? quality) layers)
    | None => None
    end.
Proof.
  intros Hu. apply lookupSsrcIn_unset in Hu. unfold lookupSsrcIn.
  rewrite find_map_comp. simpl.
  destruct (List.find _ codecs) as [o|]; [|reflexivity].
  simpl. rewrite (patched_layers_find_unset _ _ _ Hu).
  destruct (List.find _ layers); reflexivity.
Qed.

End UpdateFacts.

(** X12. Where no ssrc is known for a mime type and a quality (no codec
    of that mime type, no layer of that quality, or ssrc 0), an update
    brings its own: after [UpdateTrackInfo] the pair reads as in the new
    track info, and after [UpdateVideoLayers] it reads as the first new
    layer of that quality when the track has a codec of that mime type,
    and stays absent when it has none. *)
Theorem update_takes_new_ssrc (t : MediaTrackReceiver) (mime : string)
    (quality : VideoQuality) :
  lookupSsrc (trackInfo t) mime quality = None \/
  lookupSsrc (trackInfo t) mime quality = Some 0 ->
  (forall ti,
     lookupSsrc (trackInfo (UpdateTrackInfo t ti)) mime quality = lookupSsrc ti mime quality) /\
  (forall layers,
     lookupSsrc (trackInfo (UpdateVideoLayers t layers)) mime quality
     = match List.find (fun ci => GoStrings.EqualFold (ci_MimeType ci) mime)
               (ti_Codecs (trackInfo t)) with
       | Some _ => option_map vl_Ssrc (List.find (fun l => vl_Quality l =? quality) layers)
       | None => None
       end).
Proof.
  intros Hu. rewrite !lookupSsrc_codecs in Hu. split.
  - intros ti. rewrite !lookupSsrc_codecs, ti_Codecs_UpdateTrackInfo.
    apply patchCodec_lookup_unset; exact Hu.
  - intros layers. rewrite lookupSsrc_codecs, ti_Codecs_UpdateVideoLayers.
    apply updateVideoLayers_lookup_unset; exact Hu.
Qed.

Lemma update_takes_new_ssrc_witness :
  lookupSsrc (trackInfo sampleWithSsrc) "video/vp8" VideoQuality_MEDIUM = Some 0 /\
  lookupSsrc (trackInfo (UpdateTrackInfo sampleWithSsrc sampleNewInfo))
    "video/vp8" VideoQuality_MEDIUM = Some 4444 /\
  lookupSsrc (trackInfo (UpdateVideoLayers sampleWithSsrc sampleNewLayers))
    "video/vp8" VideoQuality_MEDIUM = Some 4444.
Proof.
  assert (Hu : lookupSsrc (trackInfo sampleWithSsrc) "video/vp8" VideoQuality_MEDIUM = None \/
               lookupSsrc (trackInfo sampleWithSsrc) "video/vp8" VideoQuality_MEDIUM = Some 0)
    by (right; reflexivity).
  destruct (update_takes_new_ssrc sampleWithSsrc "video/vp8" VideoQuality_MEDIUM Hu)
    as (Hinfo & Hlayers).
  split; [reflexivity|]. split.
  - rewrite Hinfo. reflexivity.
  - rewrite Hlayers. reflexivity.
Defined.

Lemma set_ti_Muted_same (ti : TrackInfo) : set_ti_Muted (ti_Muted ti) ti = ti.
Proof. destruct ti; reflexivity. Qed.

Lemma ti_Muted_mirrorPrimaryLayers (ti : TrackInfo) :
  ti_Muted (mirrorPrimaryLayers ti) = ti_Muted ti.
Proof. unfold mirrorPrimaryLayers. destruct (ti_Codecs ti); reflexivity. Qed.

Lemma layersMirrored_mirrorPrimaryLayers (ti : TrackInfo) :
  layersMirrored (mirrorPrimaryLayers ti).
Proof.
  unfold layersMirrored, mirrorPrimaryLayers.
  destruct (ti_Codecs ti) as [|c cs] eqn:E; simpl; rewrite E; reflexivity.
Qed.

Lemma trackInfo_UpdateTrackInfo (t : MediaTrackReceiver) (ti : TrackInfo) :
  trackInfo (UpdateTrackInfo t ti)
  = mirrorPrimaryLayers
      (set_ti_Codecs (map (patchCodec (ti_Codecs (trackInfo t))) (ti_Codecs ti)) ti).
Proof.
  unfold UpdateTrackInfo. simpl.
  destruct (negb _); simpl; [apply set_ti_Muted_same|reflexivity].
Qed.

(** X13. [UpdateTrackInfo] stores the update with three amendments and
    tells everyone.  All fields but the codecs and the top-level layers
    are those of the update.  Every codec entry keeps the update's mime
    type and cid.  When a stored codec has the same mime type (up to
    case), the first such codec amends the entry: its mid, when not
    empty, replaces the update's, and every layer of the entry keeps the
    update's quality, width and height but takes the ssrc of the first
    stored layer of the same quality when that ssrc is not 0; without
    such a stored codec the entry is the update's.  The top-level layers
    are those of the first codec entry as amended, and the update's own
    when it has no codec.  Slots and state are unchanged.  The trace
    grows by the mute fan-out (every slot, then the subscriptions), only
    when the muted flag differs from the stored one, followed by one
    [UpdateTrackInfo] per slot, in slot order, carrying exactly the track
    info that is stored. *)
Theorem UpdateTrackInfo_merges_and_notifies (t : MediaTrackReceiver) (ti : TrackInfo) :
  let t' := UpdateTrackInfo t ti in
  set_ti_Layers (ti_Layers ti) (set_ti_Codecs (ti_Codecs ti) (trackInfo t')) = ti /\
  length (ti_Codecs (trackInfo t')) = length (ti_Codecs ti) /\
  (forall k ci,
     ti_Codecs ti !! k = Some ci ->
     exists ci',
       ti_Codecs (trackInfo t') !! k = Some ci' /\
       ci_MimeType ci' = ci_MimeType ci /\ ci_Cid ci' = ci_Cid ci /\
       match List.find (fun o => GoStrings.EqualFold (ci_MimeType ci) (ci_MimeType o))
               (ti_Codecs (trackInfo t)) with
       | Some o =>
           ci_Mid ci' = (if String.eqb (ci_Mid o) EmptyString then ci_Mid ci else ci_Mid o) /\
           length (ci_Layers ci') = length (ci_Layers ci) /\
           forall j l,
             ci_Layers ci !! j = Some l ->
             ci_Layers ci' !! j
             = Some (match List.find (fun l0 => vl_Quality l =? vl_Quality l0)
                             (ci_Layers o) with
                     | Some l0 =>
                         if vl_Ssrc l0 =? 0 then l
                         else mkVideoLayer (vl_Quality l) (vl_Width l) (vl_Height l)
                                (vl_Ssrc l0)
                     | None => l
                     end)
       | None => ci' = ci
       end) /\
  match ti_Codecs (trackInfo t') with
  | ci' :: _ => ti_Layers (trackInfo t') = ci_Layers ci'
  | [] => ti_Layers (trackInfo t') = ti_Layers ti
  end /\
  receivers t' = receivers t /\ state t' = state t /\
  calls t'
  = calls t
    ++ (if Bool.eqb (ti_Muted (trackInfo t)) (ti_Muted ti) then []
        else map (fun r => Call_SetUpTrackPaused (slot_addr r) (ti_Muted ti)) (receivers t)
             ++ [Call_Subscriptions_SetMuted (ti_Muted ti)])
    ++ map (fun r => Call_UpdateTrackInfo (slot_addr r) (trackInfo t')) (receivers t).
Proof.
  intros t'. subst t'. rewrite trackInfo_UpdateTrackInfo.
  split; [|split; [|split; [|split; [|split; [|split]]]]].
  - generalize (map (patchCodec (ti_Codecs (trackInfo t))) (ti_Codecs ti)). intros cs.
    unfold mirrorPrimaryLayers. destruct ti, cs; reflexivity.
  - rewrite ti_Codecs_mirrorPrimaryLayers. simpl. apply length_map.
  - intros k ci Hk. rewrite ti_Codecs_mirrorPrimaryLayers. simpl.
    exists (patchCodec (ti_Codecs (trackInfo t)) ci).
    split; [rewrite list_lookup_fmap, Hk; reflexivity|].
    unfold patchCodec.
    destruct (List.find _ (ti_Codecs (trackInfo t))) as [o|]; [|auto].
    assert (Hl : ci_Layers (if negb (String.eqb (ci_Mid o) EmptyString)
                            then set_ci_Mid (ci_Mid o) ci else ci) = ci_Layers ci)
      by (destruct (negb _); reflexivity).
    split; [destruct (String.eqb (ci_Mid o) EmptyString); reflexivity|].
    split; [destruct (String.eqb (ci_Mid o) EmptyString); reflexivity|].
    split; [destruct (String.eqb (ci_Mid o) EmptyString); reflexivity|].
    split; [simpl; rewrite Hl; apply length_map|].
    intros j l Hj. simpl. rewrite Hl, list_lookup_fmap, Hj. simpl. f_equal.
    unfold patchLayer.
    destruct (List.find _ (ci_Layers o)) as [l0|]; [|reflexivity].
    destruct (vl_Ssrc l0 =? 0); reflexivity.
  - generalize (map (patchCodec (ti_Codecs (trackInfo t))) (ti_Codecs ti)). intros cs.
    unfold mirrorPrimaryLayers. destruct cs; reflexivity.
  - unfold UpdateTrackInfo. simpl. destruct (negb _); reflexivity.
  - unfold UpdateTrackInfo. simpl. destruct (negb _); reflexivity.
  - unfold UpdateTrackInfo. simpl.
    rewrite ti_Muted_mirrorPrimaryLayers. simpl.
    destruct (Bool.eqb (ti_Muted (trackInfo t)) (ti_Muted ti)); simpl.
    + reflexivity.
    + replace (set_ti_Muted (ti_Muted ti)
                 (mirrorPrimaryLayers
                    (set_ti_Codecs (map (patchCodec (ti_Codecs (trackInfo t))) (ti_Codecs ti))
                       ti)))
        with (mirrorPrimaryLayers
                (set_ti_Codecs (map (patchCodec (ti_Codecs (trackInfo t))) (ti_Codecs ti)) ti)).
      * rewrite <- !app_assoc. reflexivity.
      * generalize (map (patchCodec (ti_Codecs (trackInfo t))) (ti_Codecs ti)). intros cs.
        unfold mirrorPrimaryLayers. destruct ti, cs; reflexivity.
Qed.

Lemma UpdateTrackInfo_merges_and_notifies_witness :
  exists ci',
    ti_Codecs (trackInfo (UpdateTrackInfo sampleWithSsrc sampleNewInfo)) !! 0%nat = Some ci' /\
    ci_Mid ci' = "1"%string /\
    ci_Layers ci' !! 0%nat = Some (mkVideoLayer VideoQuality_LOW 320 180 1111) /\
    ci_Layers ci' !! 1%nat = Some (mkVideoLayer VideoQuality_MEDIUM 640 360 4444) /\
    length (ci_Layers ci') = 2%nat.
Proof.
  pose proof (UpdateTrackInfo_merges_and_notifies sampleWithSsrc sampleNewInfo) as H.
  cbv zeta in H. destruct H as (_ & _ & Hcodecs & _).
  destruct (Hcodecs 0%nat (mkSimulcastCodecInfo "VIDEO/VP8" "1" "" sampleNewLayers) eq_refl)
    as (ci' & Hk & _ & _ & Hm).
  change (List.find _ (ti_Codecs (trackInfo sampleWithSsrc)))
    with (Some (mkSimulcastCodecInfo "video/VP8" "" ""
                  [mkVideoLayer VideoQuality_LOW 320 180 1111;
                   mkVideoLayer VideoQuality_MEDIUM 640 360 0;
                   mkVideoLayer VideoQuality_HIGH 1280 720 0])) in Hm.
  destruct Hm as (Hmid & Hlen & Hlayers).
  exists ci'. split; [exact Hk|]. split; [exact Hmid|].
  split; [exact (Hlayers 0%nat _ eq_refl)|].
  split; [exact (Hlayers 1%nat _ eq_refl)|exact Hlen].
Defined.

(** ** Runs of all operations *)

Section RunFacts.
Context `{C : Collaborators}.

(** The operations that do not write the track info. *)
Lemma trackInfo_SetPotentialCodecs (t : MediaTrackReceiver) (codecs : list RTPCodecParameters)
    (headers : list RTPHeaderExtensionParameter) :
  trackInfo (SetPotentialCodecs t codecs headers) = trackInfo t.
Proof.
  unfold SetPotentialCodecs. destruct (addPotentialCodecs _ _ _ _ _ _ _ _); reflexivity.
Qed.

Lemma trackInfo_Close (t : MediaTrackReceiver) : trackInfo (Close t) = trackInfo t.
Proof.
  destruct (state_eqb (state t) mediaTrackReceiverStateClosed) eqn:Hs.
  - apply state_eqb_eq in Hs. rewrite Close_closed; auto.
  - apply state_eqb_neq in Hs. rewrite Close_open by assumption. reflexivity.
Qed.

Lemma trackInfo_TryClose (t : MediaTrackReceiver) : trackInfo (snd (TryClose t)) = trackInfo t.
Proof.
  unfold TryClose. destruct (state_eqb _ _); [reflexivity|].
  destruct (existsb _ _); [reflexivity|]. apply trackInfo_Close.
Qed.

Lemma trackInfo_AddSubscriber (t : MediaTrackReceiver) (sub : LocalParticipant) :
  trackInfo (snd (AddSubscriber t sub)) = trackInfo t.
Proof.
  unfold AddSubscriber. destruct (negb _); [reflexivity|].
  destruct (length (receivers t) =? 0)%nat; reflexivity.
Qed.

Lemma setCodecAt_layers (codecs : list SimulcastCodecInfo) (i priority' : Z)
    (mime mid : string) :
  map ci_Layers (setCodecAt codecs i priority' mime mid) = map ci_Layers codecs.
Proof.
  revert i; induction codecs as [|ci codecs IH]; intros i; simpl; [reflexivity|].
  destruct (i =? priority'); simpl; [reflexivity|]. rewrite IH. reflexivity.
Qed.

Lemma layersMirrored_ext (ti ti' : TrackInfo) :
  ti_Layers ti' = ti_Layers ti ->
  map ci_Layers (ti_Codecs ti') = map ci_Layers (ti_Codecs ti) ->
  layersMirrored ti -> layersMirrored ti'.
Proof.
  unfold layersMirrored. intros Hl Hc.
  destruct (ti_Codecs ti) as [|c cs], (ti_Codecs ti') as [|c' cs']; try discriminate; auto.
  simpl in Hc. injection Hc as Hc _. congruence.
Qed.

Lemma layersMirrored_SetupReceiver (t : MediaTrackReceiver) (receiver : WebRTCReceiver)
    (priority' : Z) (mid : string) :
  layersMirrored (trackInfo t) ->
  layersMirrored (trackInfo (SetupReceiver t receiver priority' mid)).
Proof.
  intros Hm. unfold SetupReceiver.
  destruct (negb _); [exact Hm|].
  assert (Hgoal : layersMirrored
                    (if String.eqb mid EmptyString then trackInfo t
                     else set_ti_Codecs
                            (setCodecAt
                               (ti_Codecs (if priority' =? 0
                                           then set_ti_MimeType_Mid
                                                  (codec_MimeType (recv_Codec receiver)) mid
                                                  (trackInfo t)
                                           else trackInfo t))
                               0 priority' (codec_MimeType (recv_Codec receiver)) mid)
                            (if priority' =? 0
                             then set_ti_MimeType_Mid
                                    (codec_MimeType (recv_Codec receiver)) mid (trackInfo t)
                             else trackInfo t))).
  { destruct (String.eqb mid EmptyString); [exact Hm|].
    apply (layersMirrored_ext (trackInfo t)); [| |exact Hm].
    - destruct (priority' =? 0); reflexivity.
    - simpl. rewrite setCodecAt_layers. destruct (priority' =? 0); reflexivity. }
  destruct (upgradeDummy (receivers t) receiver); simpl;
    destruct (onSetupReceiver t); exact Hgoal.
Qed.

Lemma setLayerSsrcCodecs_later (codecs : list SimulcastCodecInfo) (i : Z)
    (mime : string) (quality : VideoQuality) (ssrc : Z) (tiLayers : list VideoLayer) :
  0 < i -> snd (setLayerSsrcCodecs codecs i mime quality ssrc tiLayers) = tiLayers.
Proof.
  revert i; induction codecs as [|ci codecs IH]; intros i Hi; simpl; [reflexivity|].
  destruct (negb _).
  - specialize (IH (i + 1) ltac:(lia)).
    destruct (setLayerSsrcCodecs codecs (i + 1) mime quality ssrc tiLayers). exact IH.
  - simpl. destruct (Z.eqb_spec i 0); [lia|reflexivity].
Qed.

Lemma layersMirrored_SetLayerSsrc (t : MediaTrackReceiver) (mime rid : string) (ssrc : Z) :
  layersMirrored (trackInfo t) \/
  match ti_Codecs (trackInfo t) with
  | ci :: _ => GoStrings.EqualFold (ci_MimeType ci) mime = true
  | [] => True
  end ->
  layersMirrored (trackInfo (SetLayerSsrc t mime rid ssrc)).
Proof.
  unfold SetLayerSsrc, layersMirrored. intros Hm.
  destruct (ti_Codecs (trackInfo t)) as [|ci rest] eqn:Hc; simpl; [constructor|].
  destruct (EqualFold (ci_MimeType ci) mime) eqn:He; simpl; [reflexivity|].
  pose proof (setLayerSsrcCodecs_later rest (0 + 1) mime
                (SpatialLayerToVideoQuality
                   (if RidToSpatialLayer rid (trackInfo t) =? InvalidLayerSpatial
                    then 0 else RidToSpatialLayer rid (trackInfo t)) (trackInfo t))
                ssrc (ti_Layers (trackInfo t)) ltac:(lia)) as Hl.
  destruct (setLayerSsrcCodecs rest (0 + 1) _ _ _ _) as [rest' tiLayers']. simpl in *.
  subst tiLayers'. destruct Hm as [Hm|Hm]; [exact Hm|discriminate].
Qed.

Lemma layersMirrored_UpdateCodecCid (t : MediaTrackReceiver) (codecs : list SimulcastCodec) :
  layersMirrored (trackInfo t) -> layersMirrored (trackInfo (UpdateCodecCid t codecs)).
Proof.
  apply layersMirrored_ext; [reflexivity|].
  apply (setCodecCid_all_frame codecs (ti_Codecs (trackInfo t))).
Qed.

Lemma layersMirrored_UpdateVideoLayers (t : MediaTrackReceiver) (layers : list VideoLayer) :
  layersMirrored (trackInfo (UpdateVideoLayers t layers)).
Proof. apply layersMirrored_mirrorPrimaryLayers. Qed.

Lemma layersMirrored_UpdateTrackInfo (t : MediaTrackReceiver) (ti : TrackInfo) :
  layersMirrored (trackInfo (UpdateTrackInfo t ti)).
Proof. rewrite trackInfo_UpdateTrackInfo. apply layersMirrored_mirrorPrimaryLayers. Qed.

Lemma layersMirrored_runOp (op : Op) (t : MediaTrackReceiver) :
  layersMirrored (trackInfo t) -> layersMirrored (trackInfo (runOp op t)).
Proof.
  intros Hm. destruct op; simpl.
  - apply layersMirrored_SetupReceiver, Hm.
  - rewrite trackInfo_SetPotentialCodecs. exact Hm.
  - exact Hm.
  - exact Hm.
  - exact Hm.
  - destruct f; exact Hm.
  - unfold SetClosing. destruct (state_eqb _ _); exact Hm.
  - rewrite trackInfo_TryClose. exact Hm.
  - rewrite trackInfo_Close. exact Hm.
  - rewrite trackInfo_AddSubscriber. exact Hm.
  - revert Hm. apply layersMirrored_ext; reflexivity.
  - apply layersMirrored_SetLayerSsrc. left. exact Hm.
  - apply layersMirrored_UpdateCodecCid, Hm.
  - apply layersMirrored_UpdateTrackInfo.
  - apply layersMirrored_UpdateVideoLayers.
Qed.

End RunFacts.

(** X14. The top-level layers mirror the layers of the primary codec
    (the codec entry at index 0).  [UpdateTrackInfo] and
    [UpdateVideoLayers] always leave the track info so, and so does
    [SetLayerSsrc] for the mime type of the primary codec; once it holds,
    it holds after every run of operations on the receiver object. *)
Theorem layers_mirror_primary_codec `{C : Collaborators} (t : MediaTrackReceiver)
    (ops : list Op) :
  (forall ti, layersMirrored (trackInfo (UpdateTrackInfo t ti))) /\
  (forall layers, layersMirrored (trackInfo (UpdateVideoLayers t layers))) /\
  (forall mime rid ssrc ci rest,
     ti_Codecs (trackInfo t) = ci :: rest ->
     GoStrings.EqualFold (ci_MimeType ci) mime = true ->
     layersMirrored (trackInfo (SetLayerSsrc t mime rid ssrc))) /\
  (layersMirrored (trackInfo t) -> layersMirrored (trackInfo (runOps ops t))).
Proof.
  split; [apply layersMirrored_UpdateTrackInfo|].
  split; [apply layersMirrored_UpdateVideoLayers|].
  split.
  - intros mime rid ssrc ci rest Hc He. apply layersMirrored_SetLayerSsrc.
    right. rewrite Hc. exact He.
  - revert t. unfold runOps. induction ops as [|op ops IH]; intros t Hm; simpl; [exact Hm|].
    apply IH, layersMirrored_runOp, Hm.
Qed.

Lemma layers_mirror_primary_codec_witness :
  layersMirrored
    (trackInfo
       (runOps (C := refCollaborators)
          [Do_SetPotentialCodecs [vp8; h264] sampleHeaders;
           Do_SetupReceiver (mkReceiver 1 vp8) 0 "0";
           Do_SetLayerSsrc "video/h264" "q" 5555;
           Do_UpdateCodecCid [mkSimulcastCodec "VP8" "cid"];
           Do_SetMuted true; Do_Close]
          sampleTrack)).
Proof.
  apply (proj2 (proj2 (proj2 (layers_mirror_primary_codec (C := refCollaborators) sampleTrack _)))).
  reflexivity.
Defined.

Section StepFacts.
Context `{C : Collaborators}.

Lemma onCloseCalls_app (a b : list Call) :
  onCloseCalls (a ++ b) = onCloseCalls a ++ onCloseCalls b.
Proof. apply List.filter_app. Qed.

Lemma onCloseCalls_map_other {A} (f : A -> Call) (l : list A) :
  (forall x, match f x with Call_onClose _ _ => False | _ => True end) ->
  onCloseCalls (map f l) = [].
Proof.
  intros Hf. induction l as [|x l IH]; simpl; [reflexivity|].
  specialize (Hf x). destruct (f x); try contradiction; exact IH.
Qed.

Lemma onCloseCalls_hooks (s : mediaTrackReceiverState) (fs : list Hook) :
  onCloseCalls (map (fun f => Call_onClose f s) fs) = map (fun f => Call_onClose f s) fs.
Proof. induction fs as [|f fs IH]; simpl; [reflexivity|]. rewrite IH. reflexivity. Qed.

Lemma quietStep_refl (t : MediaTrackReceiver) : quietStep t t.
Proof. unfold quietStep. split; [left; reflexivity|]. split; reflexivity. Qed.

(** An operation that keeps state and hooks and emits no hook call. *)
Lemma quietStep_emit (t t1 : MediaTrackReceiver) (cs : list Call) :
  state t1 = state t -> onClose t1 = onClose t -> calls t1 = calls t ++ cs ->
  onCloseCalls cs = [] -> quietStep t t1.
Proof.
  intros Hs Ho Hc Hcs. unfold quietStep.
  split; [left; exact Hs|]. split.
  - rewrite Hc, onCloseCalls_app, Hcs, app_nil_r. reflexivity.
  - rewrite Ho. reflexivity.
Qed.

Lemma Close_step (t : MediaTrackReceiver) :
  quietStep t (Close t) \/ closingStep t (Close t).
Proof.
  destruct (state_eqb (state t) mediaTrackReceiverStateClosed) eqn:Hs.
  - apply state_eqb_eq in Hs. rewrite Close_closed by exact Hs. left. apply quietStep_refl.
  - apply state_eqb_neq in Hs. rewrite Close_open by exact Hs. right.
    unfold closingStep. split; [exact Hs|]. split; [reflexivity|]. split; [reflexivity|].
    simpl. rewrite onCloseCalls_app, onCloseCalls_hooks. reflexivity.
Qed.

Lemma runOp_step (op : Op) (t : MediaTrackReceiver) :
  quietStep t (runOp op t) \/ closingStep t (runOp op t).
Proof.
  destruct op; simpl.
  - left. unfold SetupReceiver.
    destruct (negb _); [apply quietStep_refl|].
    destruct (upgradeDummy (receivers t) receiver); simpl;
      (destruct (onSetupReceiver t) as [f|];
       [apply (quietStep_emit _ _ [Call_onSetupReceiver f (codec_MimeType (recv_Codec receiver))]);
        reflexivity
       |apply (quietStep_emit _ _ []); try reflexivity; simpl; rewrite app_nil_r; reflexivity]).
  - left. unfold SetPotentialCodecs. destruct (addPotentialCodecs _ _ _ _ _ _ _ _).
    apply (quietStep_emit _ _ []); try reflexivity. simpl. rewrite app_nil_r. reflexivity.
  - left. apply (quietStep_emit _ _ [Call_removeAllSubscribersForMime mime willBeResumed]);
      reflexivity.
  - left. eapply quietStep_emit; [reflexivity|reflexivity|reflexivity|].
    apply onCloseCalls_map_other. intros x. exact I.
  - left. apply (quietStep_emit _ _ []); try reflexivity. simpl. rewrite app_nil_r. reflexivity.
  - left. destruct f as [f|]; simpl; [|apply quietStep_refl].
    unfold quietStep. simpl. split; [left; reflexivity|]. split; [reflexivity|].
    apply prefix_app_r. reflexivity.
  - left. unfold SetClosing. destruct (state_eqb _ _) eqn:Hs; [|apply quietStep_refl].
    apply state_eqb_eq in Hs. unfold quietStep. simpl.
    split; [right; split; [exact Hs|reflexivity]|]. split; reflexivity.
  - unfold TryClose. destruct (state_eqb _ _); [left; apply quietStep_refl|].
    destruct (existsb _ _); [left; apply quietStep_refl|]. apply Close_step.
  - apply Close_step.
  - left. unfold AddSubscriber. destruct (negb _); [apply quietStep_refl|].
    destruct (length (receivers t) =? 0)%nat; [apply quietStep_refl|].
    eapply quietStep_emit; reflexivity.
  - left. eapply quietStep_emit; [reflexivity|reflexivity|reflexivity|].
    rewrite onCloseCalls_app, onCloseCalls_map_other by (intros x; exact I). reflexivity.
  - left. unfold SetLayerSsrc. destruct (setLayerSsrcCodecs _ _ _ _ _ _).
    eapply quietStep_emit; [reflexivity|reflexivity|reflexivity|].
    apply onCloseCalls_map_other. intros x. exact I.
  - left. eapply quietStep_emit; [reflexivity|reflexivity|reflexivity|].
    apply onCloseCalls_map_other. intros x. exact I.
  - left. unfold UpdateTrackInfo. simpl. destruct (negb _).
    + eapply quietStep_emit; [reflexivity|reflexivity| |].
      * simpl. rewrite <- app_assoc. reflexivity.
      * rewrite !onCloseCalls_app, !onCloseCalls_map_other by (intros x; exact I). reflexivity.
    + eapply quietStep_emit; [reflexivity|reflexivity|reflexivity|].
      apply onCloseCalls_map_other. intros x. exact I.
  - left. eapply quietStep_emit; [reflexivity|reflexivity| |].
    + simpl. rewrite <- app_assoc. reflexivity.
    + rewrite onCloseCalls_app, onCloseCalls_map_other by (intros x; exact I). reflexivity.
Qed.

Lemma stateRank_Closed (s : mediaTrackReceiverState) :
  (stateRank mediaTrackReceiverStateClosed <= stateRank s)%nat ->
  s = mediaTrackReceiverStateClosed.
Proof. destruct s; simpl; intros H; [lia|lia|reflexivity]. Qed.

End StepFacts.

(** X15. Over every run of operations on the receiver object, in any
    order: the state never moves backwards (Open, Closing, Closed),
    registered close hooks are never dropped, and the hook calls the run
    adds to the trace are one call for each hook of a list [fs], in
    order, each seeing the state Closed.  That list is empty when the
    run starts Closed or does not end Closed; when the run closes the
    object, it holds every hook registered before the run and only hooks
    registered by the end of it, in registration order.  So no hook runs
    twice and none runs before the object is Closed. *)
Theorem hooks_run_once_over_runs `{C : Collaborators} (ops : list Op)
    (t : MediaTrackReceiver) :
  let t' := runOps ops t in
  (stateRank (state t) <= stateRank (state t'))%nat /\
  onClose t `prefix_of` onClose t' /\
  exists fs,
    onCloseCalls (calls t')
    = onCloseCalls (calls t)
      ++ map (fun f => Call_onClose f mediaTrackReceiverStateClosed) fs /\
    (state t = mediaTrackReceiverStateClosed \/ state t' <> mediaTrackReceiverStateClosed ->
     fs = []) /\
    (state t <> mediaTrackReceiverStateClosed -> state t' = mediaTrackReceiverStateClosed ->
     onClose t `prefix_of` fs /\ fs `prefix_of` onClose t').
Proof.
  unfold runOps. revert t. induction ops as [|op ops IH]; intros t; simpl.
  - split; [lia|]. split; [reflexivity|]. exists []. simpl. rewrite app_nil_r.
    split; [reflexivity|]. split; [reflexivity|]. intros Hn Hc. contradiction.
  - destruct (IH (runOp op t)) as (Hrank & Hpre & fs1 & Hcalls & Hnil & Hfs).
    destruct (runOp_step op t) as [(Hst & Hq & Hp)|(Hn & Hc & Ho & Hq)].
    + split; [destruct Hst as [Hst|[Hs0 Hs1]];
              [rewrite <- Hst; exact Hrank|rewrite Hs0; simpl; lia]|].
      split; [etrans; eassumption|].
      exists fs1. rewrite Hcalls, Hq. split; [reflexivity|]. split.
      * intros [Hs|Hs]; apply Hnil; [left|right; exact Hs].
        destruct Hst as [Hst|[Hs0 _]]; congruence.
      * intros Hs Hs'.
        assert (Hs1 : state (runOp op t) <> mediaTrackReceiverStateClosed)
          by (destruct Hst as [Hst|[_ Hs1]]; congruence).
        destruct (Hfs Hs1 Hs') as (Ha & Hb). split; [etrans; eassumption|exact Hb].
    + assert (Hend : state (fold_left (fun t op => runOp op t) ops (runOp op t))
                     = mediaTrackReceiverStateClosed)
        by (apply stateRank_Closed; rewrite <- Hc; exact Hrank).
      split; [rewrite Hend; destruct (state t); simpl; lia|].
      split; [rewrite <- Ho; exact Hpre|].
      exists (onClose t).
      rewrite Hcalls, (Hnil (or_introl Hc)), Hq. simpl. rewrite app_nil_r.
      split; [reflexivity|]. split.
      * intros [Hs|Hs]; contradiction.
      * intros _ _. split; [reflexivity|]. rewrite <- Ho. exact Hpre.
Qed.

Lemma hooks_run_once_over_runs_witness :
  onCloseCalls
    (calls (runOps (C := refCollaborators)
              [Do_AddOnClose (Some 7%nat); Do_SetClosing; Do_AddOnClose (Some 8%nat);
               Do_Close; Do_AddOnClose (Some 9%nat); Do_Close; Do_TryClose;
               Do_SetMuted true]
              sampleTrack))
  = [Call_onClose 7%nat mediaTrackReceiverStateClosed;
     Call_onClose 8%nat mediaTrackReceiverStateClosed] /\
  (stateRank (state sampleTrack)
   <= stateRank (state (runOps (C := refCollaborators) [Do_SetClosing; Do_Close] sampleTrack)))%nat.
Proof.
  split; [reflexivity|].
  apply (proj1 (hooks_run_once_over_runs (C := refCollaborators) [Do_SetClosing; Do_Close]
                  sampleTrack)).
Defined.

(** ** Quality selection is monotone *)

Lemma stopsAt_weaken (layerSizes : list Z) (target target' : Z) (i : nat) :
  target <= target' -> stopsAt layerSizes target' i -> stopsAt layerSizes target i.
Proof.
  intros Hle [Hlast|(s & next & Hs & Hn & Hts & Hne)]; [left; exact Hlast|].
  right. exists s, next. repeat split; try assumption. lia.
Qed.

Lemma VideoQuality_of_int_id (n : Z) : 0 <= n < 2 ^ 31 -> VideoQuality_of_int n = n.
Proof.
  intros Hn. unfold VideoQuality_of_int.
  rewrite Z.mod_small by lia. lia.
Qed.

Lemma selectQuality_monotone (layerSizes : list Z) (target target' : Z)
    (quality : VideoQuality) :
  layerSizes <> [] -> Z.of_nat (length layerSizes) < 2 ^ 31 -> target <= target' ->
  0 <= selectQuality layerSizes target 0 quality
    <= selectQuality layerSizes target' 0 quality /\
  selectQuality layerSizes target' 0 quality < Z.of_nat (length layerSizes).
Proof.
  intros Hne Hlen Hle.
  destruct (selectQuality_first_stop layerSizes target 0 quality Hne)
    as (i & -> & Hi & _ & Hmin).
  destruct (selectQuality_first_stop layerSizes target' 0 quality Hne)
    as (i' & -> & Hi' & Hstop' & _).
  simpl.
  assert (Hii : (i <= i')%nat).
  { destruct (le_lt_dec i i') as [H|H]; [exact H|].
    exfalso. apply (Hmin i' H). apply (stopsAt_weaken _ _ _ _ Hle Hstop'). }
  rewrite !VideoQuality_of_int_id by lia. lia.
Qed.

(** X16. Asking for more never gives less.  When the dimensions asked
    for grow (both within 16 bits, where the single-precision product is
    the integer part of nine tenths), the quality [GetQualityForDimension]
    answers does not go down; the answer is never negative and, for a
    video track with a height, it is below the number of sizes compared
    (three default sizes, or one per layer). *)
Theorem GetQualityForDimension_monotone (t : MediaTrackReceiver)
    (width height width' height' : Z) :
  0 <= width <= width' -> width' < 65536 ->
  0 <= height <= height' -> height' < 65536 ->
  Z.of_nat (length (ti_Layers (trackInfo t))) < 2 ^ 31 ->
  0 <= GetQualityForDimension t width height
    <= GetQualityForDimension t width' height' /\
  (ti_Type (trackInfo t) <> TrackType_AUDIO -> ti_Height (trackInfo t) <> 0 ->
   GetQualityForDimension t width' height'
   < Z.of_nat (length (layerSizesOf (trackInfo t)))).
Proof.
  intros Hw Hw' Hh Hh' Hlen.
  assert (Hsizes : Z.of_nat (length (layerSizesOf (trackInfo t))) < 2 ^ 31).
  { rewrite layerSizesOf_length. destruct (ti_Layers (trackInfo t)); [simpl; lia|exact Hlen]. }
  assert (Hreq : toleratedSize (requestedSizeOf (trackInfo t) width height)
                 <= toleratedSize (requestedSizeOf (trackInfo t) width' height')).
  { unfold requestedSizeOf.
    destruct (ti_Layers (trackInfo t));
      [destruct (ti_Width (trackInfo t) <? ti_Height (trackInfo t))|];
      rewrite !toleratedSize_floor by lia; apply Z.div_le_mono; lia. }
  pose proof (selectQuality_monotone (layerSizesOf (trackInfo t)) _ _ VideoQuality_HIGH
                (layerSizesOf_nonempty _) Hsizes Hreq) as (Hmono & Hbound).
  destruct (ti_Type (trackInfo t)) eqn:Hk.
  - split; [|intros Hne; contradiction].
    unfold GetQualityForDimension, Kind. rewrite Hk. unfold VideoQuality_HIGH. lia.
  - destruct (Z.eq_dec (ti_Height (trackInfo t)) 0) as [Hz|Hz].
    + split; [|intros _ Hne; contradiction].
      unfold GetQualityForDimension, Kind. rewrite Hk, Hz. simpl. unfold VideoQuality_HIGH. lia.
    + rewrite !GetQualityForDimension_unfold by (congruence || assumption).
      split; [exact Hmono|intros _ _; exact Hbound].
  - destruct (Z.eq_dec (ti_Height (trackInfo t)) 0) as [Hz|Hz].
    + split; [|intros _ Hne; contradiction].
      unfold GetQualityForDimension, Kind. rewrite Hk, Hz. simpl. unfold VideoQuality_HIGH. lia.
    + rewrite !GetQualityForDimension_unfold by (congruence || assumption).
      split; [exact Hmono|intros _ _; exact Hbound].
Qed.

Lemma GetQualityForDimension_monotone_witness :
  0 <= GetQualityForDimension sampleTrack 320 180
    <= GetQualityForDimension sampleTrack 1280 720 /\
  GetQualityForDimension sampleTrack 320 180 = VideoQuality_LOW /\
  GetQualityForDimension sampleTrack 1280 720 = VideoQuality_HIGH.
Proof.
  split; [|split; reflexivity].
  apply (GetQualityForDimension_monotone sampleTrack 320 180 1280 720); simpl; lia.
Defined.

(** ** A fresh receiver object *)

Lemma sortSlice_singleton `{S : SortSliceSpec} (r : simulcastReceiver) :
  sortSlice [r] = [r].
Proof. apply Permutation_singleton_r, sortSlice_Permutation. Qed.

(** X17. A receiver object as [NewMediaTrackReceiver] returns it: Open,
    without slots and hooks, holding the given track info.  The calls it
    has made are the registration of its down-track callback with the
    subscriptions and then, only when the track info is muted, the mute
    of the subscriptions.  It counts as open, hands out no receiver, and
    subscribing fails with [ErrNoReceiver].  After one [SetupReceiver]
    subscribing is delegated with exactly the published receiver as slot
    list and its codec as the only upstream codec. *)
Theorem NewMediaTrackReceiver_fresh `{S : SortSliceSpec} (p : MediaTrackReceiverParams)
    (ti : TrackInfo) :
  let t := NewMediaTrackReceiver p ti in
  state t = mediaTrackReceiverStateOpen /\ receivers t = [] /\ onClose t = [] /\
  trackInfo t = ti /\ params t = p /\
  calls t = Call_Subscriptions_OnDownTrackCreated
            :: (if ti_Muted ti then [Call_Subscriptions_SetMuted true] else []) /\
  (forall isClosed, IsOpen isClosed t = true) /\
  PrimaryReceiver t = None /\ (forall mime, Receiver t mime = None) /\
  (forall sub, AddSubscriber t sub = (AddSubscriber_error ErrNoReceiver, t)) /\
  (forall receiver priority' mid sub,
     exists wr,
       fst (AddSubscriber (SetupReceiver t receiver priority' mid) sub)
       = AddSubscriber_delegated sub wr /\
       wr_Receivers wr = [mkSlot 0 (IsReal receiver) priority'] /\
       wr_UpstreamCodecs wr = [recv_Codec receiver]).
Proof.
  intros t.
  assert (Ht : t = mkMTR p [] ti [] mediaTrackReceiverStateOpen None [] 0%nat
                     (Call_Subscriptions_OnDownTrackCreated
                      :: (if ti_Muted ti then [Call_Subscriptions_SetMuted true] else []))).
  { subst t. unfold NewMediaTrackReceiver. simpl.
    destruct (ti_Muted ti) eqn:Hm; [|reflexivity].
    unfold SetMuted, emit. simpl. f_equal.
    rewrite <- Hm. apply set_ti_Muted_same. }
  rewrite Ht. clear Ht t.
  repeat (split; [reflexivity|]).
  intros receiver priority' mid sub.
  unfold SetupReceiver. simpl. rewrite sortSlice_singleton.
  unfold AddSubscriber. simpl.
  eexists. split; [reflexivity|]. split; reflexivity.
Qed.

Lemma NewMediaTrackReceiver_fresh_witness :
  fst (AddSubscriber (C := refCollaborators) sampleTrack (mkParticipant "PA_sub" true))
  = AddSubscriber_error ErrNoReceiver /\
  state sampleTrack = mediaTrackReceiverStateOpen.
Proof.
  pose proof (NewMediaTrackReceiver_fresh (S := refCollaborators_SortSliceSpec)
                sampleParams sampleTrackInfo) as H.
  cbv zeta in H. destruct H as (Hs & _ & _ & _ & _ & _ & _ & _ & _ & Hsub & _).
  split; [|exact Hs].
  unfold sampleTrack. rewrite Hsub. reflexivity.
Defined.

(** ** Revoking subscriptions *)

Lemma revokeLoop_filter (subTracks : list SubscribedTrack) (allowed : list string)
    (removed : list RemoveSubscriberCall) (revoked : list string) :
  let disallowed :=
    List.filter
      (fun st => negb (existsb (fun a => String.eqb (st_SubscriberIdentity st) a) allowed))
      subTracks in
  revokeLoop subTracks allowed removed revoked
  = (removed ++ map (fun st => mkRemoveSubscriberCall (st_SubscriberID st) false) disallowed,
     revoked ++ map st_SubscriberIdentity disallowed).
Proof.
  revert removed revoked; induction subTracks as [|st rest IH]; intros removed revoked; simpl.
  - rewrite !app_nil_r. reflexivity.
  - destruct (negb _); simpl.
    + rewrite IH. simpl. rewrite <- !app_assoc. reflexivity.
    + apply IH.
Qed.

Lemma filter_sublist {A} (f : A -> bool) (l : list A) : List.filter f l `sublist_of` l.
Proof.
  induction l as [|x l IH]; simpl; [constructor|].
  destruct (f x); [apply sublist_skip|apply sublist_cons]; exact IH.
Qed.

Lemma not_allowed_iff (allowed : list string) (id : string) :
  negb (existsb (fun a => String.eqb id a) allowed) = true <-> id ∉ allowed.
Proof.
  rewrite negb_true_iff. split.
  - intros Hf Hin. apply list_elem_of_In in Hin.
    assert (Ht : existsb (fun a => String.eqb id a) allowed = true).
    { apply existsb_exists. exists id. split; [exact Hin|apply String.eqb_refl]. }
    congruence.
  - intros Hn. destruct (existsb _ allowed) eqn:He; [|reflexivity].
    apply existsb_exists in He as (a & Ha & Heq). apply String.eqb_eq in Heq. subst a.
    exfalso. apply Hn, list_elem_of_In, Ha.
Qed.

(** X18. [RevokeDisallowedSubscribers] removes exactly the subscribed
    tracks whose subscriber identity is not in the allow-list: the
    removed tracks are a sublist of the subscribed tracks (the
    collaborator's order), each removed by one call of
    [RemoveSubscriber] with its subscriber id and [willBeResumed =
    false], and the identities returned are theirs, in the same order.
    No allowed identity is ever revoked; when every subscriber is
    allowed nothing is removed and the result is empty. *)
Theorem RevokeDisallowedSubscribers_exact (subscribedTracks : list SubscribedTrack)
    (allowed : list string) :
  let result := RevokeDisallowedSubscribers subscribedTracks allowed in
  (exists sts,
     sts `sublist_of` subscribedTracks /\
     (forall st, st ∈ sts <-> st ∈ subscribedTracks /\ st_SubscriberIdentity st ∉ allowed) /\
     fst result = map (fun st => mkRemoveSubscriberCall (st_SubscriberID st) false) sts /\
     snd result = map st_SubscriberIdentity sts) /\
  (forall id, id ∈ snd result -> id ∉ allowed) /\
  length (fst result) = length (snd result) /\
  ((forall st, st ∈ subscribedTracks -> st_SubscriberIdentity st ∈ allowed) ->
   result = ([], [])).
Proof.
  intros result. subst result. unfold RevokeDisallowedSubscribers.
  rewrite revokeLoop_filter. simpl.
  set (keep := fun st : SubscribedTrack =>
                 negb (existsb (fun a => String.eqb (st_SubscriberIdentity st) a) allowed)).
  assert (Hmem : forall st, st ∈ List.filter keep subscribedTracks
                            <-> st ∈ subscribedTracks /\ st_SubscriberIdentity st ∉ allowed).
  { intros st. rewrite list_elem_of_In, filter_In, <- list_elem_of_In. unfold keep.
    rewrite not_allowed_iff. reflexivity. }
  split; [|split; [|split]].
  - exists (List.filter keep subscribedTracks).
    split; [apply filter_sublist|]. split; [exact Hmem|]. split; reflexivity.
  - intros id Hid. apply list_elem_of_fmap in Hid as (st & -> & Hst).
    apply Hmem in Hst. tauto.
  - rewrite !length_map. reflexivity.
  - intros Hall.
    assert (Hnil : List.filter keep subscribedTracks = []).
    { destruct (List.filter keep subscribedTracks) as [|st l] eqn:E; [reflexivity|].
      exfalso. assert (Hst : st ∈ st :: l) by left.
      apply Hmem in Hst as (Hin & Hno). apply Hno, Hall, Hin. }
    rewrite Hnil. reflexivity.
Qed.

Lemma RevokeDisallowedSubscribers_exact_witness :
  RevokeDisallowedSubscribers
    [mkSubscribedTrack "alice" "PA_a"; mkSubscribedTrack "bob" "PA_b";
     mkSubscribedTrack "carol" "PA_c"]
    ["carol"; "alice"]%string
  = ([mkRemoveSubscriberCall "PA_b" false], ["bob"%string]) /\
  RevokeDisallowedSubscribers [mkSubscribedTrack "alice" "PA_a"] ["alice"%string] = ([], []).
Proof.
  split; [reflexivity|].
  apply (proj2 (proj2 (proj2 (RevokeDisallowedSubscribers_exact
                                [mkSubscribedTrack "alice" "PA_a"] ["alice"%string])))).
  intros st Hst. apply list_elem_of_singleton in Hst. subst st. left.
Defined.

(** ** The mid of a published codec *)


